(** * QA Daily Quiz popup (popup.js): a shallow embedding and its properties

    The popup script is modelled as state-passing code over an explicit
    record of everything it reads and writes: [localStorage], the five DOM
    elements it looks up by id, the category checkboxes, the listeners it
    registers, the module-level array [allQuestions], the error console
    and the log of requests handed to [fetch].  The network and
    [Math.random] are oracles: the first maps the n-th request and its URL
    to what the request yields, the second gives the n-th random number.
    The number of elements the engine can spread into the arguments of one
    call is a parameter.

    Conventions of the model.
    - A string kept in [localStorage] is represented by what [JSON.parse]
      makes of it: either the text is not JSON, or it encodes a value.
      [JSON.stringify] of a value is the text that encodes it.
    - A result of [Math.random()] is represented by the index
      [Math.floor(r * n)] it gives for each length [n]; the double product
      and its rounding are not computed.
    - The [async] function [fetchQuestions] is given step by step: its
      start, which runs up to the first [await], and what it does each
      time it is resumed.  Handlers and steps of other fetch cycles can
      run between two steps ([interleave]).  [fetchQuestions] itself is
      the cycle between whose steps nothing else runs, and [run] handles
      a sequence of events each of whose fetch cycles ends before the next
      event.  An exception that leaves an [async] function is the
      rejection of its promise; the model reports it like any other
      uncaught exception.
    - [popup.html] is taken to provide the five elements. *)

From Stdlib Require Import QArith Ascii String.
From stdpp Require Import gmap strings list fin_maps pretty.

#[local] Set Warnings "-register-all,-clear-no-such-hyp".

Local Open Scope string_scope.
Local Open Scope list_scope.
Local Open Scope nat_scope.

(** ** JSON values and the JavaScript operations the script applies to them *)

Inductive json :=
| JNull
| JBool (b : bool)
| JNum (q : Q)
| JStr (s : string)
| JArr (items : list json)
| JObj (fields : list (string * json)).

(** A JavaScript value the script handles: [None] is [undefined]. *)
Definition jsval := option json.

Inductive error := SyntaxError | TypeError | RangeError.

(** Own properties of an object made by [JSON.parse], as an association
    list with the live binding of a key first. *)
Fixpoint own_property (fields : list (string * json)) (name : string) : jsval :=
  match fields with
  | [] => None
  | (k, v) :: rest => if String.eqb k name then Some v else own_property rest name
  end.

(** [!v] is [negb (truthy v)]. *)
Definition truthy (v : json) : bool :=
  match v with
  | JNull => false
  | JBool b => b
  | JNum q => negb (Qeq_bool q 0)
  | JStr s => negb (String.eqb s "")
  | JArr _ | JObj _ => true
  end.

(** [v.length === 0] for a value that is neither [null] nor [undefined]. *)
Definition length_is_zero (v : json) : bool :=
  match v with
  | JArr items => length items =? 0
  | JStr s => String.length s =? 0
  | JObj fields =>
      match own_property fields "length" with
      | Some (JNum q) => Qeq_bool q 0
      | _ => false
      end
  | _ => false
  end.

Fixpoint is_prefix (p s : string) : bool :=
  match p, s with
  | EmptyString, _ => true
  | String a p', String b s' => Ascii.eqb a b && is_prefix p' s'
  | String _ _, EmptyString => false
  end.

(** [s.includes(p)] on strings. *)
Fixpoint string_includes (s p : string) : bool :=
  is_prefix p s ||
  match s with
  | EmptyString => false
  | String _ s' => string_includes s' p
  end.

(** [v.includes(x)] for a string [x]: [Array.prototype.includes] compares
    with SameValueZero, [String.prototype.includes] searches a substring,
    and no other JSON value has a callable [includes]. *)
Definition includes (v : json) (x : string) : error + bool :=
  match v with
  | JArr items =>
      inr (existsb (fun item => match item with JStr s => String.eqb s x | _ => false end) items)
  | JStr s => inr (string_includes s x)
  | _ => inl TypeError
  end.

(** [v.name] for a name that no built-in prototype defines ([question],
    [answer]): reading a property of [null] throws. *)
Definition member (v : json) (name : string) : error + jsval :=
  match v with
  | JNull => inl TypeError
  | JObj fields => inr (own_property fields name)
  | _ => inr None
  end.

Definition has_key (name : string) (fields : list (string * json)) : bool :=
  existsb (fun kv => String.eqb (fst kv) name) fields.

(** Whether converting [v] to a string throws: an object that carries its
    own, hence not callable, [toString] has no primitive value, and
    [Array.prototype.join] converts every element other than [null]. *)
Fixpoint ToString_throws (v : json) : bool :=
  match v with
  | JArr items => existsb ToString_throws items
  | JObj fields => has_key "toString" fields
  | _ => false
  end.

(** The text of a DOM node.  The string form of a number or of an array
    is kept as the value it is the string form of. *)
Inductive DOMString :=
| Str (s : string)
| ToStringOf (v : json).

(** Conversion of an assigned value to the nullable [DOMString] of
    [textContent]: [undefined] and [null] give the empty text. *)
Definition to_textContent (v : jsval) : error + DOMString :=
  match v with
  | None | Some JNull => inr (Str "")
  | Some (JStr s) => inr (Str s)
  | Some (JBool true) => inr (Str "true")
  | Some (JBool false) => inr (Str "false")
  | Some (JObj fields) =>
      if has_key "toString" fields then inl TypeError else inr (Str "[object Object]")
  | Some w => if ToString_throws w then inl TypeError else inr (ToStringOf w)
  end.

(** ** [encodeURIComponent] on the UTF-8 bytes of a string *)

Definition unreserved (a : ascii) : bool :=
  let n := nat_of_ascii a in
  ((65 <=? n) && (n <=? 90)) || ((97 <=? n) && (n <=? 122)) || ((48 <=? n) && (n <=? 57))
  || string_includes "-_.!~*'()" (String a EmptyString).

Definition hex_digit (n : nat) : ascii :=
  match String.get n "0123456789ABCDEF" with
  | Some a => a
  | None => "0"%char
  end.

Definition percent_encode (a : ascii) : string :=
  let n := nat_of_ascii a in
  String "%"%char (String (hex_digit (n / 16)) (String (hex_digit (n mod 16)) EmptyString)).

Fixpoint encodeURIComponent (s : string) : string :=
  match s with
  | EmptyString => EmptyString
  | String a s' =>
      (if unreserved a then String a EmptyString else percent_encode a) +:+ encodeURIComponent s'
  end.

(** ** The world the script runs in *)

(** A string held by [localStorage], seen through [JSON.parse]:
    [Malformed raw] is the text [raw], which is not JSON, and [Encodes v]
    is a text that parses to [v]. *)
Inductive storage_text :=
| Malformed (raw : string)
| Encodes (v : json).

Definition JSON_stringify (v : json) : storage_text := Encodes v.

(** [JSON.parse(localStorage.getItem(key))]: a missing key gives [null],
    which [JSON.parse] reads as the text of [null]. *)
Definition JSON_parse (item : option storage_text) : error + json :=
  match item with
  | None => inr JNull
  | Some (Malformed _) => inl SyntaxError
  | Some (Encodes v) => inr v
  end.

Record element := { classList : gset string; textContent : DOMString }.

Record checkbox := { value : string; checked : bool }.

Inductive response_body :=
| NotJSON
| JSONText (v : json).

Record response := { status : nat; body : response_body }.

(** [response.ok]: the status is in the range 200-299. *)
Definition ok (r : response) : bool := (200 <=? status r) && (status r <=? 299).

(** How the promise returned by [fetch] settles. *)
Inductive fetch_outcome :=
| Rejects (e : error)
| Responds (r : response).

(** A call of [console.error]: the message and the error object passed
    after it, if any. *)
Record log_entry := { message : string; logged_error : option error }.

(** A result of [Math.random()], a double of [[0, 1)], seen through the
    one use the script makes of it: [floor_times r n] is
    [Math.floor(r * n)], the floor of the rounded double product of [r]
    and the length [n].  For a length other than zero it is an index
    below the length. *)
Record random_number := {
  floor_times : nat → nat;
  floor_times_lt : ∀ n, 0 < n → floor_times n < n
}.

(** [Math.floor(r * n)] *)
Definition Math_floor_times (r : random_number) (n : nat) : nat := floor_times r n.

(** The state has, besides what the script reads and writes, the
    listeners it has registered: [change_listeners] holds the indices of
    the checkboxes on which line 32 has registered
    [saveCategorySelections], and [click_listeners] tells whether lines
    146-153 have registered the handlers of the two buttons. *)
Record state := {
  localStorage : gmap string storage_text;
  checkboxes : list checkbox;
  showAnswerBtn : element;
  nextQuestionBtn : element;
  questionText : element;
  answerText : element;
  loadingSpinner : element;
  allQuestions : list json;
  console : list log_entry;
  requests : list string;
  drawn : nat;
  change_listeners : gset nat;
  click_listeners : bool
}.

(** Field updates of the state record. *)

Definition on_localStorage (f : gmap string storage_text → gmap string storage_text) (s : state) : state :=
  {| localStorage := f (localStorage s); checkboxes := checkboxes s;
     showAnswerBtn := showAnswerBtn s; nextQuestionBtn := nextQuestionBtn s;
     questionText := questionText s; answerText := answerText s;
     loadingSpinner := loadingSpinner s; allQuestions := allQuestions s;
     console := console s; requests := requests s; drawn := drawn s;
     change_listeners := change_listeners s; click_listeners := click_listeners s |}.

Definition on_checkboxes (f : list checkbox → list checkbox) (s : state) : state :=
  {| localStorage := localStorage s; checkboxes := f (checkboxes s);
     showAnswerBtn := showAnswerBtn s; nextQuestionBtn := nextQuestionBtn s;
     questionText := questionText s; answerText := answerText s;
     loadingSpinner := loadingSpinner s; allQuestions := allQuestions s;
     console := console s; requests := requests s; drawn := drawn s;
     change_listeners := change_listeners s; click_listeners := click_listeners s |}.

Definition on_showAnswerBtn (f : element → element) (s : state) : state :=
  {| localStorage := localStorage s; checkboxes := checkboxes s;
     showAnswerBtn := f (showAnswerBtn s); nextQuestionBtn := nextQuestionBtn s;
     questionText := questionText s; answerText := answerText s;
     loadingSpinner := loadingSpinner s; allQuestions := allQuestions s;
     console := console s; requests := requests s; drawn := drawn s;
     change_listeners := change_listeners s; click_listeners := click_listeners s |}.

Definition on_nextQuestionBtn (f : element → element) (s : state) : state :=
  {| localStorage := localStorage s; checkboxes := checkboxes s;
     showAnswerBtn := showAnswerBtn s; nextQuestionBtn := f (nextQuestionBtn s);
     questionText := questionText s; answerText := answerText s;
     loadingSpinner := loadingSpinner s; allQuestions := allQuestions s;
     console := console s; requests := requests s; drawn := drawn s;
     change_listeners := change_listeners s; click_listeners := click_listeners s |}.

Definition on_questionText (f : element → element) (s : state) : state :=
  {| localStorage := localStorage s; checkboxes := checkboxes s;
     showAnswerBtn := showAnswerBtn s; nextQuestionBtn := nextQuestionBtn s;
     questionText := f (questionText s); answerText := answerText s;
     loadingSpinner := loadingSpinner s; allQuestions := allQuestions s;
     console := console s; requests := requests s; drawn := drawn s;
     change_listeners := change_listeners s; click_listeners := click_listeners s |}.

Definition on_answerText (f : element → element) (s : state) : state :=
  {| localStorage := localStorage s; checkboxes := checkboxes s;
     showAnswerBtn := showAnswerBtn s; nextQuestionBtn := nextQuestionBtn s;
     questionText := questionText s; answerText := f (answerText s);
     loadingSpinner := loadingSpinner s; allQuestions := allQuestions s;
     console := console s; requests := requests s; drawn := drawn s;
     change_listeners := change_listeners s; click_listeners := click_listeners s |}.

Definition on_loadingSpinner (f : element → element) (s : state) : state :=
  {| localStorage := localStorage s; checkboxes := checkboxes s;
     showAnswerBtn := showAnswerBtn s; nextQuestionBtn := nextQuestionBtn s;
     questionText := questionText s; answerText := answerText s;
     loadingSpinner := f (loadingSpinner s); allQuestions := allQuestions s;
     console := console s; requests := requests s; drawn := drawn s;
     change_listeners := change_listeners s; click_listeners := click_listeners s |}.

Definition on_allQuestions (f : list json → list json) (s : state) : state :=
  {| localStorage := localStorage s; checkboxes := checkboxes s;
     showAnswerBtn := showAnswerBtn s; nextQuestionBtn := nextQuestionBtn s;
     questionText := questionText s; answerText := answerText s;
     loadingSpinner := loadingSpinner s; allQuestions := f (allQuestions s);
     console := console s; requests := requests s; drawn := drawn s;
     change_listeners := change_listeners s; click_listeners := click_listeners s |}.

Definition on_console (f : list log_entry → list log_entry) (s : state) : state :=
  {| localStorage := localStorage s; checkboxes := checkboxes s;
     showAnswerBtn := showAnswerBtn s; nextQuestionBtn := nextQuestionBtn s;
     questionText := questionText s; answerText := answerText s;
     loadingSpinner := loadingSpinner s; allQuestions := allQuestions s;
     console := f (console s); requests := requests s; drawn := drawn s;
     change_listeners := change_listeners s; click_listeners := click_listeners s |}.

Definition on_requests (f : list string → list string) (s : state) : state :=
  {| localStorage := localStorage s; checkboxes := checkboxes s;
     showAnswerBtn := showAnswerBtn s; nextQuestionBtn := nextQuestionBtn s;
     questionText := questionText s; answerText := answerText s;
     loadingSpinner := loadingSpinner s; allQuestions := allQuestions s;
     console := console s; requests := f (requests s); drawn := drawn s;
     change_listeners := change_listeners s; click_listeners := click_listeners s |}.

Definition on_drawn (f : nat → nat) (s : state) : state :=
  {| localStorage := localStorage s; checkboxes := checkboxes s;
     showAnswerBtn := showAnswerBtn s; nextQuestionBtn := nextQuestionBtn s;
     questionText := questionText s; answerText := answerText s;
     loadingSpinner := loadingSpinner s; allQuestions := allQuestions s;
     console := console s; requests := requests s; drawn := f (drawn s);
     change_listeners := change_listeners s; click_listeners := click_listeners s |}.

Definition on_change_listeners (f : gset nat → gset nat) (s : state) : state :=
  {| localStorage := localStorage s; checkboxes := checkboxes s;
     showAnswerBtn := showAnswerBtn s; nextQuestionBtn := nextQuestionBtn s;
     questionText := questionText s; answerText := answerText s;
     loadingSpinner := loadingSpinner s; allQuestions := allQuestions s;
     console := console s; requests := requests s; drawn := drawn s;
     change_listeners := f (change_listeners s); click_listeners := click_listeners s |}.

Definition on_click_listeners (f : bool → bool) (s : state) : state :=
  {| localStorage := localStorage s; checkboxes := checkboxes s;
     showAnswerBtn := showAnswerBtn s; nextQuestionBtn := nextQuestionBtn s;
     questionText := questionText s; answerText := answerText s;
     loadingSpinner := loadingSpinner s; allQuestions := allQuestions s;
     console := console s; requests := requests s; drawn := drawn s;
     change_listeners := change_listeners s; click_listeners := f (click_listeners s) |}.

(** [classList.add], [classList.remove], [classList.toggle] and the
    assignment of an already converted text to [textContent]. *)

Definition classList_add (c : string) (e : element) : element :=
  {| classList := {[c]} ∪ classList e; textContent := textContent e |}.

Definition classList_remove (c : string) (e : element) : element :=
  {| classList := classList e ∖ {[c]}; textContent := textContent e |}.

Definition classList_toggle (c : string) (e : element) : element :=
  if decide (c ∈ classList e) then classList_remove c e else classList_add c e.

Definition set_textContent (t : DOMString) (e : element) : element :=
  {| classList := classList e; textContent := t |}.

Definition hidden (e : element) : Prop := "hidden" ∈ classList e.

(** ** Computations of the script: state passing with exceptions *)

Inductive completion (A : Type) :=
| Normal (a : A)
| Throw (e : error).
Arguments Normal {A} a.
Arguments Throw {A} e.

Definition js (A : Type) : Type := state → completion A * state.

Definition ret {A} (a : A) : js A := fun s => (Normal a, s).

Definition throw {A} (e : error) : js A := fun s => (Throw e, s).

Definition bind {A B} (m : js A) (k : A → js B) : js B :=
  fun s =>
    match m s with
    | (Normal a, s') => k a s'
    | (Throw e, s') => (Throw e, s')
    end.

Definition gets {A} (f : state → A) : js A := fun s => (Normal (f s), s).

Definition modify (f : state → state) : js unit := fun s => (Normal tt, f s).

Definition lift {A} (r : error + A) : js A :=
  match r with
  | inl e => throw e
  | inr a => ret a
  end.

(** [try { body } catch (error) { handler }] *)
Definition try_catch (body : js unit) (handler : error → js unit) : js unit :=
  fun s =>
    match body s with
    | (Normal a, s') => (Normal a, s')
    | (Throw e, s') => handler e s'
    end.

Declare Scope js_scope.
Delimit Scope js_scope with js.
Bind Scope js_scope with js.

Notation "x <- m ;; k" := (bind m (fun x => k))
  (at level 100, m at next level, right associativity) : js_scope.
Notation "m ;; k" := (bind m (fun _ => k))
  (at level 100, right associativity) : js_scope.

Local Open Scope js_scope.

Definition console_error (msg : string) (err : option error) : js unit :=
  modify (on_console (fun log => log ++ [{| message := msg; logged_error := err |}])).

Definition localStorage_setItem (key : string) (text : storage_text) : js unit :=
  modify (on_localStorage (fun store => <[key := text]> store)).

Definition APPS_SCRIPT_URL : string :=
  "https://script.google.com/macros/s/AKfycbz0BpOl-XMBbu0oXpEOCBL_QFwluIaS2DxSWq84wbrL3zuYK-LHdz0wlANw092gndDAoQ/exec".

(** [array[i], array[j]] = [array[j], array[i]]: both reads come first.
    The loop of [shuffleArray] only uses indices inside the array, where
    neither read is [undefined] and no write extends the array. *)
Definition swap {A} (array : list A) (i j : nat) : list A :=
  match array !! j, array !! i with
  | Some aj, Some ai => <[j := ai]> (<[i := aj]> array)
  | _, _ => array
  end.

(** The template literal of line 78. *)
Definition request_url (category : string) : string :=
  APPS_SCRIPT_URL +:+ "?category=" +:+ encodeURIComponent category.

Definition selected (cbs : list checkbox) : list string :=
  List.map value (List.filter checked cbs).

(** [await promise] for the promise of a [fetch]: a rejection is thrown
    where the [await] stands. *)
Definition await_fetch (promise : fetch_outcome) : js response :=
  match promise with
  | Rejects e => throw e
  | Responds r => ret r
  end.

(** [await response.json()] *)
Definition response_json (r : response) : js json :=
  match body r with
  | NotJSON => throw SyntaxError
  | JSONText v => ret v
  end.

(** What a fetch cycle is suspended on: the promise of the [fetch] of
    line 78, with the way it will settle, or the promise of
    [response.json()] at line 83. *)
Inductive awaiting :=
| FetchPromise (promise : fetch_outcome)
| JsonPromise (r : response).

(** A call of [fetchQuestions] suspended at an [await]: the category of
    the iteration it is in, what it waits for and the categories the loop
    has still to visit. *)
Record cycle := { current : string; awaited : awaiting; remaining : list string }.

Section Popup.

(** The largest number of elements the engine spreads into the arguments
    of one call. *)
Variable spread_limit : nat.

(** How the n-th request, to the given URL, ends. *)
Variable net : nat → string → fetch_outcome.

(** The n-th result of [Math.random()]. *)
Variable random : nat → random_number.

Definition Math_random : js random_number :=
  fun s => (Normal (random (drawn s)), on_drawn S s).

(** [fetch(url)]: the request goes out and a promise comes back at once. *)
Definition fetch (url : string) : js fetch_outcome :=
  fun s => (Normal (net (length (requests s)) url), on_requests (fun log => log ++ [url]) s).

(** [allQuestions.push(...items)]: an array too long to be spread into
    the arguments makes the call throw before anything is pushed. *)
Definition push_spread (items : list json) : js unit :=
  if length items <=? spread_limit then modify (on_allQuestions (fun pool => pool ++ items))
  else throw RangeError.

(** lines 103-110 *)
Definition toggleLoading (isLoading : bool) : js unit :=
  if isLoading then
    modify (on_loadingSpinner (classList_remove "hidden")) ;;
    modify (on_questionText (set_textContent (Str "")))
  else
    modify (on_loadingSpinner (classList_add "hidden")).

(** lines 138-143; [shuffle_from i] is the loop entered with counter [i] *)
Fixpoint shuffle_from {A} (i : nat) (array : list A) : js (list A) :=
  match i with
  | 0 => ret array
  | S i' =>
      r <- Math_random ;;
      let j := Math_floor_times r (i + 1) in
      shuffle_from i' (swap array i j)
  end.

Definition shuffleArray {A} (array : list A) : js (list A) :=
  shuffle_from (length array - 1) array.

Definition guidance : string :=
  "Please make sure you are logged into only one Google account in your browser, as the extension will not work correctly with multiple accounts. ".

(** lines 115-132 *)
Definition displayNextQuestion : js unit :=
  pool <- gets allQuestions ;;
  if length pool =? 0 then
    modify (on_questionText (set_textContent (Str guidance))) ;;
    modify (on_answerText (classList_add "hidden")) ;;
    modify (on_showAnswerBtn (classList_add "hidden")) ;;
    modify (on_nextQuestionBtn (classList_add "hidden"))
  else
    r <- Math_random ;;
    let randomIndex := Math_floor_times r (length pool) in
    match pool !! randomIndex with
    | None => throw TypeError
    | Some questionData =>
        q <- lift (member questionData "question") ;;
        qt <- lift (to_textContent q) ;;
        modify (on_questionText (set_textContent qt)) ;;
        a <- lift (member questionData "answer") ;;
        at' <- lift (to_textContent a) ;;
        modify (on_answerText (set_textContent at')) ;;
        modify (on_answerText (classList_add "hidden")) ;;
        modify (on_showAnswerBtn (classList_remove "hidden")) ;;
        modify (on_nextQuestionBtn (classList_remove "hidden"))
    end.

(** *** A fetch cycle, step by step *)

(** line 80 *)
Definition log_status (category : string) (response : response) : js unit :=
  console_error ("Error fetching " +:+ category +:+ ". Status: " +:+ pretty (status response)) None.

(** lines 84-88 *)
Definition collect (category : string) (newQuestions : json) : js unit :=
  match newQuestions with
  | JArr items => push_spread items
  | _ => console_error ("Invalid data for category: " +:+ category) None
  end.

(** lines 89-91 *)
Definition log_fetch_error (category : string) (error : error) : js unit :=
  console_error ("Fetch error for " +:+ category +:+ ":") (Some error).

(** lines 94-96 *)
Definition after_loop : js unit :=
  pool <- gets allQuestions ;;
  shuffled <- shuffleArray pool ;;
  modify (on_allQuestions (fun _ => shuffled)) ;;
  toggleLoading false ;;
  displayNextQuestion.

(** The loop at the head of an iteration.  With a category left, line 78
    hands its request to [fetch] and the function is suspended on the
    promise; with none left, lines 94-96 run and the call ends. *)
Definition next_category (categories : list string) : js (option cycle) :=
  match categories with
  | category :: rest =>
      promise <- fetch (request_url category) ;;
      ret (Some {| current := category; awaited := FetchPromise promise; remaining := rest |})
  | [] =>
      after_loop ;;
      ret None
  end.

(** lines 71-74 and the loop up to its first [await] *)
Definition fetchQuestions_start (categories : list string) : js (option cycle) :=
  modify (on_allQuestions (fun _ => [])) ;;
  toggleLoading true ;;
  modify (on_showAnswerBtn (classList_add "hidden")) ;;
  modify (on_nextQuestionBtn (classList_add "hidden")) ;;
  next_category categories.

(** The suspended call is resumed and runs up to its next [await] or to
    its end.  After the [await] of line 78: a rejection is caught and
    logged (lines 89-91), a status outside 200-299 is logged (lines
    79-82), and in both cases the loop goes on; otherwise line 83 suspends
    the call again.  After the [await] of line 83: lines 83-88 inside the
    [try], then the loop goes on. *)
Definition fetchQuestions_resume (c : cycle) : js (option cycle) :=
  match awaited c with
  | FetchPromise (Rejects error) =>
      log_fetch_error (current c) error ;;
      next_category (remaining c)
  | FetchPromise (Responds response) =>
      if negb (ok response) then
        log_status (current c) response ;;
        next_category (remaining c)
      else
        ret (Some {| current := current c; awaited := JsonPromise response;
                     remaining := remaining c |})
  | JsonPromise response =>
      try_catch
        (newQuestions <- response_json response ;;
         collect (current c) newQuestions)
        (log_fetch_error (current c)) ;;
      next_category (remaining c)
  end.

(** The cycle is resumed again and again, with nothing else in between,
    until it has ended; a cycle needs two steps for each category it has
    still to finish. *)
Fixpoint resume_to_end (steps : nat) (c : option cycle) : js unit :=
  match c, steps with
  | Some c, S steps' =>
      c' <- fetchQuestions_resume c ;;
      resume_to_end steps' c'
  | _, _ => ret tt
  end.

Definition steps_left (c : option cycle) : nat :=
  match c with
  | Some c => 2 * S (length (remaining c))
  | None => 0
  end.

(** A handler and the cycle it starts, with nothing else in between. *)
Definition alone (start : js (option cycle)) : js unit :=
  c <- start ;;
  resume_to_end (steps_left c) c.

(** *** A fetch cycle in one piece *)

(** The body of the [for ... of] loop, lines 77-91. *)
Definition fetch_category (category : string) : js unit :=
  try_catch
    (promise <- fetch (request_url category) ;;
     response <- await_fetch promise ;;
     if negb (ok response) then
       log_status category response
     else
       newQuestions <- response_json response ;;
       collect category newQuestions)
    (log_fetch_error category).

Fixpoint for_of (categories : list string) : js unit :=
  match categories with
  | [] => ret tt
  | category :: rest => fetch_category category ;; for_of rest
  end.

(** lines 70-97, when nothing else runs between the [await]s *)
Definition fetchQuestions (categories : list string) : js unit :=
  modify (on_allQuestions (fun _ => [])) ;;
  toggleLoading true ;;
  modify (on_showAnswerBtn (classList_add "hidden")) ;;
  modify (on_nextQuestionBtn (classList_add "hidden")) ;;
  for_of categories ;;
  after_loop.

Definition select_prompt : string := "Please select at least one category.".

(** *** The handlers *)

(** lines 49-64.  [fetchQuestion] does not wait for the cycle it starts:
    [fetchQuestion_start] is the call itself, which returns the cycle it
    has started, if any, and [fetchQuestion] is the call together with
    that cycle. *)
Definition fetchQuestion_start : js (option cycle) :=
  selectedCategories <- gets (fun s => selected (checkboxes s)) ;;
  if length selectedCategories =? 0 then
    modify (on_questionText (set_textContent (Str select_prompt))) ;;
    modify (on_answerText (classList_add "hidden")) ;;
    modify (on_showAnswerBtn (classList_add "hidden")) ;;
    modify (on_nextQuestionBtn (classList_add "hidden")) ;;
    modify (on_loadingSpinner (classList_add "hidden")) ;;
    ret None
  else
    fetchQuestions_start selectedCategories.

Definition fetchQuestion : js unit :=
  selectedCategories <- gets (fun s => selected (checkboxes s)) ;;
  if length selectedCategories =? 0 then
    modify (on_questionText (set_textContent (Str select_prompt))) ;;
    modify (on_answerText (classList_add "hidden")) ;;
    modify (on_showAnswerBtn (classList_add "hidden")) ;;
    modify (on_nextQuestionBtn (classList_add "hidden")) ;;
    modify (on_loadingSpinner (classList_add "hidden"))
  else
    fetchQuestions selectedCategories.

(** lines 38-44 *)
Definition saveCategorySelections_start : js (option cycle) :=
  selectedCategories <- gets (fun s => selected (checkboxes s)) ;;
  localStorage_setItem "selectedCategories" (JSON_stringify (JArr (List.map JStr selectedCategories))) ;;
  fetchQuestion_start.

Definition saveCategorySelections : js unit :=
  selectedCategories <- gets (fun s => selected (checkboxes s)) ;;
  localStorage_setItem "selectedCategories" (JSON_stringify (JArr (List.map JStr selectedCategories))) ;;
  fetchQuestion.

(** The user clicks the [k]-th checkbox, if there is one: the browser
    flips it and then runs the [change] listener that line 32 has
    registered on it, if the load handler got that far. *)
Definition change_start (k : nat) : js (option cycle) :=
  cbs <- gets checkboxes ;;
  match cbs !! k with
  | Some c =>
      modify (on_checkboxes (fun l => <[k := {| value := value c; checked := negb (checked c) |}]> l)) ;;
      listeners <- gets change_listeners ;;
      if decide (k ∈ listeners) then saveCategorySelections_start else ret None
  | None => ret None
  end.

Definition change (k : nat) : js unit :=
  cbs <- gets checkboxes ;;
  match cbs !! k with
  | Some c =>
      modify (on_checkboxes (fun l => <[k := {| value := value c; checked := negb (checked c) |}]> l)) ;;
      listeners <- gets change_listeners ;;
      if decide (k ∈ listeners) then saveCategorySelections else ret tt
  | None => ret tt
  end.

(** [checkboxes.forEach(callback)] over the node list found at line 11;
    [k] is the index of the first checkbox of [cbs] in that list. *)
Fixpoint forEach (callback : nat → checkbox → js unit) (k : nat) (cbs : list checkbox) : js unit :=
  match cbs with
  | [] => ret tt
  | c :: rest => callback k c ;; forEach callback (S k) rest
  end.

(** The arrow function of lines 30-33, called for the [k]-th checkbox:
    line 31 sets its checked state and line 32 registers
    [saveCategorySelections] as its [change] listener. *)
Definition apply_saved (savedCategories : json) (k : nat) (checkbox : checkbox) : js unit :=
  isChecked <- lift (includes savedCategories (value checkbox)) ;;
  modify (on_checkboxes (fun l => <[k := {| value := value checkbox; checked := isChecked |}]> l)) ;;
  modify (on_change_listeners (fun listeners => {[k]} ∪ listeners)).

(** lines 9-33: the handler up to the end of [forEach] *)
Definition restore_selection : js unit :=
  modify (on_showAnswerBtn (classList_add "hidden")) ;;
  modify (on_nextQuestionBtn (classList_add "hidden")) ;;
  item <- gets (fun s => localStorage s !! "selectedCategories") ;;
  parsed <- lift (JSON_parse item) ;;
  savedCategories <-
    (if negb (truthy parsed) || length_is_zero parsed then
       let default := JArr [JStr "Cypress"] in
       localStorage_setItem "selectedCategories" (JSON_stringify default) ;;
       ret default
     else ret parsed) ;;
  cbs <- gets checkboxes ;;
  forEach (apply_saved savedCategories) 0 cbs.

(** lines 9-33, the registration of the click handlers at lines 146-153,
    and line 156 *)
Definition DOMContentLoaded_start : js (option cycle) :=
  restore_selection ;;
  modify (on_click_listeners (fun _ => true)) ;;
  fetchQuestion_start.

Definition DOMContentLoaded : js unit :=
  restore_selection ;;
  modify (on_click_listeners (fun _ => true)) ;;
  fetchQuestion.

(** lines 146-148 *)
Definition showAnswerBtn_click : js unit :=
  modify (on_answerText (classList_toggle "hidden")).

(** lines 150-153 *)
Definition nextQuestionBtn_click : js unit :=
  modify (on_answerText (classList_add "hidden")) ;;
  displayNextQuestion.

(** A click on a button runs its handler once lines 146-153 have
    registered it. *)
Definition click (handler : js unit) : js unit :=
  registered <- gets click_listeners ;;
  if registered then handler else ret tt.

(** The popup is opened: the script is evaluated in a new document, whose
    elements have no listeners yet, and line 7 makes the pool empty. *)
Definition script_start : js unit :=
  modify (on_change_listeners (fun _ => ∅)) ;;
  modify (on_click_listeners (fun _ => false)) ;;
  modify (on_allQuestions (fun _ => [])).

End Popup.

(** ** Events *)

Inductive event :=
| Load
| Change (k : nat)
| ShowAnswer
| NextQuestion.

(** What the event loop does next: it dispatches an event, or it resumes
    the [i]-th of the fetch cycles started in this document. *)
Inductive action :=
| Dispatch (ev : event)
| Resume (i : nat).

Section Events.

Variable spread_limit : nat.
Variable net : nat → string → fetch_outcome.
Variable random : nat → random_number.

(** The handler of an event together with the fetch cycle it starts. *)
Definition handle (ev : event) : js unit :=
  match ev with
  | Load => script_start ;; DOMContentLoaded spread_limit net random
  | Change k => change spread_limit net random k
  | ShowAnswer => click showAnswerBtn_click
  | NextQuestion => click (nextQuestionBtn_click random)
  end.

(** The handlers of a sequence of events run one after the other, each
    with its fetch cycle; an exception that leaves a handler is reported
    and the next event is handled all the same.  The result lists the
    uncaught exceptions. *)
Fixpoint run (evs : list event) (s : state) : list error * state :=
  match evs with
  | [] => ([], s)
  | ev :: rest =>
      match handle ev s with
      | (Normal _, s') => run rest s'
      | (Throw e, s') => let '(errs, s'') := run rest s' in (e :: errs, s'')
      end
  end.

(** The handler of an event up to its return, with the fetch cycle it
    has started. *)
Definition handle_start (ev : event) : js (option cycle) :=
  match ev with
  | Load => script_start ;; DOMContentLoaded_start net random
  | Change k => change_start net random k
  | ShowAnswer => click showAnswerBtn_click ;; ret None
  | NextQuestion => click (nextQuestionBtn_click random) ;; ret None
  end.

(** One turn of the event loop.  [cycles] are the fetch cycles started in
    this document, in the order of their start, [None] standing for one
    that has ended.  A new document starts with no cycle; a handler that
    starts a cycle adds it; an exception ends the cycle it leaves. *)
Definition turn (a : action) (cycles : list (option cycle)) (s : state)
  : option error * list (option cycle) * state :=
  match a with
  | Dispatch ev =>
      let before := match ev with Load => [] | _ => cycles end in
      match handle_start ev s with
      | (Normal (Some c), s') => (None, before ++ [Some c], s')
      | (Normal None, s') => (None, before, s')
      | (Throw e, s') => (Some e, before, s')
      end
  | Resume i =>
      match cycles !! i with
      | Some (Some c) =>
          match fetchQuestions_resume spread_limit net random c s with
          | (Normal c', s') => (None, <[i := c']> cycles, s')
          | (Throw e, s') => (Some e, <[i := None]> cycles, s')
          end
      | _ => (None, cycles, s)
      end
  end.

(** The turns of the event loop in the given order: events and steps of
    fetch cycles interleaved. *)
Fixpoint interleave (actions : list action) (cycles : list (option cycle)) (s : state)
  : list error * list (option cycle) * state :=
  match actions with
  | [] => ([], cycles, s)
  | a :: rest =>
      let '(e, cycles', s') := turn a cycles s in
      let '(errs, cycles'', s'') := interleave rest cycles' s' in
      (match e with Some e => e :: errs | None => errs end, cycles'', s'')
  end.

End Events.

(** ** Vocabulary of the specification *)

(** A question as the endpoint is expected to send it: an object whose
    [question] and [answer] are strings. *)
Definition is_question (v : json) : bool :=
  match v with
  | JObj fields =>
      match own_property fields "question", own_property fields "answer" with
      | Some (JStr _), Some (JStr _) => true
      | _, _ => false
      end
  | _ => false
  end.

(** The texts [displayNextQuestion] derives from a pool element. *)
Definition question_text (q : json) : error + DOMString :=
  match member q "question" with
  | inl e => inl e
  | inr v => to_textContent v
  end.

Definition answer_text (q : json) : error + DOMString :=
  match member q "answer" with
  | inl e => inl e
  | inr v => to_textContent v
  end.

(** The popup shows question [q]. *)
Definition displays (s : state) (q : json) : Prop :=
  question_text q = inr (textContent (questionText s)) ∧
  answer_text q = inr (textContent (answerText s)).

(** A request delivers questions when it is answered with a success
    status and a body that is a JSON array. *)
Definition delivers (o : fetch_outcome) : bool :=
  match o with
  | Responds r => ok r && match body r with JSONText (JArr _) => true | _ => false end
  | Rejects _ => false
  end.

(** The array a request delivers. *)
Definition payload (o : fetch_outcome) : list json :=
  match o with
  | Responds r =>
      if ok r then match body r with JSONText (JArr items) => items | _ => [] end else []
  | Rejects _ => []
  end.

(** A request adds to the pool when it delivers an array that the engine
    can spread. *)
Definition pushes (limit : nat) (o : fetch_outcome) : bool :=
  delivers o && (length (payload o) <=? limit).

(** What the outcome of a category's request adds to the pool. *)
Definition pushed (limit : nat) (o : fetch_outcome) : list json :=
  if length (payload o) <=? limit then payload o else [].

(** What the outcome of a category's request adds to the console. *)
Definition log_for (limit : nat) (category : string) (o : fetch_outcome) : list log_entry :=
  match o with
  | Rejects e =>
      [{| message := "Fetch error for " +:+ category +:+ ":"; logged_error := Some e |}]
  | Responds r =>
      if ok r then
        match body r with
        | NotJSON =>
            [{| message := "Fetch error for " +:+ category +:+ ":"; logged_error := Some SyntaxError |}]
        | JSONText (JArr items) =>
            if length items <=? limit then []
            else [{| message := "Fetch error for " +:+ category +:+ ":";
                     logged_error := Some RangeError |}]
        | JSONText _ =>
            [{| message := "Invalid data for category: " +:+ category; logged_error := None |}]
        end
      else
        [{| message := "Error fetching " +:+ category +:+ ". Status: " +:+ pretty (status r);
            logged_error := None |}]
  end.

(** What a suspended cycle waits for is a failure of its category: a
    rejected request, a status outside 200-299, a body that is not JSON
    or not an array, or an array too long to spread. *)
Definition fails (limit : nat) (a : awaiting) : bool :=
  match a with
  | FetchPromise (Rejects _) => true
  | FetchPromise (Responds r) => negb (ok r)
  | JsonPromise r =>
      match body r with
      | JSONText (JArr items) => negb (length items <=? limit)
      | _ => true
      end
  end.

(** The outcomes of the requests for [categories], the first of which is
    request number [n]. *)
Fixpoint outcomes (net : nat → string → fetch_outcome) (n : nat) (categories : list string)
  : list fetch_outcome :=
  match categories with
  | [] => []
  | category :: rest => net n (request_url category) :: outcomes net (S n) rest
  end.

(** Whether the string [x] is an element of the array [items]. *)
Definition in_selection (items : list json) (x : string) : bool :=
  existsb (fun item => match item with JStr s => String.eqb s x | _ => false end) items.

(** The checkbox as line 31 leaves it when the saved selection is the
    array [items]. *)
Definition mark (items : list json) (c : checkbox) : checkbox :=
  {| value := value c; checked := in_selection items (value c) |}.

(** Every array the endpoint delivers holds questions only. *)
Definition sends_questions (net : nat → string → fetch_outcome) : Prop :=
  ∀ n url r items,
    net n url = Responds r → ok r = true → body r = JSONText (JArr items) →
    Forall (fun q => is_question q = true) items.

(** The stored selection is absent or a JSON array. *)
Definition stored_selection_ok (s : state) : Prop :=
  localStorage s !! "selectedCategories" = None ∨
  ∃ items, localStorage s !! "selectedCategories" = Some (Encodes (JArr items)).

(** A state whose stored selection is usable and whose pool holds
    questions only. *)
Definition well_formed (s : state) : Prop :=
  stored_selection_ok s ∧ Forall (fun q => is_question q = true) (allQuestions s).

(** Fisher-Yates as the specification words it: [i] runs from the last
    index down to 1 and element [i] is swapped with the element at the
    next index of [js], an index of [[0, i]]. *)
Fixpoint fisher_yates_from {A} (i : nat) (js : list nat) (l : list A) : list A :=
  match i, js with
  | S i', j :: js' => fisher_yates_from i' js' (swap l i j)
  | _, _ => l
  end.

Definition fisher_yates {A} (js : list nat) (l : list A) : list A :=
  fisher_yates_from (length l - 1) js l.

(** [js] gives one index of [[0, i]] for each [i] from the given one down to 1. *)
Fixpoint valid_from (i : nat) (js : list nat) : Prop :=
  match i, js with
  | 0, [] => True
  | S i', j :: js' => j ≤ i ∧ valid_from i' js'
  | _, _ => False
  end.


(** The indices the loop of [shuffleArray] computes when it is entered
    with counter [i] after [d] random numbers have been drawn. *)
Fixpoint choices (random : nat → random_number) (d i : nat) : list nat :=
  match i with
  | 0 => []
  | S i' => Math_floor_times (random d) (i + 1) :: choices random (S d) i'
  end.

(** A random number [r] for which [Math.floor(r * (m + 1))] is [j], for
    [j ≤ m]: it gives the indices of the fraction [j / (m + 1)]. *)
Definition fraction (j m : nat) : random_number :=
  {| floor_times n := ((j mod S m) * n) / S m;
     floor_times_lt n Hn :=
       Nat.Div0.div_lt_upper_bound _ _ _
         (proj1 (Nat.mul_lt_mono_pos_r n (j mod S m) (S m) Hn)
            (Nat.mod_upper_bound j (S m) (Nat.neq_succ_0 m))) |}.

(** ** States the script passes through *)

(** The state in which lines 71-74 leave the page. *)
Definition cleared (s : state) : state :=
  on_nextQuestionBtn (classList_add "hidden")
    (on_showAnswerBtn (classList_add "hidden")
       (on_questionText (set_textContent (Str ""))
          (on_loadingSpinner (classList_remove "hidden")
             (on_allQuestions (fun _ => []) s)))).

(** The state after lines 32 and 146-153 have registered the listeners
    of [n] checkboxes and of the two buttons. *)
Definition listening (n : nat) (s : state) : state :=
  on_click_listeners (fun _ => true)
    (on_change_listeners (fun listeners => list_to_set (seq 0 n) ∪ listeners) s).

(** ** What a computation leaves unchanged *)

Definition preserves {A X} (f : state → X) (m : js A) : Prop :=
  ∀ s, f (snd (m s)) = f s.

(** ** Concrete inputs *)

Definition blank : element := {| classList := ∅; textContent := Str "" |}.

(** A popup whose script has not run yet. *)
Definition popup (store : gmap string storage_text) (cbs : list checkbox) : state :=
  {| localStorage := store; checkboxes := cbs;
     showAnswerBtn := blank; nextQuestionBtn := blank; questionText := blank;
     answerText := blank; loadingSpinner := blank;
     allQuestions := []; console := []; requests := []; drawn := 0;
     change_listeners := ∅; click_listeners := false |}.

Definition unchecked_boxes : list checkbox :=
  [{| value := "Cypress"; checked := false |}; {| value := "Playwright"; checked := false |}].

Definition Q1 : json := JObj [("question", JStr "Q1"); ("answer", JStr "A1")].

Definition Q2 : json := JObj [("question", JStr "Q2"); ("answer", JStr "A2")].

Definition Q3 : json := JObj [("question", JStr "Q3"); ("answer", JStr "A3")].

(** An endpoint that answers every request with the one question [Q1]. *)
Definition endpoint_Q1 : nat → string → fetch_outcome :=
  fun _ _ => Responds {| status := 200; body := JSONText (JArr [Q1]) |}.

(** An endpoint that has [Q1] for Cypress and [Q2] and [Q3] for any
    other category. *)
Definition endpoint_by_category : nat → string → fetch_outcome :=
  fun _ url =>
    if String.eqb url (request_url "Cypress")
    then Responds {| status := 200; body := JSONText (JArr [Q1]) |}
    else Responds {| status := 200; body := JSONText (JArr [Q2; Q3]) |}.

(** No request gets through. *)
Definition offline : nat → string → fetch_outcome := fun _ _ => Rejects TypeError.

(** The double 0.5, whose product with a length is exact. *)
Definition half : random_number :=
  {| floor_times n := n / 2;
     floor_times_lt n Hn := Nat.div_lt n 2 Hn (le_n 2) |}.

Definition always_half : nat → random_number := fun _ => half.

(** An engine that spreads up to 65536 elements. *)
Definition engine_limit : nat := 256 * 256.

(** The text under [selectedCategories] is not JSON. *)
Definition corrupted_popup : state :=
  popup {["selectedCategories" := Malformed "{"]} unchecked_boxes.

(** The popup after it has been opened with nothing stored, on an
    endpoint that answers with [Q1]: Cypress is checked, [Q1] is shown and
    the listeners are registered. *)
Definition loaded_popup : state :=
  snd (DOMContentLoaded engine_limit endpoint_Q1 always_half (popup ∅ unchecked_boxes)).

(** ** Invariants, provenance and further concrete inputs *)

(** [m] keeps the property [P] of the state, however it ends. *)
Definition keeps {A} (P : state → Prop) (m : js A) : Prop :=
  ∀ s, P s → P (snd (m s)).

(** The endpoint delivered [q] in answer to a request for some category. *)
Definition delivered (net : nat → string → fetch_outcome) (q : json) : Prop :=
  ∃ n category, q ∈ payload (net n (request_url category)).

(** The value of an upper-case hexadecimal digit. *)
Definition hex_value (a : ascii) : nat :=
  let n := nat_of_ascii a in if n <? 58 then n - 48 else n - 55.

(** A popup whose pool is [pool]. *)
Definition with_pool (pool : list json) : state :=
  on_allQuestions (fun _ => pool) (popup ∅ unchecked_boxes).

Definition playwright_checked : list checkbox :=
  [{| value := "Cypress"; checked := false |}; {| value := "Playwright"; checked := true |}].

(** ** Fetch cycles in flight *)

(** What the suspended cycle [c] waits for has come from the network: it
    is how some request for the category of [c] ends, or the body of the
    success response that such a request has yielded. *)
Definition from_net (net : nat → string → fetch_outcome) (c : cycle) : Prop :=
  ∃ n, match awaited c with
       | FetchPromise promise => promise = net n (request_url (current c))
       | JsonPromise r => net n (request_url (current c)) = Responds r ∧ ok r = true
       end.

Definition pending_from_net (net : nat → string → fetch_outcome) (c : option cycle) : Prop :=
  match c with
  | Some c => from_net net c
  | None => True
  end.

(** Every element of the pool has the property [Q]. *)
Definition pool_holds (Q : json → Prop) (s : state) : Prop := Forall Q (allQuestions s).

(** Whenever [m] ends normally, its result has the property [R]. *)
Definition yields {A} (R : A → Prop) (m : js A) : Prop :=
  ∀ s, match fst (m s) with Normal a => R a | Throw _ => True end.

(** ** Simple facts about elements and the monad *)

Lemma hidden_add (e : element) : hidden (classList_add "hidden" e).
Proof. unfold hidden, classList_add; simpl. set_solver. Qed.

Lemma hidden_remove (e : element) : ¬ hidden (classList_remove "hidden" e).
Proof. unfold hidden, classList_remove; simpl. set_solver. Qed.

Lemma element_eq (e1 e2 : element) :
  classList e1 = classList e2 → textContent e1 = textContent e2 → e1 = e2.
Proof. destruct e1, e2; simpl; intros -> ->; reflexivity. Qed.

Lemma toggle_toggle (c : string) (e : element) :
  classList_toggle c (classList_toggle c e) = e.
Proof.
  unfold classList_toggle.
  destruct (decide (c ∈ classList e)) as [Hin | Hout].
  - rewrite decide_False by (simpl; set_solver).
    apply element_eq; simpl; [| reflexivity].
    apply set_eq; intros x. destruct (decide (x = c)) as [-> | Hne]; set_solver.
  - rewrite decide_True by (simpl; set_solver).
    apply element_eq; simpl; [| reflexivity].
    set_solver.
Qed.

Lemma toggle_flips (e : element) :
  hidden (classList_toggle "hidden" e) ↔ ¬ hidden e.
Proof.
  unfold hidden, classList_toggle.
  destruct (decide ("hidden" ∈ classList e)); simpl; set_solver.
Qed.

Lemma toggle_other_classes (c : string) (e : element) :
  c ≠ "hidden" → c ∈ classList (classList_toggle "hidden" e) ↔ c ∈ classList e.
Proof.
  intros Hc. unfold classList_toggle.
  destruct (decide ("hidden" ∈ classList e)); simpl; set_solver.
Qed.

(** ** The guards and the reveal button *)
(** C4. Whenever no category is selected, [fetchQuestion] returns normally
    after writing the prompt into the question text and hiding the answer
    text, the reveal button, the next-question button and the loading
    spinner; the log of requests is what it was, so no request is issued. *)
Theorem fetchQuestion_empty_selection limit net random (s : state) :
  selected (checkboxes s) = [] →
  let '(result, s') := fetchQuestion limit net random s in
  result = Normal tt ∧
  textContent (questionText s') = Str "Please select at least one category." ∧
  hidden (answerText s') ∧ hidden (showAnswerBtn s') ∧
  hidden (nextQuestionBtn s') ∧ hidden (loadingSpinner s') ∧
  requests s' = requests s.
Proof.
  intros Hsel. unfold fetchQuestion, bind, gets. rewrite Hsel. simpl.
  repeat split; apply hidden_add.
Qed.

(** What [displayNextQuestion] does on an empty pool. *)
Lemma displayNextQuestion_guidance random (s : state) :
  allQuestions s = [] →
  displayNextQuestion random s =
    (Normal tt,
     on_nextQuestionBtn (classList_add "hidden")
       (on_showAnswerBtn (classList_add "hidden")
          (on_answerText (classList_add "hidden")
             (on_questionText (set_textContent (Str guidance)) s)))).
Proof.
  intros Hpool. unfold displayNextQuestion, bind, gets. by rewrite Hpool.
Qed.

(** C8. A click on the reveal button flips whether the answer text is
    hidden and changes nothing else (the other classes and the text of the
    answer, the question text, the pool, the storage, the checkboxes and
    the other controls, the console, the requests and the random draws);
    two clicks in a row give back the state they started from. *)
Theorem showAnswerBtn_click_involution (s : state) :
  let s1 := snd (showAnswerBtn_click s) in
  let s2 := snd (showAnswerBtn_click s1) in
  fst (showAnswerBtn_click s) = Normal tt ∧
  s2 = s ∧
  (hidden (answerText s1) ↔ ¬ hidden (answerText s)) ∧
  (∀ c, c ≠ "hidden" → c ∈ classList (answerText s1) ↔ c ∈ classList (answerText s)) ∧
  textContent (answerText s1) = textContent (answerText s) ∧
  questionText s1 = questionText s ∧
  allQuestions s1 = allQuestions s ∧
  localStorage s1 = localStorage s ∧
  checkboxes s1 = checkboxes s ∧
  showAnswerBtn s1 = showAnswerBtn s ∧
  nextQuestionBtn s1 = nextQuestionBtn s ∧
  loadingSpinner s1 = loadingSpinner s ∧
  console s1 = console s ∧ requests s1 = requests s ∧ drawn s1 = drawn s.
Proof.
  destruct s as [st cbs sab nqb qt ans spin pool log reqs d chl cll].
  unfold showAnswerBtn_click, modify, on_answerText; simpl.
  split; [reflexivity |]. split; [by rewrite toggle_toggle |].
  split; [apply toggle_flips |]. split; [intros c Hc; by apply toggle_other_classes |].
  split; [| repeat split].
  unfold classList_toggle. by destruct (decide _).
Qed.

(** ** The shuffle *)

Section Swap.
Context {A : Type}.
Implicit Types l : list A.

Lemma swap_length l i j : length (swap l i j) = length l.
Proof.
  unfold swap. destruct (l !! j), (l !! i); try reflexivity.
  by rewrite !length_insert.
Qed.

Lemma swap_Permutation l i j : swap l i j ≡ₚ l.
Proof.
  unfold swap. destruct (l !! j) as [aj |] eqn:Hj; [| reflexivity].
  destruct (l !! i) as [ai |] eqn:Hi; [| reflexivity].
  by apply Permutation_insert_swap.
Qed.



Lemma fisher_yates_from_length i js l :
  length (fisher_yates_from i js l) = length l.
Proof.
  revert js l. induction i as [| i IH]; intros [| j js] l; simpl; try reflexivity.
  by rewrite IH, swap_length.
Qed.

Lemma fisher_yates_from_Permutation i js l : fisher_yates_from i js l ≡ₚ l.
Proof.
  revert js l. induction i as [| i IH]; intros [| j js] l; simpl; try reflexivity.
  by rewrite IH, swap_Permutation.
Qed.


Lemma valid_from_length i js : valid_from i js → length js = i.
Proof.
  revert js. induction i as [| i IH]; intros [| j js]; simpl; try done.
  intros [_ Hv]. by rewrite (IH js Hv).
Qed.

End Swap.





Lemma Math_floor_times_lt r n : 0 < n → Math_floor_times r n < n.
Proof. apply floor_times_lt. Qed.

Lemma Math_floor_times_fraction j m : j ≤ m → Math_floor_times (fraction j m) (m + 1) = j.
Proof.
  intros Hj. unfold Math_floor_times, fraction; cbn [floor_times].
  rewrite (Nat.mod_small j (S m)) by lia.
  replace (m + 1) with (S m) by lia. by apply Nat.div_mul.
Qed.


Lemma shuffle_from_fisher_yates {A} random i (l : list A) (s : state) :
  shuffle_from random i l s =
    (Normal (fisher_yates_from i (choices random (drawn s) i) l), on_drawn (fun d => d + i) s).
Proof.
  revert l s. induction i as [| i IH]; intros l s.
  - simpl. unfold ret. f_equal. destruct s; unfold on_drawn; simpl. f_equal. lia.
  - simpl. unfold bind, Math_random. rewrite IH. simpl. f_equal.
    destruct s; unfold on_drawn; simpl. f_equal. lia.
Qed.


(** The vectors of [all_choices] are the valid ones, each listed once,
    and there are [(i + 1)!] of them. *)










(** ** What each function leaves unchanged *)

Section Preserves.
Context {X : Type} (f : state → X).

Lemma preserves_ret {A} (a : A) : preserves f (ret a).
Proof. by intros s. Qed.

Lemma preserves_throw {A} e : preserves f (@throw A e).
Proof. by intros s. Qed.

Lemma preserves_gets {A} (g : state → A) : preserves f (gets g).
Proof. by intros s. Qed.

Lemma preserves_lift {A} (r : error + A) : preserves f (lift r).
Proof. by destruct r; intros s. Qed.

Lemma preserves_modify g : (∀ s, f (g s) = f s) → preserves f (modify g).
Proof. intros Hg s. apply Hg. Qed.

Lemma preserves_bind {A B} (m : js A) (k : A → js B) :
  preserves f m → (∀ a, preserves f (k a)) → preserves f (bind m k).
Proof.
  intros Hm Hk s. unfold bind. specialize (Hm s).
  destruct (m s) as [[a | e] s1]; simpl in *; [| done].
  by rewrite Hk.
Qed.

Lemma preserves_try_catch body handler :
  preserves f body → (∀ e, preserves f (handler e)) →
  preserves f (try_catch body handler).
Proof.
  intros Hm Hk s. unfold try_catch. specialize (Hm s).
  destruct (body s) as [[a | e] s1]; simpl in *; [done |].
  by rewrite Hk.
Qed.
End Preserves.


Lemma preserves_Math_random {X} (f : state → X) random :
  (∀ s, f (on_drawn S s) = f s) → preserves f (Math_random random).
Proof. intros Hf s. apply Hf. Qed.

Lemma preserves_fetch {X} (f : state → X) net url :
  (∀ g s, f (on_requests g s) = f s) → preserves f (fetch net url).
Proof. intros Hf s. unfold fetch. destruct (net _ _); apply Hf. Qed.

Ltac preserve :=
  repeat first
    [ apply preserves_ret | apply preserves_throw | apply preserves_gets
    | apply preserves_lift
    | apply preserves_modify; intros []; reflexivity
    | apply preserves_Math_random; intros []; reflexivity
    | apply preserves_fetch; intros ? []; reflexivity
    | apply preserves_bind; [| intros ?]
    | apply preserves_try_catch; [| intros ?]
    | match goal with
      | |- preserves _ (if ?b then _ else _) => destruct b
      | |- preserves _ (match ?x with _ => _ end) => destruct x
      end ].

Lemma displayNextQuestion_preserves_allQuestions random :
  preserves allQuestions (displayNextQuestion random).
Proof. unfold displayNextQuestion. preserve. Qed.

Lemma displayNextQuestion_preserves_requests random :
  preserves requests (displayNextQuestion random).
Proof. unfold displayNextQuestion. preserve. Qed.

Lemma displayNextQuestion_preserves_localStorage random :
  preserves localStorage (displayNextQuestion random).
Proof. unfold displayNextQuestion. preserve. Qed.

Lemma displayNextQuestion_preserves_checkboxes random :
  preserves checkboxes (displayNextQuestion random).
Proof. unfold displayNextQuestion. preserve. Qed.

(** ** The fetch loop *)

Lemma on_allQuestions_app_nil (s : state) : on_allQuestions (fun pool => pool ++ []) s = s.
Proof. destruct s; unfold on_allQuestions; simpl. by rewrite app_nil_r. Qed.

Lemma on_console_app_nil (s : state) : on_console (fun log => log ++ []) s = s.
Proof. destruct s; unfold on_console; simpl. by rewrite app_nil_r. Qed.

Lemma on_requests_app_nil (s : state) : on_requests (fun log => log ++ []) s = s.
Proof. destruct s; unfold on_requests; simpl. by rewrite app_nil_r. Qed.

Lemma on_console_app entries more (s : state) :
  on_console (fun log => log ++ more) (on_console (fun log => log ++ entries) s)
  = on_console (fun log => log ++ (entries ++ more)) s.
Proof. destruct s; unfold on_console; simpl. by rewrite app_assoc. Qed.

Lemma on_allQuestions_app items more (s : state) :
  on_allQuestions (fun pool => pool ++ more) (on_allQuestions (fun pool => pool ++ items) s)
  = on_allQuestions (fun pool => pool ++ (items ++ more)) s.
Proof. destruct s; unfold on_allQuestions; simpl. by rewrite app_assoc. Qed.

Lemma on_requests_app urls more (s : state) :
  on_requests (fun log => log ++ more) (on_requests (fun log => log ++ urls) s)
  = on_requests (fun log => log ++ (urls ++ more)) s.
Proof. destruct s; unfold on_requests; simpl. by rewrite app_assoc. Qed.

Lemma on_requests_on_console f g (s : state) :
  on_requests f (on_console g s) = on_console g (on_requests f s).
Proof. by destruct s. Qed.

Lemma on_requests_on_allQuestions f g (s : state) :
  on_requests f (on_allQuestions g s) = on_allQuestions g (on_requests f s).
Proof. by destruct s. Qed.

Lemma on_allQuestions_on_console f g (s : state) :
  on_allQuestions f (on_console g s) = on_console g (on_allQuestions f s).
Proof. by destruct s. Qed.

Lemma fetch_category_outcome limit net category s :
  let o := net (length (requests s)) (request_url category) in
  fetch_category limit net category s =
    (Normal tt,
     on_console (fun log => log ++ log_for limit category o)
       (on_allQuestions (fun pool => pool ++ pushed limit o)
          (on_requests (fun log => log ++ [request_url category]) s))).
Proof.
  cbv zeta. unfold fetch_category, try_catch, bind, fetch.
  set (s1 := on_requests (fun log => log ++ [request_url category]) s).
  destruct (net (length (requests s)) (request_url category)) as [e | r];
    unfold pushed; cbn [await_fetch throw ret payload log_for].
  { cbn [length Nat.leb]. by rewrite on_allQuestions_app_nil. }
  destruct (ok r); cbn [negb].
  - unfold response_json, collect, push_spread.
    destruct (body r) as [| v]; cbn [throw ret].
    { cbn [length Nat.leb]. by rewrite on_allQuestions_app_nil. }
    destruct v; cbn [length Nat.leb]; try (by rewrite on_allQuestions_app_nil).
    destruct (length items <=? limit); cbn [throw].
    + by rewrite on_console_app_nil.
    + by rewrite on_allQuestions_app_nil.
  - cbn [length Nat.leb]. by rewrite on_allQuestions_app_nil.
Qed.

Lemma for_of_outcome limit net categories s :
  let os := outcomes net (length (requests s)) categories in
  for_of limit net categories s =
    (Normal tt,
     on_console (fun log => log ++ concat (zip_with (log_for limit) categories os))
       (on_allQuestions (fun pool => pool ++ concat (pushed limit <$> os))
          (on_requests (fun log => log ++ (request_url <$> categories)) s))).
Proof.
  cbv zeta. revert s. induction categories as [| category rest IH]; intros s.
  - cbn [for_of outcomes zip_with fmap list_fmap concat]. unfold ret.
    by rewrite on_console_app_nil, on_allQuestions_app_nil, on_requests_app_nil.
  - cbn [for_of outcomes zip_with]. rewrite !fmap_cons. cbn [concat].
    unfold bind. rewrite fetch_category_outcome, IH.
    set (o := net (length (requests s)) (request_url category)).
    assert (length (requests
              (on_console (fun log => log ++ log_for limit category o)
                 (on_allQuestions (fun pool => pool ++ pushed limit o)
                    (on_requests (fun log => log ++ [request_url category]) s))))
            = S (length (requests s))) as ->.
    { destruct s; cbn [requests on_console on_allQuestions on_requests].
      rewrite length_app. cbn [length]. lia. }
    rewrite !on_requests_on_console, !on_requests_on_allQuestions, on_requests_app.
    rewrite !on_allQuestions_on_console, on_allQuestions_app.
    by rewrite on_console_app.
Qed.

(** The state in which lines 94-96 call [displayNextQuestion]. *)
Lemma after_loop_outcome random s :
  ∃ s_ready,
    after_loop random s = displayNextQuestion random s_ready ∧
    allQuestions s_ready
      = fisher_yates (choices random (drawn s) (length (allQuestions s) - 1)) (allQuestions s) ∧
    hidden (loadingSpinner s_ready) ∧
    requests s_ready = requests s ∧ console s_ready = console s ∧
    localStorage s_ready = localStorage s ∧ checkboxes s_ready = checkboxes s ∧
    answerText s_ready = answerText s ∧ showAnswerBtn s_ready = showAnswerBtn s ∧
    nextQuestionBtn s_ready = nextQuestionBtn s.
Proof.
  destruct s as [st cbs sab nqb qt ans spin pool0 log reqs d chl cll].
  unfold after_loop, toggleLoading, bind, modify, gets; simpl.
  unfold shuffleArray. rewrite shuffle_from_fisher_yates; simpl.
  eexists. split; [reflexivity |]. simpl.
  repeat split. apply hidden_add.
Qed.

(** The state in which [fetchQuestions] calls [displayNextQuestion]. *)
Lemma fetchQuestions_outcome limit net random categories s :
  let os := outcomes net (length (requests s)) categories in
  let pool := concat (pushed limit <$> os) in
  ∃ s_ready,
    fetchQuestions limit net random categories s = displayNextQuestion random s_ready ∧
    requests s_ready = requests s ++ (request_url <$> categories) ∧
    console s_ready = console s ++ concat (zip_with (log_for limit) categories os) ∧
    allQuestions s_ready = fisher_yates (choices random (drawn s) (length pool - 1)) pool ∧
    hidden (loadingSpinner s_ready) ∧
    localStorage s_ready = localStorage s ∧
    checkboxes s_ready = checkboxes s ∧
    change_listeners s_ready = change_listeners s ∧
    click_listeners s_ready = click_listeners s.
Proof.
  intros os pool.
  destruct s as [st cbs sab nqb qt ans spin pool0 log reqs d chl cll].
  unfold fetchQuestions, after_loop, toggleLoading, bind, modify, gets; simpl.
  rewrite for_of_outcome; simpl.
  unfold shuffleArray. rewrite shuffle_from_fisher_yates; simpl.
  eexists. split; [reflexivity |]. simpl.
  repeat split. apply hidden_add.
Qed.

(** *** The steps of a cycle *)

Lemma next_category_request net random category rest s :
  next_category net random (category :: rest) s =
    (Normal (Some {| current := category;
                     awaited := FetchPromise (net (length (requests s)) (request_url category));
                     remaining := rest |}),
     on_requests (fun log => log ++ [request_url category]) s).
Proof. reflexivity. Qed.

Lemma next_category_end net random s :
  next_category net random [] s =
    match after_loop random s with
    | (Normal _, s') => (Normal None, s')
    | (Throw e, s') => (Throw e, s')
    end.
Proof. reflexivity. Qed.

Lemma fetchQuestions_resume_fails limit net random c s :
  fails limit (awaited c) = true →
  ∃ entry,
    fetchQuestions_resume limit net random c s
    = next_category net random (remaining c) (on_console (fun log => log ++ [entry]) s).
Proof.
  destruct c as [category [[e | r] | r] rest]; cbn [fails awaited remaining current].
  - intros _. by eexists.
  - intros Hok. unfold fetchQuestions_resume; cbn [awaited remaining current].
    rewrite Hok. by eexists.
  - intros Hbody. unfold fetchQuestions_resume; cbn [awaited remaining current].
    unfold bind at 1, try_catch, bind, response_json, collect, push_spread.
    destruct (body r) as [| v]; [by eexists |].
    destruct v; try by eexists.
    apply negb_true_iff in Hbody. unfold ret. cbv beta iota. rewrite Hbody. by eexists.
Qed.

Lemma fetchQuestions_resume_response limit net random c r s :
  awaited c = FetchPromise (Responds r) → ok r = true →
  fetchQuestions_resume limit net random c s =
    (Normal (Some {| current := current c; awaited := JsonPromise r; remaining := remaining c |}),
     s).
Proof. intros Hc Hok. unfold fetchQuestions_resume. by rewrite Hc, Hok. Qed.

Lemma fetchQuestions_resume_array limit net random c r items s :
  awaited c = JsonPromise r → body r = JSONText (JArr items) → length items ≤ limit →
  fetchQuestions_resume limit net random c s =
    next_category net random (remaining c) (on_allQuestions (fun pool => pool ++ items) s).
Proof.
  intros Hc Hbody Hlen. unfold fetchQuestions_resume. rewrite Hc.
  unfold bind at 1, try_catch, bind, response_json, collect, push_spread.
  rewrite Hbody. apply Nat.leb_le in Hlen. unfold ret. cbv beta iota. by rewrite Hlen.
Qed.

(** What a step does to the pool and the console, in the words of
    [pushed] and [log_for]. *)
Lemma fetchQuestions_resume_skip limit net random c o s :
  awaited c = FetchPromise o → fails limit (FetchPromise o) = true →
  fetchQuestions_resume limit net random c s =
    next_category net random (remaining c)
      (on_console (fun log => log ++ log_for limit (current c) o)
         (on_allQuestions (fun pool => pool ++ pushed limit o) s)).
Proof.
  destruct c as [category a rest]; cbn [awaited remaining current]. intros -> Hfails.
  destruct s as [st cbs sab nqb qt ans spin pool log reqs d chl cll].
  unfold fetchQuestions_resume; cbn [awaited remaining current].
  destruct o as [e | r]; simpl in *.
  - unfold bind, log_fetch_error, console_error, modify, on_console, on_allQuestions, pushed; simpl.
    by rewrite app_nil_r.
  - rewrite Hfails. apply negb_true_iff in Hfails.
    unfold bind, log_status, console_error, modify, on_console, on_allQuestions, pushed; simpl.
    rewrite Hfails. simpl. by rewrite app_nil_r.
Qed.

Lemma fetchQuestions_resume_json limit net random c r s :
  awaited c = JsonPromise r → ok r = true →
  fetchQuestions_resume limit net random c s =
    next_category net random (remaining c)
      (on_console (fun log => log ++ log_for limit (current c) (Responds r))
         (on_allQuestions (fun pool => pool ++ pushed limit (Responds r)) s)).
Proof.
  destruct c as [category a rest]; cbn [awaited remaining current]. intros -> Hok.
  destruct s as [st cbs sab nqb qt ans spin pool log reqs d chl cll].
  unfold fetchQuestions_resume; cbn [awaited remaining current].
  unfold bind at 1, try_catch, bind, response_json, collect, push_spread, log_fetch_error,
    console_error, modify, on_console, on_allQuestions, pushed, ret, throw; simpl.
  rewrite Hok.
  destruct (body r) as [| v]; simpl; [by rewrite app_nil_r |].
  destruct v; simpl; rewrite ?app_nil_r; try reflexivity.
  destruct (length items <=? limit); simpl; by rewrite ?app_nil_r.
Qed.

Lemma bind_bind {A B C} (m : js A) (k : A → js B) (h : B → js C) (s : state) :
  bind (bind m k) h s = bind m (fun a => bind (k a) h) s.
Proof. unfold bind. by destruct (m s) as [[a | e] s']. Qed.

(** A cycle between whose steps nothing else runs is the loop of
    [fetchQuestions]. *)
Lemma resume_to_end_for_of limit net random rest steps s :
  2 * length rest ≤ steps →
  bind (next_category net random rest) (resume_to_end limit net random steps) s
  = bind (for_of limit net rest) (fun _ => after_loop random) s.
Proof.
  revert steps s. induction rest as [| category rest IH]; intros steps s Hsteps.
  - unfold bind. rewrite next_category_end. cbn [for_of ret].
    destruct (after_loop random s) as [[[] | e] s']; by destruct steps.
  - cbn [length] in Hsteps. destruct steps as [| [| steps]]; [lia | lia |].
    unfold bind at 1. rewrite next_category_request.
    cbn [for_of]. rewrite bind_bind. unfold bind at 1.
    rewrite fetch_category_outcome. cbv beta iota zeta.
    set (o := net (length (requests s)) (request_url category)).
    set (s1 := on_requests (fun log => log ++ [request_url category]) s).
    clearbody o s1.
    change (resume_to_end limit net random (S (S steps)) (Some ?c) s1)
      with (bind (fetchQuestions_resume limit net random c)
              (resume_to_end limit net random (S steps)) s1).
    assert (∀ o', fails limit (FetchPromise o') = true →
              bind (fetchQuestions_resume limit net random
                      {| current := category; awaited := FetchPromise o'; remaining := rest |})
                (resume_to_end limit net random (S steps)) s1
              = bind (for_of limit net rest) (fun _ => after_loop random)
                  (on_console (fun log => log ++ log_for limit category o')
                     (on_allQuestions (fun pool => pool ++ pushed limit o') s1))) as Hskip.
    { intros o' Hfails. unfold bind at 1.
      rewrite (fetchQuestions_resume_skip _ _ _ _ o') by done.
      cbn [current remaining]. apply (IH (S steps)). lia. }
    destruct o as [e | r]; [by apply Hskip |].
    destruct (ok r) eqn:Hok; [| apply Hskip; cbn [fails]; by rewrite Hok].
    unfold bind at 1. rewrite (fetchQuestions_resume_response _ _ _ _ r) by done.
    cbn [current remaining].
    change (resume_to_end limit net random (S steps) (Some ?c) s1)
      with (bind (fetchQuestions_resume limit net random c)
              (resume_to_end limit net random steps) s1).
    unfold bind at 1. rewrite (fetchQuestions_resume_json _ _ _ _ r) by done.
    cbn [current remaining]. apply (IH steps). lia.
Qed.

Lemma fetchQuestions_start_run net random categories s :
  fetchQuestions_start net random categories s = next_category net random categories (cleared s).
Proof. reflexivity. Qed.

Lemma fetchQuestions_run limit net random categories s :
  fetchQuestions limit net random categories s
  = bind (for_of limit net categories) (fun _ => after_loop random) (cleared s).
Proof. reflexivity. Qed.

Lemma alone_fetchQuestions limit net random categories s :
  alone limit net random (fetchQuestions_start net random categories) s
  = fetchQuestions limit net random categories s.
Proof.
  rewrite fetchQuestions_run. unfold alone, bind at 1. rewrite fetchQuestions_start_run.
  destruct categories as [| category rest].
  - rewrite next_category_end. unfold bind. cbn [for_of ret].
    by destruct (after_loop random (cleared s)) as [[[] | e] s'].
  - rewrite <- (resume_to_end_for_of limit net random (category :: rest)
                  (2 * S (length rest)) (cleared s)) by done.
    reflexivity.
Qed.

(** ** Showing a question *)

Lemma is_question_texts q :
  is_question q = true →
  ∃ qs ans, question_text q = inr (Str qs) ∧ answer_text q = inr (Str ans).
Proof.
  unfold is_question, question_text, answer_text.
  destruct q as [| | | | | fields]; try done. simpl.
  destruct (own_property fields "question") as [[| | | qs | |] |]; try done.
  destruct (own_property fields "answer") as [[| | | ans | |] |]; try done.
  intros _. by exists qs, ans.
Qed.

(** With a pool that is not empty, [displayNextQuestion] shows the element
    at index [Math.floor(Math.random() * allQuestions.length)]. *)
Lemma displayNextQuestion_shows random s q :
  allQuestions s !! Math_floor_times (random (drawn s)) (length (allQuestions s)) = Some q →
  is_question q = true →
  let '(result, s') := displayNextQuestion random s in
  result = Normal tt ∧ displays s' q ∧
  hidden (answerText s') ∧ ¬ hidden (showAnswerBtn s') ∧ ¬ hidden (nextQuestionBtn s') ∧
  allQuestions s' = allQuestions s ∧ drawn s' = S (drawn s).
Proof.
  intros Hq Hquestion.
  destruct (is_question_texts q Hquestion) as (qs & ans & Hqs & Hans).
  assert ((length (allQuestions s) =? 0) = false) as Hlen.
  { apply Nat.eqb_neq. apply lookup_lt_Some in Hq. lia. }
  unfold question_text in Hqs. unfold answer_text in Hans.
  destruct (member q "question") as [| v1] eqn:Hv1; [done |].
  destruct (member q "answer") as [| v2] eqn:Hv2; [done |].
  unfold displayNextQuestion, bind, gets, Math_random.
  rewrite Hlen, Hq, Hv1. cbn [lift ret]. rewrite Hqs. cbn [lift ret modify].
  rewrite Hv2. cbn [lift ret]. rewrite Hans. cbn [lift ret modify].
  unfold displays, question_text, answer_text. rewrite Hv1, Hv2, Hqs, Hans.
  destruct s; simpl.
  repeat split; try apply hidden_add; try apply hidden_remove.
Qed.

Lemma Math_floor_times_lookup {A} (pool : list A) r :
  pool ≠ [] → ∃ q, pool !! Math_floor_times r (length pool) = Some q.
Proof.
  intros Hne. apply lookup_lt_is_Some_2, Math_floor_times_lt.
  destruct pool; [done | simpl; lia].
Qed.

Lemma displayNextQuestion_normal random s :
  Forall (fun q => is_question q = true) (allQuestions s) →
  fst (displayNextQuestion random s) = Normal tt.
Proof.
  intros Hall. destruct (allQuestions s) as [| q0 pool'] eqn:Hpool.
  - by rewrite (displayNextQuestion_guidance random s Hpool).
  - destruct (Math_floor_times_lookup (allQuestions s) (random (drawn s))) as [q Hq].
    { by rewrite Hpool. }
    assert (is_question q = true) as Hquestion.
    { rewrite Hpool in Hq. eapply Forall_lookup_1 in Hall; eauto. }
    pose proof (displayNextQuestion_shows random s q Hq Hquestion) as H.
    destruct (displayNextQuestion random s). by destruct H.
Qed.

(** When no request fails and every array can be spread, what is pushed
    are the fetched arrays. *)
Lemma pushed_fetched limit os (fetched : list (list json)) :
  Forall2 (fun o items => ∃ r, o = Responds r ∧ ok r = true ∧ body r = JSONText (JArr items))
          os fetched →
  Forall (fun items => length items ≤ limit) fetched →
  pushed limit <$> os = fetched.
Proof.
  induction 1 as [| o items os' fetched' (r & -> & Hok & Hbody) _ IH]; [done |].
  intros Hlimit. apply Forall_cons in Hlimit as [Hlen Hlimit].
  rewrite fmap_cons, IH by done. f_equal.
  unfold pushed. simpl. rewrite Hok, Hbody. apply Nat.leb_le in Hlen. by rewrite Hlen.
Qed.

Lemma length_concat {A} (ls : list (list A)) :
  length (concat ls) = sum_list (length <$> ls).
Proof. induction ls as [| l ls IH]; simpl; [done |]. by rewrite length_app, IH. Qed.

Lemma displayNextQuestion_shows_member random (s : state) :
  allQuestions s ≠ [] →
  Forall (fun q => is_question q = true) (allQuestions s) →
  ∃ q, q ∈ allQuestions s ∧
       let '(result, s') := displayNextQuestion random s in
       result = Normal tt ∧ displays s' q ∧ allQuestions s' = allQuestions s.
Proof.
  intros Hne Hall.
  destruct (Math_floor_times_lookup (allQuestions s) (random (drawn s)) Hne) as [q Hq].
  assert (q ∈ allQuestions s) as Hin by (by eapply list_elem_of_lookup_2).
  assert (is_question q = true) as Hquestion.
  { by apply (proj1 (Forall_forall _ _) Hall). }
  exists q. split; [done |].
  pose proof (displayNextQuestion_shows random s q Hq Hquestion) as H.
  destruct (displayNextQuestion random s) as [result s'].
  by destruct H as (-> & Hshows & _ & _ & _ & Hkeep & _).
Qed.

Lemma displayNextQuestion_preserves_loadingSpinner random :
  preserves loadingSpinner (displayNextQuestion random).
Proof. unfold displayNextQuestion. preserve. Qed.

Lemma displayNextQuestion_preserves_console random :
  preserves console (displayNextQuestion random).
Proof. unfold displayNextQuestion. preserve. Qed.

(** The page [displayNextQuestion] leaves on an empty pool. *)
Lemma displayNextQuestion_guidance_page random (s : state) :
  allQuestions s = [] →
  let '(result, s') := displayNextQuestion random s in
  result = Normal tt ∧ textContent (questionText s') = Str guidance ∧
  hidden (answerText s') ∧ hidden (showAnswerBtn s') ∧ hidden (nextQuestionBtn s').
Proof.
  intros Hpool. rewrite (displayNextQuestion_guidance random s Hpool).
  destruct s; simpl. repeat split; apply hidden_add.
Qed.

(** C1, amended. When every request of a fetch cycle is answered with a
    success status and a JSON array of questions that the engine can
    spread, and nothing else runs between the start of the cycle and its
    end, the cycle ends normally with a pool that is a permutation of the
    concatenation of the fetched arrays, so its size is the sum of their
    sizes and nothing is made up or lost; the question it shows, and the
    question any later [displayNextQuestion] shows, is an element of the
    fetched arrays (when all of them are empty the guidance message is
    shown instead). *)
Theorem fetchQuestions_pool_is_fetched_union
    limit net random categories (fetched : list (list json)) (s : state) :
  Forall2 (fun o items => ∃ r, o = Responds r ∧ ok r = true ∧ body r = JSONText (JArr items))
          (outcomes net (length (requests s)) categories) fetched →
  Forall (fun items => length items ≤ limit) fetched →
  Forall (fun q => is_question q = true) (concat fetched) →
  let '(result, s') := alone limit net random (fetchQuestions_start net random categories) s in
  result = Normal tt ∧
  allQuestions s' ≡ₚ concat fetched ∧
  length (allQuestions s') = sum_list (length <$> fetched) ∧
  (concat fetched ≠ [] → ∃ q, q ∈ concat fetched ∧ displays s' q) ∧
  (concat fetched ≠ [] →
   ∀ random', ∃ q, q ∈ concat fetched ∧ displays (snd (displayNextQuestion random' s')) q) ∧
  (concat fetched = [] → textContent (questionText s') = Str guidance).
Proof.
  intros Hfetched Hlimit Hquestions. rewrite alone_fetchQuestions.
  destruct (fetchQuestions_outcome limit net random categories s)
    as (s_ready & -> & _ & _ & Hpool & _).
  rewrite (pushed_fetched _ _ _ Hfetched Hlimit) in Hpool.
  assert (allQuestions s_ready ≡ₚ concat fetched) as Hperm.
  { rewrite Hpool. apply fisher_yates_from_Permutation. }
  assert (Forall (fun q => is_question q = true) (allQuestions s_ready)) as Hall.
  { by rewrite Hperm. }
  destruct (decide (concat fetched = [])) as [Hempty | Hne].
  - assert (allQuestions s_ready = []) as Hnil.
    { apply Permutation_nil_r. by rewrite <- Hempty, Hperm. }
    pose proof (displayNextQuestion_guidance_page random s_ready Hnil) as Hpage.
    pose proof (displayNextQuestion_preserves_allQuestions random s_ready) as Hkeep.
    destruct (displayNextQuestion random s_ready) as [result s']. simpl in Hkeep.
    destruct Hpage as (-> & Htext & _).
    rewrite Hkeep. split; [done |]. split; [done |].
    split; [by rewrite Hperm, length_concat |]. done.
  - assert (allQuestions s_ready ≠ []) as Hne'.
    { intros Hnil. apply Hne. apply Permutation_nil_r. by rewrite <- Hnil, Hperm. }
    destruct (displayNextQuestion_shows_member random s_ready Hne' Hall) as (q & Hin & H).
    destruct (displayNextQuestion random s_ready) as [result s'].
    destruct H as (-> & Hshows & Hkeep).
    rewrite Hkeep. split; [done |]. split; [done |].
    split; [by rewrite Hperm, length_concat |].
    split; [intros _; exists q; by rewrite <- Hperm |].
    split; [| done].
    intros _ random'.
    destruct (displayNextQuestion_shows_member random' s') as (q' & Hin' & H').
    { by rewrite Hkeep. }
    { by rewrite Hkeep. }
    exists q'. split; [by rewrite <- Hperm, <- Hkeep |].
    destruct (displayNextQuestion random' s') as [result' s''].
    by destruct H' as (_ & Hshows' & _).
Qed.

Lemma log_for_skips limit category o :
  if pushes limit o then log_for limit category o = [] ∧ pushed limit o = payload o
  else pushed limit o = [] ∧ ∃ entry, log_for limit category o = [entry].
Proof.
  unfold pushes, pushed.
  destruct o as [e | r]; simpl; [by eauto |].
  destruct (ok r); simpl; [| by eauto].
  destruct (body r) as [| []]; simpl; try by eauto.
  destruct (length items <=? limit); by eauto.
Qed.

Lemma log_for_outcomes limit net n categories :
  Forall2 (fun category o =>
             if pushes limit o then log_for limit category o = [] ∧ pushed limit o = payload o
             else pushed limit o = [] ∧ ∃ entry, log_for limit category o = [entry])
          categories (outcomes net n categories).
Proof.
  revert n. induction categories as [| c rest IH]; intros n; simpl; constructor.
  - apply log_for_skips.
  - apply IH.
Qed.

(** The page on which lines 94-96 leave the popup. *)
Lemma after_loop_page random (s : state) :
  let '(result, s') := after_loop random s in
  hidden (loadingSpinner s') ∧ allQuestions s' ≡ₚ allQuestions s ∧
  (allQuestions s = [] →
   result = Normal tt ∧ textContent (questionText s') = Str guidance ∧
   hidden (answerText s') ∧ hidden (showAnswerBtn s') ∧ hidden (nextQuestionBtn s')) ∧
  (allQuestions s ≠ [] → Forall (fun q => is_question q = true) (allQuestions s) →
   result = Normal tt ∧ ∃ q, q ∈ allQuestions s' ∧ displays s' q).
Proof.
  destruct (after_loop_outcome random s) as (s_ready & -> & Hpool & Hspin & _).
  assert (allQuestions s_ready ≡ₚ allQuestions s) as Hperm.
  { rewrite Hpool. apply fisher_yates_from_Permutation. }
  pose proof (displayNextQuestion_preserves_loadingSpinner random s_ready) as Hkeep.
  pose proof (displayNextQuestion_preserves_allQuestions random s_ready) as Hsame.
  destruct (displayNextQuestion random s_ready) as [result s'] eqn:Hshow.
  simpl in Hkeep, Hsame.
  split; [by rewrite Hkeep |]. split; [by rewrite Hsame |]. split.
  - intros Hempty.
    assert (allQuestions s_ready = []) as Hnil.
    { apply Permutation_nil_r. by rewrite <- Hempty, Hperm. }
    pose proof (displayNextQuestion_guidance_page random s_ready Hnil) as Hpage.
    by rewrite Hshow in Hpage.
  - intros Hne Hall.
    assert (allQuestions s_ready ≠ []) as Hne'.
    { intros Hnil. apply Hne. apply Permutation_nil_r. by rewrite <- Hnil, Hperm. }
    destruct (displayNextQuestion_shows_member random s_ready Hne') as (q & Hin & H).
    { by rewrite Hperm. }
    rewrite Hshow in H. destruct H as (-> & Hshows & _).
    split; [done |]. exists q. by rewrite Hsame.
Qed.

(** C2, amended. A suspended fetch cycle whose category has failed (the
    request is rejected, the status is outside 200-299, the body is not
    JSON or not an array, or the array is too long to spread) is resumed
    by one entry on the console and nothing else, and then the loop goes
    on, in whatever state the page is by then: with a category left, the
    next category is requested; with none left, the pool as it stands is
    shuffled, the loading spinner is hidden and [displayNextQuestion]
    runs, which shows the guidance message with the answer text and both
    buttons hidden when the pool is empty and one question of the pool
    when the pool holds questions.  For a cycle between whose steps
    nothing else runs: every category is requested, in order; a request
    that fails adds nothing to the pool and exactly one entry to the
    console, the others add their arrays and log nothing; and the page at
    the end is the guidance message and hidden controls when nothing was
    added, and otherwise one of the questions added. *)
Theorem fetchQuestions_skips_failed_categories
    limit net random (c : cycle) (categories : list string) (s : state) :
  (fails limit (awaited c) = true →
   ∃ entry,
     fetchQuestions_resume limit net random c s
     = next_category net random (remaining c) (on_console (fun log => log ++ [entry]) s)) ∧
  (∀ category rest,
     next_category net random (category :: rest) s =
       (Normal (Some {| current := category;
                        awaited := FetchPromise (net (length (requests s)) (request_url category));
                        remaining := rest |}),
        on_requests (fun log => log ++ [request_url category]) s)) ∧
  (let '(result, s') := next_category net random [] s in
   hidden (loadingSpinner s') ∧ allQuestions s' ≡ₚ allQuestions s ∧
   (allQuestions s = [] →
    result = Normal None ∧ textContent (questionText s') = Str guidance ∧
    hidden (answerText s') ∧ hidden (showAnswerBtn s') ∧ hidden (nextQuestionBtn s')) ∧
   (allQuestions s ≠ [] → Forall (fun q => is_question q = true) (allQuestions s) →
    result = Normal None ∧ ∃ q, q ∈ allQuestions s' ∧ displays s' q)) ∧
  (let os := outcomes net (length (requests s)) categories in
   let pool := concat (pushed limit <$> os) in
   Forall2 (fun category o =>
              if pushes limit o then log_for limit category o = [] ∧ pushed limit o = payload o
              else pushed limit o = [] ∧ ∃ entry, log_for limit category o = [entry])
           categories os ∧
   ∃ s_ready,
     alone limit net random (fetchQuestions_start net random categories) s
     = displayNextQuestion random s_ready ∧
     requests s_ready = requests s ++ (request_url <$> categories) ∧
     console s_ready = console s ++ concat (zip_with (log_for limit) categories os) ∧
     allQuestions s_ready = fisher_yates (choices random (drawn s) (length pool - 1)) pool ∧
     allQuestions s_ready ≡ₚ pool ∧
     hidden (loadingSpinner s_ready) ∧
     let '(result, s') := displayNextQuestion random s_ready in
     (pool = [] →
      result = Normal tt ∧ textContent (questionText s') = Str guidance ∧
      hidden (answerText s') ∧ hidden (showAnswerBtn s') ∧ hidden (nextQuestionBtn s')) ∧
     (pool ≠ [] → Forall (fun q => is_question q = true) pool →
      result = Normal tt ∧ ∃ q, q ∈ pool ∧ displays s' q)).
Proof.
  split; [apply fetchQuestions_resume_fails |].
  split; [intros category rest; apply next_category_request |].
  split.
  { rewrite next_category_end.
    pose proof (after_loop_page random s) as H.
    destruct (after_loop random s) as [[[] | e] s'].
    - destruct H as (Hspin & Hperm & Hempty & Hshown).
      split; [done |]. split; [done |]. split.
      + intros Hnil. by destruct (Hempty Hnil) as (_ & ? & ? & ? & ?).
      + intros Hne Hall. by destruct (Hshown Hne Hall) as (_ & ?).
    - destruct H as (Hspin & Hperm & Hempty & Hshown).
      split; [done |]. split; [done |]. split.
      + intros Hnil. by destruct (Hempty Hnil).
      + intros Hne Hall. by destruct (Hshown Hne Hall). }
  intros os pool. split; [apply log_for_outcomes |].
  destruct (fetchQuestions_outcome limit net random categories s)
    as (s_ready & Hrun & Hreq & Hlog & Hpool & Hspin & _).
  assert (allQuestions s_ready ≡ₚ pool) as Hperm.
  { rewrite Hpool. apply fisher_yates_from_Permutation. }
  exists s_ready. split; [by rewrite alone_fetchQuestions |]. do 5 (split; [done |]).
  destruct (decide (pool = [])) as [Hempty | Hne].
  - assert (allQuestions s_ready = []) as Hnil.
    { apply Permutation_nil_r. by rewrite <- Hempty, Hperm. }
    pose proof (displayNextQuestion_guidance_page random s_ready Hnil) as Hpage.
    destruct (displayNextQuestion random s_ready) as [result s'].
    split; [done |]. by intros Hcontra.
  - assert (allQuestions s_ready ≠ []) as Hne'.
    { intros Hnil. apply Hne. apply Permutation_nil_r. by rewrite <- Hnil, Hperm. }
    destruct (displayNextQuestion random s_ready) as [result s'] eqn:Hshow.
    split; [done |]. intros _ Hall.
    destruct (displayNextQuestion_shows_member random s_ready Hne') as (q & Hin & H).
    { by rewrite Hperm. }
    rewrite Hshow in H. destruct H as (-> & Hshows & _).
    split; [done |]. exists q. by rewrite <- Hperm.
Qed.

(** ** Loading the popup *)

Lemma fetchQuestions_preserves_localStorage limit net random categories :
  preserves localStorage (fetchQuestions limit net random categories).
Proof.
  intros s. destruct (fetchQuestions_outcome limit net random categories s)
    as (s_ready & -> & _ & _ & _ & _ & <- & _).
  apply displayNextQuestion_preserves_localStorage.
Qed.

Lemma fetchQuestions_preserves_checkboxes limit net random categories :
  preserves checkboxes (fetchQuestions limit net random categories).
Proof.
  intros s. destruct (fetchQuestions_outcome limit net random categories s)
    as (s_ready & -> & _ & _ & _ & _ & _ & <- & _).
  apply displayNextQuestion_preserves_checkboxes.
Qed.

Lemma fetchQuestion_preserves_localStorage limit net random :
  preserves localStorage (fetchQuestion limit net random).
Proof.
  unfold fetchQuestion. apply preserves_bind; [preserve | intros sel].
  destruct (length sel =? 0); [preserve |].
  apply fetchQuestions_preserves_localStorage.
Qed.

Lemma fetchQuestion_preserves_checkboxes limit net random :
  preserves checkboxes (fetchQuestion limit net random).
Proof.
  unfold fetchQuestion. apply preserves_bind; [preserve | intros sel].
  destruct (length sel =? 0); [preserve |].
  apply fetchQuestions_preserves_checkboxes.
Qed.

Lemma displayNextQuestion_preserves_change_listeners random :
  preserves change_listeners (displayNextQuestion random).
Proof. unfold displayNextQuestion. preserve. Qed.

Lemma displayNextQuestion_preserves_click_listeners random :
  preserves click_listeners (displayNextQuestion random).
Proof. unfold displayNextQuestion. preserve. Qed.

Lemma fetchQuestion_preserves_change_listeners limit net random :
  preserves change_listeners (fetchQuestion limit net random).
Proof.
  unfold fetchQuestion. apply preserves_bind; [preserve | intros sel].
  destruct (length sel =? 0); [preserve |].
  intros s. destruct (fetchQuestions_outcome limit net random sel s)
    as (s_ready & -> & _ & _ & _ & _ & _ & _ & <- & _).
  apply displayNextQuestion_preserves_change_listeners.
Qed.

Lemma fetchQuestion_preserves_click_listeners limit net random :
  preserves click_listeners (fetchQuestion limit net random).
Proof.
  unfold fetchQuestion. apply preserves_bind; [preserve | intros sel].
  destruct (length sel =? 0); [preserve |].
  intros s. destruct (fetchQuestions_outcome limit net random sel s)
    as (s_ready & -> & _ & _ & _ & _ & _ & _ & _ & <-).
  apply displayNextQuestion_preserves_click_listeners.
Qed.

Lemma forEach_array items done rest (s : state) :
  checkboxes s = done ++ rest →
  forEach (apply_saved (JArr items)) (length done) rest s =
    (Normal tt,
     on_change_listeners (fun listeners => list_to_set (seq (length done) (length rest)) ∪ listeners)
       (on_checkboxes (fun _ => done ++ (mark items <$> rest)) s)).
Proof.
  revert done s. induction rest as [| c rest IH]; intros done s Hcbs.
  - simpl. unfold ret. rewrite app_nil_r in *. destruct s; simpl in *. subst.
    unfold on_change_listeners, on_checkboxes; simpl. do 2 f_equal. set_solver.
  - cbn [forEach]. unfold bind at 1, apply_saved at 1. cbn [includes lift].
    unfold bind at 1, ret. unfold bind at 1, modify at 1. unfold modify at 1.
    set (s1 := on_change_listeners (fun listeners => {[length done]} ∪ listeners)
                 (on_checkboxes
                    (fun l => <[length done := mark items c]> l) s)).
    assert (checkboxes s1 = (done ++ [mark items c]) ++ rest) as Hcbs1.
    { subst s1. destruct s; simpl in *. subst.
      rewrite <- app_assoc. simpl.
      replace (length done) with (length done + 0) at 1 by lia.
      by rewrite insert_app_r. }
    specialize (IH (done ++ [mark items c]) s1 Hcbs1).
    rewrite length_app in IH. simpl in IH.
    replace (length done + 1) with (S (length done)) in IH by lia.
    change (forEach (apply_saved (JArr items)) (S (length done)) rest s1 = 
            (Normal tt,
             on_change_listeners
               (fun listeners => list_to_set (seq (length done) (length (c :: rest))) ∪ listeners)
               (on_checkboxes (fun _ => done ++ (mark items <$> c :: rest)) s))).
    rewrite IH. f_equal. subst s1. destruct s; unfold on_change_listeners, on_checkboxes; simpl.
    rewrite <- app_assoc. simpl. f_equal. set_solver.
Qed.

Lemma restore_selection_array (s : state) items :
  localStorage s !! "selectedCategories" = Some (Encodes (JArr items)) → items ≠ [] →
  restore_selection s =
    (Normal tt,
     on_change_listeners (fun listeners => list_to_set (seq 0 (length (checkboxes s))) ∪ listeners)
       (on_checkboxes (fun _ => mark items <$> checkboxes s)
          (on_nextQuestionBtn (classList_add "hidden")
             (on_showAnswerBtn (classList_add "hidden") s)))).
Proof.
  intros Hstored Hne.
  destruct s as [st cbs sab nqb qt ans spin pool log reqs d chl cll]. simpl in Hstored.
  unfold restore_selection, bind, modify, gets. simpl.
  rewrite Hstored.
  simpl. destruct items as [| item items']; [done |]. simpl.
  rewrite (forEach_array (item :: items') []) by done.
  reflexivity.
Qed.

Lemma restore_selection_default (s : state) :
  localStorage s !! "selectedCategories" = None ∨
  localStorage s !! "selectedCategories" = Some (Encodes (JArr [])) →
  restore_selection s =
    (Normal tt,
     on_change_listeners (fun listeners => list_to_set (seq 0 (length (checkboxes s))) ∪ listeners)
       (on_checkboxes (fun _ => mark [JStr "Cypress"] <$> checkboxes s)
          (on_localStorage (fun store => <["selectedCategories" := Encodes (JArr [JStr "Cypress"])]> store)
             (on_nextQuestionBtn (classList_add "hidden")
                (on_showAnswerBtn (classList_add "hidden") s))))).
Proof.
  intros Hstored.
  destruct s as [st cbs sab nqb qt ans spin pool log reqs d chl cll]. simpl in Hstored.
  unfold restore_selection, bind, modify, gets. simpl.
  destruct Hstored as [-> | ->]; simpl;
    unfold localStorage_setItem, bind, modify, JSON_stringify; simpl;
    rewrite (forEach_array [JStr "Cypress"] []) by done; reflexivity.
Qed.

Lemma DOMContentLoaded_array limit net random (s : state) items :
  localStorage s !! "selectedCategories" = Some (Encodes (JArr items)) → items ≠ [] →
  DOMContentLoaded limit net random s =
    fetchQuestion limit net random
      (listening (length (checkboxes s))
         (on_checkboxes (fun _ => mark items <$> checkboxes s)
            (on_nextQuestionBtn (classList_add "hidden")
               (on_showAnswerBtn (classList_add "hidden") s)))).
Proof.
  intros Hstored Hne. unfold DOMContentLoaded, bind at 1.
  by rewrite (restore_selection_array s items).
Qed.

Lemma DOMContentLoaded_default limit net random (s : state) :
  localStorage s !! "selectedCategories" = None ∨
  localStorage s !! "selectedCategories" = Some (Encodes (JArr [])) →
  DOMContentLoaded limit net random s =
    fetchQuestion limit net random
      (listening (length (checkboxes s))
         (on_checkboxes (fun _ => mark [JStr "Cypress"] <$> checkboxes s)
            (on_localStorage (fun store => <["selectedCategories" := Encodes (JArr [JStr "Cypress"])]> store)
               (on_nextQuestionBtn (classList_add "hidden")
                  (on_showAnswerBtn (classList_add "hidden") s))))).
Proof.
  intros Hstored. unfold DOMContentLoaded, bind at 1.
  by rewrite (restore_selection_default s).
Qed.

Lemma mark_Cypress (c : checkbox) :
  mark [JStr "Cypress"] c = {| value := value c; checked := bool_decide (value c = "Cypress") |}.
Proof.
  unfold mark, in_selection, existsb. f_equal. rewrite orb_false_r.
  destruct (String.eqb_spec "Cypress" (value c)) as [Heq | Hne].
  - symmetry. by apply bool_decide_eq_true_2.
  - symmetry. apply bool_decide_eq_false_2. congruence.
Qed.

Lemma DOMContentLoaded_default_storage limit net random (s : state) :
  localStorage s !! "selectedCategories" = None ∨
  localStorage s !! "selectedCategories" = Some (Encodes (JArr [])) →
  localStorage (snd (DOMContentLoaded limit net random s)) !! "selectedCategories"
    = Some (Encodes (JArr [JStr "Cypress"])).
Proof.
  intros Hstored. rewrite DOMContentLoaded_default by done.
  rewrite fetchQuestion_preserves_localStorage.
  destruct s; simpl. apply lookup_insert_eq.
Qed.

Lemma DOMContentLoaded_default_checkboxes limit net random (s : state) :
  localStorage s !! "selectedCategories" = None ∨
  localStorage s !! "selectedCategories" = Some (Encodes (JArr [])) →
  checkboxes (snd (DOMContentLoaded limit net random s)) =
    (fun c => {| value := value c; checked := bool_decide (value c = "Cypress") |})
      <$> checkboxes s.
Proof.
  intros Hstored. rewrite DOMContentLoaded_default by done.
  rewrite fetchQuestion_preserves_checkboxes.
  destruct s; simpl. apply list_fmap_ext. intros _ c _. apply mark_Cypress.
Qed.

Lemma selected_unchecked cbs :
  Forall (fun c => checked c = false) cbs → selected cbs = [].
Proof.
  unfold selected. induction 1 as [| c cbs' Hc _ IH]; simpl; [done |].
  by rewrite Hc.
Qed.

(** C10. With every checkbox unchecked, [saveCategorySelections] stores
    the empty array, not the default; a later load of the popup that finds
    this value in storage replaces it with the array of Cypress alone and
    checks exactly the checkboxes whose value is Cypress. *)
Theorem deselect_all_reset_on_load limit net random limit' net' random' (s s_new : state) :
  Forall (fun c => checked c = false) (checkboxes s) →
  let s1 := snd (saveCategorySelections limit net random s) in
  localStorage s1 !! "selectedCategories" = Some (JSON_stringify (JArr [])) ∧
  (localStorage s_new = localStorage s1 →
   let s2 := snd (DOMContentLoaded limit' net' random' s_new) in
   localStorage s2 !! "selectedCategories" = Some (JSON_stringify (JArr [JStr "Cypress"])) ∧
   checkboxes s2 =
     (fun c => {| value := value c; checked := bool_decide (value c = "Cypress") |})
       <$> checkboxes s_new).
Proof.
  intros Hnone. cbv zeta.
  assert (localStorage (snd (saveCategorySelections limit net random s)) !! "selectedCategories"
          = Some (JSON_stringify (JArr []))) as Hsaved.
  { unfold saveCategorySelections, bind, gets, localStorage_setItem, modify.
    rewrite (selected_unchecked _ Hnone). cbn [List.map].
    rewrite fetchQuestion_preserves_localStorage.
    destruct s; simpl. apply lookup_insert_eq. }
  split; [done |]. intros Hsame.
  assert (localStorage s_new !! "selectedCategories" = None ∨
          localStorage s_new !! "selectedCategories" = Some (Encodes (JArr []))) as Hread.
  { right. by rewrite Hsame. }
  split.
  - by apply DOMContentLoaded_default_storage.
  - by apply DOMContentLoaded_default_checkboxes.
Qed.

Lemma Math_floor_times_fraction_pred k n :
  k < n → Math_floor_times (fraction k (n - 1)) n = k.
Proof.
  intros Hk. replace n with ((n - 1) + 1) at 2 by lia.
  apply Math_floor_times_fraction. lia.
Qed.

(** C7. Neither [displayNextQuestion] nor a click on the next-question
    button changes the pool or issues a request; the click hides the
    answer text and then runs [displayNextQuestion] on the pool as it is,
    which picks index [Math.floor(Math.random() * allQuestions.length)];
    so for each question of the pool there are random numbers with which
    two clicks in a row both show that question, its answer hidden. *)
Theorem nextQuestion_reuses_pool random (s : state) :
  allQuestions (snd (displayNextQuestion random s)) = allQuestions s ∧
  requests (snd (displayNextQuestion random s)) = requests s ∧
  nextQuestionBtn_click random s
    = displayNextQuestion random (on_answerText (classList_add "hidden") s) ∧
  allQuestions (snd (nextQuestionBtn_click random s)) = allQuestions s ∧
  requests (snd (nextQuestionBtn_click random s)) = requests s ∧
  (∀ k q, allQuestions s !! k = Some q → is_question q = true →
          ∃ random',
            let s1 := snd (nextQuestionBtn_click random' s) in
            let s2 := snd (nextQuestionBtn_click random' s1) in
            displays s1 q ∧ displays s2 q ∧
            hidden (answerText s1) ∧ hidden (answerText s2) ∧
            allQuestions s1 = allQuestions s ∧ allQuestions s2 = allQuestions s).
Proof.
  assert (∀ r s0, nextQuestionBtn_click r s0
                  = displayNextQuestion r (on_answerText (classList_add "hidden") s0)) as Hclick.
  { reflexivity. }
  split; [apply displayNextQuestion_preserves_allQuestions |].
  split; [apply displayNextQuestion_preserves_requests |].
  split; [apply Hclick |].
  split; [rewrite Hclick, displayNextQuestion_preserves_allQuestions; by destruct s |].
  split; [rewrite Hclick, displayNextQuestion_preserves_requests; by destruct s |].
  intros k q Hk Hquestion.
  pose (random' := fun _ : nat => fraction k (length (allQuestions s) - 1)).
  exists random'. cbv zeta.
  assert (∀ s0, allQuestions s0 = allQuestions s →
                displays (snd (nextQuestionBtn_click random' s0)) q ∧
                hidden (answerText (snd (nextQuestionBtn_click random' s0))) ∧
                allQuestions (snd (nextQuestionBtn_click random' s0)) = allQuestions s) as Hstep.
  { intros s0 Hpool. rewrite Hclick.
    pose proof (displayNextQuestion_shows random'
                  (on_answerText (classList_add "hidden") s0) q) as H.
    destruct (displayNextQuestion random' (on_answerText (classList_add "hidden") s0))
      as [result s'].
    destruct H as (_ & Hshows & Hhidden & _ & _ & Hkeep & _).
    - replace (allQuestions (on_answerText (classList_add "hidden") s0))
        with (allQuestions s) by (by destruct s0).
      unfold random'. rewrite Math_floor_times_fraction_pred; [done |].
      by apply lookup_lt_Some in Hk.
    - done.
    - simpl. split; [done |]. split; [done |]. rewrite Hkeep. by destruct s0. }
  destruct (Hstep s eq_refl) as (Hs1 & Hh1 & Hp1).
  destruct (Hstep (snd (nextQuestionBtn_click random' s)) Hp1) as (Hs2 & Hh2 & Hp2).
  done.
Qed.

(** ** No uncaught exception on well-formed data *)

Lemma Forall_pushed limit (P : json → Prop) (os : list fetch_outcome) :
  Forall P (concat (payload <$> os)) → Forall P (concat (pushed limit <$> os)).
Proof.
  induction os as [| o os IH]; [done |].
  rewrite !fmap_cons. cbn [concat]. rewrite !Forall_app. intros [Ho Hos].
  split; [| by apply IH]. unfold pushed. by destruct (length (payload o) <=? limit).
Qed.

Lemma payload_questions net n categories :
  sends_questions net →
  Forall (fun q => is_question q = true) (concat (payload <$> outcomes net n categories)).
Proof.
  intros Hnet. revert n. induction categories as [| c rest IH]; intros n.
  - constructor.
  - cbn [outcomes]. rewrite fmap_cons. cbn [concat]. apply Forall_app. split; [| apply IH].
    destruct (net n (request_url c)) as [e | r] eqn:Ho; simpl; [constructor |].
    destruct (ok r) eqn:Hok; [| constructor].
    destruct (body r) as [| v] eqn:Hbody; [constructor |].
    destruct v; try constructor. by eapply Hnet.
Qed.

Lemma fetchQuestions_well_formed limit net random categories (s : state) :
  sends_questions net →
  let '(result, s') := fetchQuestions limit net random categories s in
  result = Normal tt ∧ Forall (fun q => is_question q = true) (allQuestions s') ∧
  localStorage s' = localStorage s.
Proof.
  intros Hnet.
  destruct (fetchQuestions_outcome limit net random categories s)
    as (s_ready & -> & _ & _ & Hpool & _ & Hstore & _).
  assert (Forall (fun q => is_question q = true) (allQuestions s_ready)) as Hall.
  { rewrite Hpool. unfold fisher_yates. rewrite fisher_yates_from_Permutation.
    by apply Forall_pushed, payload_questions. }
  pose proof (displayNextQuestion_normal random s_ready Hall) as Hnormal.
  pose proof (displayNextQuestion_preserves_allQuestions random s_ready) as Hkeep.
  pose proof (displayNextQuestion_preserves_localStorage random s_ready) as Hkeep'.
  destruct (displayNextQuestion random s_ready) as [result s']. simpl in *.
  by rewrite Hkeep, Hkeep', Hstore.
Qed.

Lemma fetchQuestion_well_formed limit net random (s : state) :
  sends_questions net →
  Forall (fun q => is_question q = true) (allQuestions s) →
  let '(result, s') := fetchQuestion limit net random s in
  result = Normal tt ∧ Forall (fun q => is_question q = true) (allQuestions s') ∧
  localStorage s' = localStorage s.
Proof.
  intros Hnet Hall. unfold fetchQuestion, bind, gets.
  destruct (length (selected (checkboxes s)) =? 0).
  - destruct s; simpl in *. done.
  - by apply fetchQuestions_well_formed.
Qed.

Lemma stored_selection_ok_insert (s : state) items :
  stored_selection_ok
    (on_localStorage (fun store => <["selectedCategories" := Encodes (JArr items)]> store) s).
Proof. right. exists items. destruct s; simpl. apply lookup_insert_eq. Qed.

Lemma well_formed_transfer (s s' : state) :
  localStorage s' = localStorage s →
  Forall (fun q => is_question q = true) (allQuestions s') →
  stored_selection_ok s → well_formed s'.
Proof. intros Hst Hall Hok. split; [| done]. unfold stored_selection_ok. by rewrite Hst. Qed.

Lemma fetchQuestion_keeps_well_formed limit net random (s : state) :
  sends_questions net → well_formed s →
  let '(result, s') := fetchQuestion limit net random s in
  result = Normal tt ∧ well_formed s'.
Proof.
  intros Hnet [Hstored Hall].
  pose proof (fetchQuestion_well_formed limit net random s Hnet Hall) as H.
  destruct (fetchQuestion limit net random s) as [result s'].
  destruct H as (-> & Hall' & Hst). split; [done |].
  by apply (well_formed_transfer s s').
Qed.

Lemma displayNextQuestion_keeps_well_formed random (s : state) :
  well_formed s →
  let '(result, s') := displayNextQuestion random s in
  result = Normal tt ∧ well_formed s'.
Proof.
  intros [Hstored Hall].
  pose proof (displayNextQuestion_normal random s Hall) as Hnormal.
  pose proof (displayNextQuestion_preserves_allQuestions random s) as Hkeep.
  pose proof (displayNextQuestion_preserves_localStorage random s) as Hkeep'.
  destruct (displayNextQuestion random s) as [result s']. simpl in *.
  split; [done |]. apply (well_formed_transfer s s'); [done | by rewrite Hkeep | done].
Qed.

Lemma well_formed_same (s s' : state) :
  localStorage s' = localStorage s → allQuestions s' = allQuestions s →
  well_formed s → well_formed s'.
Proof.
  intros Hst Hpool [Hstored Hall]. split.
  - unfold stored_selection_ok. by rewrite Hst.
  - by rewrite Hpool.
Qed.

Lemma DOMContentLoaded_well_formed limit net random (s : state) :
  sends_questions net → well_formed s →
  let '(result, s') := DOMContentLoaded limit net random s in
  result = Normal tt ∧ well_formed s'.
Proof.
  intros Hnet [Hstored Hall].
  assert (well_formed
            (listening (length (checkboxes s))
               (on_checkboxes (fun _ => mark [JStr "Cypress"] <$> checkboxes s)
                  (on_localStorage
                     (fun store => <["selectedCategories" := Encodes (JArr [JStr "Cypress"])]> store)
                     (on_nextQuestionBtn (classList_add "hidden")
                        (on_showAnswerBtn (classList_add "hidden") s)))))) as Hdefault.
  { split; [| by destruct s].
    right. exists [JStr "Cypress"]. destruct s; simpl. apply lookup_insert_eq. }
  destruct Hstored as [Hnone | [items Hitems]].
  - rewrite DOMContentLoaded_default by (by left).
    apply fetchQuestion_keeps_well_formed; [done | by apply Hdefault].
  - destruct (decide (items = [])) as [-> | Hne].
    + rewrite DOMContentLoaded_default by (by right).
      apply fetchQuestion_keeps_well_formed; [done | by apply Hdefault].
    + rewrite (DOMContentLoaded_array limit net random s items) by done.
      apply fetchQuestion_keeps_well_formed; [done |].
      split; [| by destruct s]. right. exists items. by destruct s.
Qed.

Lemma handle_well_formed limit net random ev (s : state) :
  sends_questions net → well_formed s →
  let '(result, s') := handle limit net random ev s in
  result = Normal tt ∧ well_formed s'.
Proof.
  intros Hnet Hs. destruct ev as [| k | |]; simpl.
  - (* Load *)
    change ((script_start ;; DOMContentLoaded limit net random) s)
      with (DOMContentLoaded limit net random
              (on_allQuestions (fun _ => [])
                 (on_click_listeners (fun _ => false)
                    (on_change_listeners (fun _ => ∅) s)))).
    apply DOMContentLoaded_well_formed; [done |].
    destruct Hs as [Hstored _]. split; [| by destruct s].
    unfold stored_selection_ok in *. by destruct s.
  - (* Change *)
    unfold change, bind, gets. destruct (checkboxes s !! k) as [c |]; [| done].
    unfold modify at 1. cbv beta iota.
    destruct (decide _) as [Hin | Hout].
    + unfold saveCategorySelections, localStorage_setItem, bind, modify, gets.
      cbv beta iota.
      apply fetchQuestion_keeps_well_formed; [done |].
      destruct Hs as [_ Hall]. split; [| by destruct s]. apply stored_selection_ok_insert.
    + split; [done |]. apply (well_formed_same s); [by destruct s | by destruct s | done].
  - (* ShowAnswer *)
    unfold click, bind, gets. destruct (click_listeners s); [| done].
    split; [done |]. apply (well_formed_same s); [by destruct s | by destruct s | done].
  - (* NextQuestion *)
    unfold click, bind, gets. destruct (click_listeners s); [| done].
    change (nextQuestionBtn_click random s)
      with (displayNextQuestion random (on_answerText (classList_add "hidden") s)).
    apply displayNextQuestion_keeps_well_formed.
    apply (well_formed_same s); [by destruct s | by destruct s | done].
Qed.

(** C9, amended. When the stored selection is absent or a JSON array, the
    pool holds questions only and every array the endpoint delivers holds
    questions only, no handler of any sequence of events (load, checkbox
    change, reveal click, next-question click) ends with an uncaught
    exception, whatever the outcomes of the requests. *)
Theorem run_without_uncaught_exception limit net random evs (s : state) :
  sends_questions net → well_formed s →
  fst (run limit net random evs s) = [].
Proof.
  intros Hnet. revert s. induction evs as [| ev rest IH]; intros s Hs; [done |].
  cbn [run]. pose proof (handle_well_formed limit net random ev s Hnet Hs) as H.
  destruct (handle limit net random ev s) as [result s'].
  destruct H as [-> Hs']. by apply IH.
Qed.

(** ** The default selection and the empty pool *)

(** C3. When storage holds nothing or the empty array under
    [selectedCategories], loading the popup leaves the array of Cypress
    alone under that key and checks exactly the checkboxes whose value is
    Cypress, so that no other category is selected. *)
Theorem DOMContentLoaded_default_selection limit net random (s : state) :
  localStorage s !! "selectedCategories" = None ∨
  localStorage s !! "selectedCategories" = Some (JSON_stringify (JArr [])) →
  let s' := snd (DOMContentLoaded limit net random s) in
  localStorage s' !! "selectedCategories" = Some (JSON_stringify (JArr [JStr "Cypress"])) ∧
  checkboxes s' =
    (fun c => {| value := value c; checked := bool_decide (value c = "Cypress") |}) <$> checkboxes s ∧
  (∀ category, category ∈ selected (checkboxes s') → category = "Cypress").
Proof.
  intros Hstored. cbv zeta.
  split; [by apply DOMContentLoaded_default_storage |].
  rewrite (DOMContentLoaded_default_checkboxes limit net random s Hstored).
  split; [reflexivity |].
  intros category. unfold selected. rewrite list_elem_of_In, in_map_iff.
  intros (c & <- & Hc). apply filter_In in Hc as [Hc Hchecked].
  apply list_elem_of_In, list_elem_of_fmap in Hc as (c0 & -> & _).
  simpl in *. by apply bool_decide_eq_true_1 in Hchecked.
Qed.

(** C6. On an empty pool [displayNextQuestion] returns normally with the
    fixed guidance message (log into a single Google account) as question
    text and with the answer text, the reveal button and the next-question
    button hidden. *)
Theorem displayNextQuestion_empty_pool random (s : state) :
  allQuestions s = [] →
  let '(result, s') := displayNextQuestion random s in
  result = Normal tt ∧
  textContent (questionText s') =
    Str "Please make sure you are logged into only one Google account in your browser, as the extension will not work correctly with multiple accounts. " ∧
  hidden (answerText s') ∧ hidden (showAnswerBtn s') ∧ hidden (nextQuestionBtn s').
Proof.
  intros Hpool. rewrite (displayNextQuestion_guidance random s Hpool).
  destruct s; simpl. repeat split; apply hidden_add.
Qed.

(** ** Concrete runs *)

Lemma fetchQuestion_empty_selection_witness :
  selected (checkboxes (popup ∅ unchecked_boxes)) = [] ∧
  fst (fetchQuestion engine_limit endpoint_Q1 always_half (popup ∅ unchecked_boxes)) = Normal tt ∧
  requests (snd (fetchQuestion engine_limit endpoint_Q1 always_half (popup ∅ unchecked_boxes))) = [].
Proof.
  split; [reflexivity |].
  pose proof (fetchQuestion_empty_selection engine_limit endpoint_Q1 always_half
                (popup ∅ unchecked_boxes) eq_refl) as H.
  destruct (fetchQuestion engine_limit endpoint_Q1 always_half (popup ∅ unchecked_boxes)) as [result s'].
  destruct H as (Hresult & _ & _ & _ & _ & _ & Hrequests).
  split; [exact Hresult | exact Hrequests].
Defined.

Lemma displayNextQuestion_empty_pool_witness :
  allQuestions (popup ∅ unchecked_boxes) = [] ∧
  fst (displayNextQuestion always_half (popup ∅ unchecked_boxes)) = Normal tt ∧
  hidden (showAnswerBtn (snd (displayNextQuestion always_half (popup ∅ unchecked_boxes)))).
Proof.
  split; [reflexivity |].
  pose proof (displayNextQuestion_empty_pool always_half (popup ∅ unchecked_boxes) eq_refl) as H.
  destruct (displayNextQuestion always_half (popup ∅ unchecked_boxes)) as [result s'].
  destruct H as (Hresult & _ & _ & Hhidden & _).
  split; [exact Hresult | exact Hhidden].
Defined.

Lemma DOMContentLoaded_default_selection_witness :
  (localStorage (popup ∅ unchecked_boxes) !! "selectedCategories" = None ∨
   localStorage (popup ∅ unchecked_boxes) !! "selectedCategories"
     = Some (JSON_stringify (JArr []))) ∧
  localStorage (snd (DOMContentLoaded engine_limit endpoint_Q1 always_half (popup ∅ unchecked_boxes)))
    !! "selectedCategories" = Some (JSON_stringify (JArr [JStr "Cypress"])).
Proof.
  split; [left; reflexivity |].
  apply (DOMContentLoaded_default_selection engine_limit endpoint_Q1 always_half (popup ∅ unchecked_boxes)).
  left; reflexivity.
Defined.

Lemma deselect_all_reset_on_load_witness :
  Forall (fun c => checked c = false) (checkboxes (popup ∅ unchecked_boxes)) ∧
  localStorage
    (snd (DOMContentLoaded engine_limit endpoint_Q1 always_half
            (snd (saveCategorySelections engine_limit endpoint_Q1 always_half (popup ∅ unchecked_boxes)))))
    !! "selectedCategories" = Some (JSON_stringify (JArr [JStr "Cypress"])).
Proof.
  assert (Forall (fun c => checked c = false) (checkboxes (popup ∅ unchecked_boxes))) as Hnone.
  { repeat constructor. }
  split; [exact Hnone |].
  apply (deselect_all_reset_on_load engine_limit endpoint_Q1 always_half engine_limit endpoint_Q1 always_half
           (popup ∅ unchecked_boxes)
           (snd (saveCategorySelections engine_limit endpoint_Q1 always_half (popup ∅ unchecked_boxes)))
           Hnone).
  reflexivity.
Defined.

Lemma fetchQuestions_pool_is_fetched_union_witness :
  Forall2 (fun o items => ∃ r, o = Responds r ∧ ok r = true ∧ body r = JSONText (JArr items))
          (outcomes endpoint_by_category (length (requests (popup ∅ unchecked_boxes)))
             ["Cypress"; "Playwright"])
          [[Q1]; [Q2; Q3]] ∧
  Forall (fun items => length items ≤ engine_limit) [[Q1]; [Q2; Q3]] ∧
  Forall (fun q => is_question q = true) (concat [[Q1]; [Q2; Q3]]) ∧
  allQuestions
    (snd (alone engine_limit endpoint_by_category always_half
            (fetchQuestions_start endpoint_by_category always_half ["Cypress"; "Playwright"])
            (popup ∅ unchecked_boxes)))
    ≡ₚ [Q1; Q2; Q3] ∧
  length
    (allQuestions
       (snd (alone engine_limit endpoint_by_category always_half
               (fetchQuestions_start endpoint_by_category always_half ["Cypress"; "Playwright"])
               (popup ∅ unchecked_boxes)))) = 1 + 2.
Proof.
  assert (Forall2 (fun o items => ∃ r, o = Responds r ∧ ok r = true ∧ body r = JSONText (JArr items))
            (outcomes endpoint_by_category (length (requests (popup ∅ unchecked_boxes)))
               ["Cypress"; "Playwright"])
            [[Q1]; [Q2; Q3]]) as Hfetched.
  { constructor; [| constructor; [| constructor]].
    - exists {| status := 200; body := JSONText (JArr [Q1]) |}.
      split; [vm_compute; reflexivity |]. split; reflexivity.
    - exists {| status := 200; body := JSONText (JArr [Q2; Q3]) |}.
      split; [vm_compute; reflexivity |]. split; reflexivity. }
  assert (Forall (fun items => length items ≤ engine_limit) [[Q1]; [Q2; Q3]]) as Hlimit.
  { constructor; [apply Nat.leb_le; vm_compute; reflexivity |].
    constructor; [apply Nat.leb_le; vm_compute; reflexivity | constructor]. }
  assert (Forall (fun q => is_question q = true) (concat [[Q1]; [Q2; Q3]])) as Hquestions.
  { repeat constructor. }
  split; [exact Hfetched |]. split; [exact Hlimit |]. split; [exact Hquestions |].
  pose proof (fetchQuestions_pool_is_fetched_union engine_limit endpoint_by_category always_half
                ["Cypress"; "Playwright"] [[Q1]; [Q2; Q3]]
                (popup ∅ unchecked_boxes) Hfetched Hlimit Hquestions) as H.
  destruct (alone engine_limit endpoint_by_category always_half
              (fetchQuestions_start endpoint_by_category always_half ["Cypress"; "Playwright"])
              (popup ∅ unchecked_boxes))
    as [result s'].
  destruct H as (_ & Hperm & Hlength & _). split; [exact Hperm | exact Hlength].
Defined.

Lemma endpoint_Q1_sends_questions : sends_questions endpoint_Q1.
Proof.
  intros n url r items Hr _ Hbody. injection Hr as <-.
  injection Hbody as <-. repeat constructor.
Defined.

Lemma run_without_uncaught_exception_witness :
  sends_questions endpoint_Q1 ∧ well_formed (popup ∅ unchecked_boxes) ∧
  fst (run engine_limit endpoint_Q1 always_half [Load; ShowAnswer; NextQuestion; Change 1; NextQuestion]
         (popup ∅ unchecked_boxes)) = [].
Proof.
  assert (well_formed (popup ∅ unchecked_boxes)) as Hstate.
  { split; [left; reflexivity | constructor]. }
  split; [exact endpoint_Q1_sends_questions |]. split; [exact Hstate |].
  exact (run_without_uncaught_exception engine_limit endpoint_Q1 always_half
           [Load; ShowAnswer; NextQuestion; Change 1; NextQuestion]
           (popup ∅ unchecked_boxes) endpoint_Q1_sends_questions Hstate).
Defined.

(** C1, as stated, fails for a fetch cycle that overlaps another one.
    The popup is opened with nothing stored, which starts a cycle for
    Cypress.  While its request is pending the user checks Playwright,
    which starts a second cycle, for Cypress and Playwright, on the same
    pool.  Both requests of the second cycle are answered with a success
    status and an array, of one and of two questions; the answer to the
    request of the first cycle arrives in between and goes into the pool
    too.  When the second cycle ends the pool has four elements, [Q1]
    twice, for 1 + 2 questions fetched. *)
Lemma overlapping_cycles_share_pool :
  let turns := [Dispatch Load; Dispatch (Change 1);
                Resume 1; Resume 1; Resume 0; Resume 0; Resume 1; Resume 1] in
  let '(errs, cycles, s) :=
    interleave engine_limit endpoint_by_category always_half turns [] (popup ∅ unchecked_boxes) in
  errs = [] ∧ cycles = [None; None] ∧
  selected (checkboxes s) = ["Cypress"; "Playwright"] ∧
  requests s = [request_url "Cypress"; request_url "Cypress"; request_url "Playwright"] ∧
  outcomes endpoint_by_category 1 ["Cypress"; "Playwright"]
    = [Responds {| status := 200; body := JSONText (JArr [Q1]) |};
       Responds {| status := 200; body := JSONText (JArr [Q2; Q3]) |}] ∧
  allQuestions s = [Q1; Q3; Q1; Q2] ∧
  length (allQuestions s) ≠ 1 + 2 ∧
  ¬ allQuestions s ≡ₚ concat [[Q1]; [Q2; Q3]].
Proof.
  vm_compute. do 6 (split; [reflexivity |]). split; [discriminate |].
  intros Hperm. apply Permutation_length in Hperm. discriminate.
Qed.

(** An array that is too long to be spread is dropped and logged, though
    its request succeeded: here for an engine that spreads two elements
    and an array of three. *)
Example large_array_is_dropped :
  let s' :=
    snd (fetchQuestions 2
           (fun _ _ => Responds {| status := 200; body := JSONText (JArr [Q1; Q2; Q3]) |})
           always_half ["Cypress"] (popup ∅ unchecked_boxes)) in
  allQuestions s' = [] ∧
  console s' = [{| message := "Fetch error for Cypress:"; logged_error := Some RangeError |}] ∧
  textContent (questionText s') = Str guidance.
Proof. vm_compute. repeat split. Qed.

(** After a load handler that threw, nothing listens: the click on the
    checkbox flips it and does nothing else, and the clicks on the
    buttons do nothing. *)
Example failed_load_registers_nothing :
  let '(errs, s) :=
    run engine_limit endpoint_Q1 always_half [Load; Change 1; ShowAnswer; NextQuestion]
      corrupted_popup in
  errs = [SyntaxError] ∧
  checkboxes s = playwright_checked ∧
  localStorage s !! "selectedCategories" = Some (Malformed "{") ∧
  requests s = [] ∧
  elements (classList (answerText s)) = [] ∧ textContent (questionText s) = Str "" ∧
  elements (change_listeners s) = [] ∧ click_listeners s = false.
Proof. vm_compute. repeat split. Qed.

(** C2, as stated, fails: when the request of the one selected category
    is rejected, the cycle ends with an empty pool, the guidance message
    and the next-question button hidden; no question is displayed. *)
Lemma all_categories_fail_no_question :
  let s' := snd (fetchQuestions engine_limit offline always_half ["Cypress"] (popup ∅ unchecked_boxes)) in
  fst (fetchQuestions engine_limit offline always_half ["Cypress"] (popup ∅ unchecked_boxes)) = Normal tt ∧
  allQuestions s' = [] ∧
  textContent (questionText s') = Str guidance ∧
  elements (classList (nextQuestionBtn s')) = ["hidden"] ∧
  length (console s') = 1 ∧
  ¬ ∃ q, q ∈ allQuestions s' ∧ displays s' q.
Proof.
  cbv zeta.
  assert (allQuestions (snd (fetchQuestions engine_limit offline always_half ["Cypress"]
                               (popup ∅ unchecked_boxes))) = []) as Hpool.
  { vm_compute. reflexivity. }
  split; [vm_compute; reflexivity |]. split; [exact Hpool |].
  split; [vm_compute; reflexivity |]. split; [vm_compute; reflexivity |].
  split; [vm_compute; reflexivity |].
  intros (q & Hin & _). rewrite Hpool in Hin. by apply not_elem_of_nil in Hin.
Qed.

(** C9, as stated, fails: with a text under [selectedCategories] that is
    not JSON, the load handler ends with an uncaught [SyntaxError], thrown
    by [JSON.parse] at line 23. *)
Lemma malformed_storage_uncaught :
  fst (run engine_limit endpoint_Q1 always_half [Load] corrupted_popup) = [SyntaxError].
Proof. vm_compute. reflexivity. Qed.

(** A stored number is not an array either: line 31 calls its missing
    [includes]. *)
Example stored_number_uncaught :
  fst (run engine_limit endpoint_Q1 always_half [Load]
         (popup {["selectedCategories" := Encodes (JNum 5)]} unchecked_boxes)) = [TypeError].
Proof. vm_compute. reflexivity. Qed.

(** A [null] among the fetched elements makes line 127 throw. *)
Example null_question_uncaught :
  fst (run engine_limit (fun _ _ => Responds {| status := 200; body := JSONText (JArr [JNull]) |})
         always_half [Load] (popup ∅ unchecked_boxes)) = [TypeError].
Proof. vm_compute. reflexivity. Qed.

(** The example of the specification: Cypress alone, answered with [Q1]. *)
Example load_shows_Q1 :
  let s := snd (DOMContentLoaded engine_limit endpoint_Q1 always_half (popup ∅ unchecked_boxes)) in
  allQuestions s = [Q1] ∧
  textContent (questionText s) = Str "Q1" ∧ textContent (answerText s) = Str "A1" ∧
  elements (classList (showAnswerBtn s)) = [] ∧
  elements (classList (answerText s)) = ["hidden"] ∧
  elements (classList (answerText (snd (showAnswerBtn_click s)))) = [] ∧
  requests s = [request_url "Cypress"].
Proof. vm_compute. repeat split. Qed.

Example encodeURIComponent_space : encodeURIComponent "API Testing" = "API%20Testing".
Proof. reflexivity. Qed.

(** * Further properties of the script *)


(** X1. However [fetchQuestion] ends (prompt, guidance, question shown,
    or an exception while showing the question), the loading spinner is
    hidden afterwards. *)
Theorem fetchQuestion_hides_spinner limit net random (s : state) :
  hidden (loadingSpinner (snd (fetchQuestion limit net random s))).
Proof.
  unfold fetchQuestion, bind, gets.
  destruct (length (selected (checkboxes s)) =? 0).
  - destruct s; simpl. apply hidden_add.
  - destruct (fetchQuestions_outcome limit net random (selected (checkboxes s)) s)
      as (s_ready & -> & _ & _ & _ & Hspin & _).
    by rewrite displayNextQuestion_preserves_loadingSpinner.
Qed.

(** X2. [fetchQuestion] issues exactly one request per checked checkbox,
    in the order of the checkboxes, each to the URL of line 78 for that
    checkbox's value, and none for an unchecked one. *)
Theorem fetchQuestion_requests limit net random (s : state) :
  requests (snd (fetchQuestion limit net random s))
    = requests s ++ (request_url <$> selected (checkboxes s)).
Proof.
  unfold fetchQuestion, bind, gets.
  destruct (selected (checkboxes s)) as [| c cs] eqn:Hsel.
  - destruct s; simpl. by rewrite app_nil_r.
  - change (length (c :: cs) =? 0) with false. cbv iota.
    destruct (fetchQuestions_outcome limit net random (c :: cs) s)
      as (s_ready & -> & Hreq & _).
    by rewrite displayNextQuestion_preserves_requests.
Qed.

Lemma length_logs limit net n categories :
  length (concat (zip_with (log_for limit) categories (outcomes net n categories)))
  = length (List.filter (fun o => negb (pushes limit o)) (outcomes net n categories)).
Proof.
  revert n. induction categories as [| c rest IH]; intros n; [done |].
  cbn [outcomes zip_with concat List.filter]. rewrite length_app, IH.
  pose proof (log_for_skips limit c (net n (request_url c))) as H.
  destruct (pushes limit (net n (request_url c))); simpl.
  - destruct H as [-> _]. done.
  - destruct H as (_ & entry & ->). done.
Qed.

Lemma after_loop_preserves_console random : preserves console (after_loop random).
Proof.
  intros s. destruct (after_loop_outcome random s) as (s_ready & -> & _ & _ & _ & <- & _).
  apply displayNextQuestion_preserves_console.
Qed.

Lemma next_category_preserves_console net random categories :
  preserves console (next_category net random categories).
Proof.
  destruct categories as [| category rest]; intros s.
  - rewrite next_category_end. pose proof (after_loop_preserves_console random s) as H.
    by destruct (after_loop random s) as [[[] | e] s'].
  - rewrite next_category_request. by destruct s.
Qed.

(** X3. Each step of a fetch cycle adds exactly one entry to the console
    when the category it waits for has failed (the request is rejected,
    the status is outside 200-299, the body is not JSON or not an array,
    or the array is too long to spread) and none otherwise.  A cycle
    between whose steps nothing else runs therefore adds one entry per
    request that does not end in a push, and leaves the console as it was
    when every request ends in a push. *)
Theorem fetchQuestions_logs_failures limit net random (c : cycle) categories (s : state) :
  (let s' := snd (fetchQuestions_resume limit net random c s) in
   length (console s') = length (console s) + (if fails limit (awaited c) then 1 else 0)) ∧
  (let os := outcomes net (length (requests s)) categories in
   let s' := snd (alone limit net random (fetchQuestions_start net random categories) s) in
   length (console s')
     = length (console s) + length (List.filter (fun o => negb (pushes limit o)) os) ∧
   (Forall (fun o => pushes limit o = true) os → console s' = console s)).
Proof.
  split.
  - cbv zeta. destruct (fails limit (awaited c)) eqn:Hfails.
    + destruct (fetchQuestions_resume_fails limit net random c s Hfails) as [entry ->].
      rewrite next_category_preserves_console. destruct s; simpl.
      by rewrite length_app.
    + rewrite Nat.add_0_r. f_equal.
      destruct c as [category [[e | r] | r] rest]; cbn [fails awaited] in Hfails; [done | |].
      * apply negb_false_iff in Hfails.
        by rewrite (fetchQuestions_resume_response _ _ _ _ r).
      * destruct (body r) as [| v] eqn:Hbody; [done |].
        destruct v; try done. apply negb_false_iff, Nat.leb_le in Hfails.
        rewrite (fetchQuestions_resume_array _ _ _ _ r items) by done.
        rewrite next_category_preserves_console. by destruct s.
  - cbv zeta. rewrite alone_fetchQuestions.
    destruct (fetchQuestions_outcome limit net random categories s)
      as (s_ready & -> & _ & Hlog & _).
    rewrite displayNextQuestion_preserves_console, Hlog.
    split.
    + by rewrite length_app, length_logs.
    + intros Hall.
      assert (length (concat (zip_with (log_for limit) categories
                (outcomes net (length (requests s)) categories))) = 0) as Hzero.
      { rewrite length_logs. clear Hlog.
        induction Hall as [| o os Ho _ IH]; [done |]. cbn [List.filter]. by rewrite Ho. }
      apply nil_length_inv in Hzero. rewrite Hzero. by rewrite app_nil_r.
Qed.

(** ** Invariants of computations *)

Section Keeps.
Context (P : state → Prop).

Lemma keeps_ret {A} (a : A) : keeps P (ret a).
Proof. by intros s. Qed.

Lemma keeps_throw {A} e : keeps P (@throw A e).
Proof. by intros s. Qed.

Lemma keeps_gets {A} (g : state → A) : keeps P (gets g).
Proof. by intros s. Qed.

Lemma keeps_lift {A} (r : error + A) : keeps P (lift r).
Proof. by destruct r; intros s. Qed.

Lemma keeps_modify g : (∀ s, P s → P (g s)) → keeps P (modify g).
Proof. intros Hg s. apply Hg. Qed.

Lemma keeps_bind {A B} (m : js A) (k : A → js B) :
  keeps P m → (∀ a, keeps P (k a)) → keeps P (bind m k).
Proof.
  intros Hm Hk s Hs. unfold bind. specialize (Hm s Hs).
  destruct (m s) as [[a | e] s1]; simpl in *; [| done].
  by apply Hk.
Qed.

Lemma keeps_forEach callback k cbs :
  (∀ i c, keeps P (callback i c)) → keeps P (forEach callback k cbs).
Proof.
  intros Hcb. revert k. induction cbs as [| c rest IH]; intros k; simpl.
  - apply keeps_ret.
  - apply keeps_bind; [apply Hcb | intros _; apply IH].
Qed.
End Keeps.

Lemma keeps_of_preserves {A X} (f : state → X) (Q : X → Prop) (m : js A) :
  preserves f m → keeps (fun s => Q (f s)) m.
Proof. intros Hm s Hs. by rewrite Hm. Qed.

Lemma displayNextQuestion_keeps_answer_hidden random :
  keeps (fun s => hidden (answerText s)) (displayNextQuestion random).
Proof.
  unfold displayNextQuestion.
  apply keeps_bind; [apply keeps_gets | intros pool].
  assert (∀ g, (∀ s, answerText (g s) = answerText s) →
               keeps (fun s => hidden (answerText s)) (modify g)) as Hsame.
  { intros g Hg. apply keeps_modify. intros s. by rewrite Hg. }
  assert (∀ t, keeps (fun s => hidden (answerText s))
                 (modify (on_answerText (set_textContent t)))) as Htext.
  { intros t. apply keeps_modify. by intros []. }
  assert (keeps (fun s => hidden (answerText s))
            (modify (on_answerText (classList_add "hidden")))) as Hadd.
  { apply keeps_modify. intros [] _. apply hidden_add. }
  destruct (length pool =? 0).
  - repeat (apply keeps_bind; [| intros ?]);
      try apply Hadd; apply Hsame; by intros [].
  - apply keeps_bind; [by intros [] | intros r].
    destruct (pool !! _); [| apply keeps_throw].
    repeat (apply keeps_bind; [| intros ?]);
      try apply keeps_lift; try apply Hadd; try apply Htext; apply Hsame; by intros [].
Qed.

(** What [displayNextQuestion] does when the chosen element is an object
    whose [question] and [answer] are strings. *)
Lemma displayNextQuestion_object random (s : state) fields qs ans :
  allQuestions s !! Math_floor_times (random (drawn s)) (length (allQuestions s))
    = Some (JObj fields) →
  own_property fields "question" = Some (JStr qs) →
  own_property fields "answer" = Some (JStr ans) →
  displayNextQuestion random s =
    (Normal tt,
     on_nextQuestionBtn (classList_remove "hidden")
       (on_showAnswerBtn (classList_remove "hidden")
          (on_answerText (classList_add "hidden")
             (on_answerText (set_textContent (Str ans))
                (on_questionText (set_textContent (Str qs)) (on_drawn S s)))))).
Proof.
  intros Hq Hqs Hans.
  assert ((length (allQuestions s) =? 0) = false) as Hlen.
  { apply Nat.eqb_neq. apply lookup_lt_Some in Hq. lia. }
  unfold displayNextQuestion, bind, gets, Math_random.
  rewrite Hlen, Hq. cbn [member lift ret]. rewrite Hqs. cbn [to_textContent lift ret modify].
  rewrite Hans. reflexivity.
Qed.

(** X4. When the element at index
    [Math.floor(Math.random() * allQuestions.length)] is an object with
    string [question] and [answer], [displayNextQuestion] shows that
    question together with its own answer, hides the answer text, shows the
    reveal and next-question buttons, draws one random number and leaves
    the pool, the storage, the checkboxes, the spinner, the console and the
    request log as they were. *)
Theorem displayNextQuestion_question_with_answer random (s : state) fields qs ans :
  allQuestions s !! Math_floor_times (random (drawn s)) (length (allQuestions s))
    = Some (JObj fields) →
  own_property fields "question" = Some (JStr qs) →
  own_property fields "answer" = Some (JStr ans) →
  let '(result, s') := displayNextQuestion random s in
  result = Normal tt ∧
  textContent (questionText s') = Str qs ∧ textContent (answerText s') = Str ans ∧
  hidden (answerText s') ∧ ¬ hidden (showAnswerBtn s') ∧ ¬ hidden (nextQuestionBtn s') ∧
  drawn s' = S (drawn s) ∧
  allQuestions s' = allQuestions s ∧ localStorage s' = localStorage s ∧
  checkboxes s' = checkboxes s ∧ loadingSpinner s' = loadingSpinner s ∧
  console s' = console s ∧ requests s' = requests s.
Proof.
  intros Hq Hqs Hans.
  rewrite (displayNextQuestion_object random s fields qs ans Hq Hqs Hans).
  destruct s; simpl.
  repeat split; try apply hidden_add; try apply hidden_remove.
Qed.

(** X5. After a question is shown, a click on the reveal button makes the
    answer text visible, still holding the answer of the question that is
    shown; a click on the next-question button then leaves the answer text
    hidden, whatever it goes on to show. *)
Theorem reveal_then_next random random' (s : state) fields qs ans :
  allQuestions s !! Math_floor_times (random (drawn s)) (length (allQuestions s))
    = Some (JObj fields) →
  own_property fields "question" = Some (JStr qs) →
  own_property fields "answer" = Some (JStr ans) →
  let s1 := snd (displayNextQuestion random s) in
  let s2 := snd (showAnswerBtn_click s1) in
  let s3 := snd (nextQuestionBtn_click random' s2) in
  ¬ hidden (answerText s2) ∧
  textContent (answerText s2) = Str ans ∧ textContent (questionText s2) = Str qs ∧
  hidden (answerText s3).
Proof.
  intros Hq Hqs Hans. cbv zeta.
  rewrite (displayNextQuestion_object random s fields qs ans Hq Hqs Hans). cbn [snd].
  split; [| split; [| split]].
  - unfold showAnswerBtn_click, modify. destruct s; simpl.
    intros Hcontra. apply toggle_flips in Hcontra. apply Hcontra, hidden_add.
  - unfold showAnswerBtn_click, modify. destruct s; simpl.
    unfold classList_toggle. by destruct (decide _).
  - unfold showAnswerBtn_click, modify. by destruct s.
  - change (nextQuestionBtn_click random' ?x)
      with (displayNextQuestion random' (on_answerText (classList_add "hidden") x)).
    apply displayNextQuestion_keeps_answer_hidden.
    match goal with |- hidden (answerText (on_answerText _ ?x)) => destruct x end.
    apply hidden_add.
Qed.

(** X6. When the chosen pool element is [null], [displayNextQuestion]
    throws a [TypeError] before it writes anything: apart from the random
    number drawn, the state is what it was. *)
Theorem displayNextQuestion_null random (s : state) :
  allQuestions s !! Math_floor_times (random (drawn s)) (length (allQuestions s))
    = Some JNull →
  displayNextQuestion random s = (Throw TypeError, on_drawn S s).
Proof.
  intros Hq.
  assert ((length (allQuestions s) =? 0) = false) as Hlen.
  { apply Nat.eqb_neq. apply lookup_lt_Some in Hq. lia. }
  unfold displayNextQuestion, bind, gets, Math_random.
  by rewrite Hlen, Hq.
Qed.

(** X7. The elements of a fetched array are not checked: when the chosen
    element is neither [null] nor an object (a number, a string, a boolean,
    an array), [displayNextQuestion] shows an empty question and an empty
    answer, with the reveal and next-question buttons visible. *)
Theorem displayNextQuestion_not_an_object random (s : state) q :
  allQuestions s !! Math_floor_times (random (drawn s)) (length (allQuestions s)) = Some q →
  q ≠ JNull → (∀ fields, q ≠ JObj fields) →
  let '(result, s') := displayNextQuestion random s in
  result = Normal tt ∧
  textContent (questionText s') = Str "" ∧ textContent (answerText s') = Str "" ∧
  hidden (answerText s') ∧ ¬ hidden (showAnswerBtn s') ∧ ¬ hidden (nextQuestionBtn s').
Proof.
  intros Hq Hnull Hobj.
  assert ((length (allQuestions s) =? 0) = false) as Hlen.
  { apply Nat.eqb_neq. apply lookup_lt_Some in Hq. lia. }
  assert (∀ name, member q name = inr None) as Hmember.
  { intros name. destruct q; try done. by destruct (Hobj fields). }
  unfold displayNextQuestion, bind, gets, Math_random.
  rewrite Hlen, Hq, !Hmember. cbn [to_textContent lift ret modify].
  destruct s; simpl.
  repeat split; try apply hidden_add; try apply hidden_remove.
Qed.

(** X8. When the endpoint sends questions only, a fetch cycle ends
    normally in one of two pages, both with the spinner and the answer text
    hidden: the pool is empty, the guidance message is shown and both
    buttons are hidden; or the pool is not empty, one of its questions is
    shown and both buttons are visible. *)
Theorem fetchQuestions_final_page limit net random categories (s : state) :
  sends_questions net →
  let '(result, s') := fetchQuestions limit net random categories s in
  result = Normal tt ∧ hidden (loadingSpinner s') ∧ hidden (answerText s') ∧
  ((allQuestions s' = [] ∧ textContent (questionText s') = Str guidance ∧
    hidden (showAnswerBtn s') ∧ hidden (nextQuestionBtn s')) ∨
   (allQuestions s' ≠ [] ∧ (∃ q, q ∈ allQuestions s' ∧ displays s' q) ∧
    ¬ hidden (showAnswerBtn s') ∧ ¬ hidden (nextQuestionBtn s'))).
Proof.
  intros Hnet.
  destruct (fetchQuestions_outcome limit net random categories s)
    as (s_ready & -> & _ & _ & Hpool & Hspin & _).
  assert (Forall (fun q => is_question q = true) (allQuestions s_ready)) as Hall.
  { rewrite Hpool. unfold fisher_yates. rewrite fisher_yates_from_Permutation.
    by apply Forall_pushed, payload_questions. }
  pose proof (displayNextQuestion_preserves_loadingSpinner random s_ready) as Hkeep.
  destruct (allQuestions s_ready) as [| q0 pool0] eqn:Hready.
  - rewrite (displayNextQuestion_guidance random s_ready Hready) in *.
    simpl in Hkeep. destruct s_ready; simpl in *. subst.
    split; [done |]. split; [done |]. split; [apply hidden_add |].
    left. repeat split; apply hidden_add.
  - destruct (Math_floor_times_lookup (allQuestions s_ready) (random (drawn s_ready)))
      as [q Hq]; [by rewrite Hready |].
    assert (q ∈ allQuestions s_ready) as Hin by (by eapply list_elem_of_lookup_2).
    assert (is_question q = true) as Hquestion.
    { rewrite <- Hready in Hall. by apply (proj1 (Forall_forall _ _) Hall). }
    pose proof (displayNextQuestion_shows random s_ready q Hq Hquestion) as H.
    destruct (displayNextQuestion random s_ready) as [result s']. simpl in Hkeep.
    destruct H as (-> & Hshows & Hhid & Hreveal & Hnext & Hsame & _).
    split; [done |]. split; [by rewrite Hkeep |]. split; [done |].
    right. rewrite Hsame, Hready. split; [done |]. split; [| done].
    exists q. by rewrite <- Hready.
Qed.

(** ** Loading with other stored values *)

(** X9. When the stored text is not JSON, the load handler throws a
    [SyntaxError] after hiding the two buttons and does nothing else: no
    checkbox is set, nothing is stored, no request is issued. *)
Theorem DOMContentLoaded_malformed limit net random (s : state) raw :
  localStorage s !! "selectedCategories" = Some (Malformed raw) →
  DOMContentLoaded limit net random s =
    (Throw SyntaxError,
     on_nextQuestionBtn (classList_add "hidden") (on_showAnswerBtn (classList_add "hidden") s)).
Proof.
  intros Hstored. destruct s; simpl in Hstored.
  unfold DOMContentLoaded, restore_selection, bind, modify, gets. simpl. by rewrite Hstored.
Qed.

(** X10. When the stored value is neither an array nor a string, is truthy
    and has no zero [length] (a non-zero number, [true], an object), and
    there is a checkbox, the load handler throws a [TypeError] at the first
    checkbox, after hiding the two buttons and nothing else. *)
Theorem DOMContentLoaded_not_an_array limit net random (s : state) v :
  localStorage s !! "selectedCategories" = Some (Encodes v) →
  truthy v = true → length_is_zero v = false →
  (∀ items, v ≠ JArr items) → (∀ str, v ≠ JStr str) →
  checkboxes s ≠ [] →
  DOMContentLoaded limit net random s =
    (Throw TypeError,
     on_nextQuestionBtn (classList_add "hidden") (on_showAnswerBtn (classList_add "hidden") s)).
Proof.
  intros Hstored Htruthy Hlength Harr Hstr Hboxes.
  assert (∀ x, includes v x = inl TypeError) as Hincludes.
  { intros x. destruct v; try done; [by destruct (Hstr s0) | by destruct (Harr items)]. }
  destruct s as [st cbs sab nqb qt ans spin pool log reqs d chl cll]. simpl in *.
  destruct cbs as [| c rest]; [done |].
  unfold DOMContentLoaded, restore_selection, bind, modify, gets. simpl. rewrite Hstored. simpl.
  rewrite Htruthy, Hlength. simpl. unfold bind, apply_saved at 1, bind. simpl.
  by rewrite Hincludes.
Qed.

Lemma in_selection_true items x : in_selection items x = true ↔ JStr x ∈ items.
Proof.
  unfold in_selection. rewrite existsb_exists. split.
  - intros (item & Hin & Heq). apply list_elem_of_In in Hin.
    destruct item; try done. apply String.eqb_eq in Heq. by subst.
  - intros Hin. exists (JStr x). split; [by apply list_elem_of_In |]. apply String.eqb_refl.
Qed.

(** X11. When the stored value is a non-empty array, the load handler
    leaves the storage as it is and checks exactly the checkboxes whose
    value is one of the strings of the array; elements that are not
    strings are ignored. *)
Theorem DOMContentLoaded_restores_selection limit net random (s : state) items :
  localStorage s !! "selectedCategories" = Some (Encodes (JArr items)) → items ≠ [] →
  let s' := snd (DOMContentLoaded limit net random s) in
  localStorage s' = localStorage s ∧
  value <$> checkboxes s' = value <$> checkboxes s ∧
  Forall (fun c => checked c = true ↔ JStr (value c) ∈ items) (checkboxes s').
Proof.
  intros Hstored Hne. cbv zeta.
  rewrite (DOMContentLoaded_array limit net random s items Hstored Hne).
  rewrite fetchQuestion_preserves_localStorage, fetchQuestion_preserves_checkboxes.
  destruct s as [st cbs sab nqb qt ans spin pool log reqs d chl cll]; simpl.
  split; [done |]. split.
  - rewrite <- list_fmap_compose. by apply list_fmap_ext.
  - apply Forall_fmap, Forall_forall. intros c _. simpl. apply in_selection_true.
Qed.

Lemma fetchQuestion_prompt limit net random (s : state) :
  selected (checkboxes s) = [] →
  fetchQuestion limit net random s =
    (Normal tt,
     on_loadingSpinner (classList_add "hidden")
       (on_nextQuestionBtn (classList_add "hidden")
          (on_showAnswerBtn (classList_add "hidden")
             (on_answerText (classList_add "hidden")
                (on_questionText (set_textContent (Str select_prompt)) s))))).
Proof. intros Hsel. unfold fetchQuestion, bind, gets. by rewrite Hsel. Qed.

(** X12. A stored non-empty array that names no existing checkbox is not
    replaced by the default: every checkbox ends unchecked, the prompt to
    select a category is shown, no request is issued and the storage is
    left as it is. *)
Theorem DOMContentLoaded_unknown_selection limit net random (s : state) items :
  localStorage s !! "selectedCategories" = Some (Encodes (JArr items)) → items ≠ [] →
  (∀ c, c ∈ checkboxes s → JStr (value c) ∉ items) →
  let '(result, s') := DOMContentLoaded limit net random s in
  result = Normal tt ∧
  textContent (questionText s') = Str "Please select at least one category." ∧
  Forall (fun c => checked c = false) (checkboxes s') ∧
  requests s' = requests s ∧
  localStorage s' = localStorage s.
Proof.
  intros Hstored Hne Hunknown.
  rewrite (DOMContentLoaded_array limit net random s items Hstored Hne).
  assert (Forall (fun c => checked c = false) (mark items <$> checkboxes s)) as Hnone.
  { apply Forall_fmap, Forall_forall. intros c Hc. simpl.
    destruct (in_selection items (value c)) eqn:Hin; [| done].
    apply in_selection_true in Hin. by destruct (Hunknown c Hc). }
  rewrite fetchQuestion_prompt.
  - destruct s; simpl in *. done.
  - destruct s; simpl in *. by apply selected_unchecked.
Qed.

(** ** Changing the selection *)

Lemma saveCategorySelections_run limit net random (s : state) :
  saveCategorySelections limit net random s =
    fetchQuestion limit net random
      (on_localStorage
         (fun store => <["selectedCategories" :=
                           JSON_stringify (JArr (List.map JStr (selected (checkboxes s))))]> store)
         s).
Proof. reflexivity. Qed.

Lemma change_run limit net random (s : state) k c :
  checkboxes s !! k = Some c → k ∈ change_listeners s →
  change limit net random k s =
    saveCategorySelections limit net random
      (on_checkboxes (fun l => <[k := {| value := value c; checked := negb (checked c) |}]> l) s).
Proof.
  intros Hk Hin. unfold change, bind, gets. rewrite Hk.
  unfold modify at 1. cbv beta iota.
  rewrite decide_True; [done | by destruct s].
Qed.

Lemma change_unregistered limit net random (s : state) k c :
  checkboxes s !! k = Some c → k ∉ change_listeners s →
  change limit net random k s =
    (Normal tt,
     on_checkboxes (fun l => <[k := {| value := value c; checked := negb (checked c) |}]> l) s).
Proof.
  intros Hk Hout. unfold change, bind, gets. rewrite Hk.
  unfold modify at 1. cbv beta iota.
  rewrite decide_False; [done | by destruct s].
Qed.

Lemma change_checkboxes limit net random (s : state) k c :
  checkboxes s !! k = Some c →
  checkboxes (snd (change limit net random k s))
    = <[k := {| value := value c; checked := negb (checked c) |}]> (checkboxes s).
Proof.
  intros Hk. destruct (decide (k ∈ change_listeners s)) as [Hin | Hout].
  - rewrite (change_run limit net random s k c Hk Hin), saveCategorySelections_run.
    rewrite fetchQuestion_preserves_checkboxes. by destruct s.
  - rewrite (change_unregistered limit net random s k c Hk Hout). by destruct s.
Qed.

Lemma change_localStorage limit net random (s : state) k c :
  checkboxes s !! k = Some c → k ∈ change_listeners s →
  localStorage (snd (change limit net random k s)) =
    <["selectedCategories" :=
        JSON_stringify (JArr (List.map JStr (selected (checkboxes (snd (change limit net random k s))))))]>
      (localStorage s).
Proof.
  intros Hk Hin. rewrite (change_checkboxes limit net random s k c Hk).
  rewrite (change_run limit net random s k c Hk Hin), saveCategorySelections_run.
  rewrite fetchQuestion_preserves_localStorage. by destruct s.
Qed.

Lemma change_preserves_change_listeners limit net random k :
  preserves change_listeners (change limit net random k).
Proof.
  unfold change. apply preserves_bind; [preserve | intros cbs].
  destruct (cbs !! k); [| preserve].
  apply preserves_bind; [preserve | intros _].
  apply preserves_bind; [preserve | intros listeners].
  destruct (decide _); [| preserve].
  unfold saveCategorySelections.
  apply preserves_bind; [preserve | intros sel].
  apply preserves_bind; [unfold localStorage_setItem; preserve | intros _].
  apply fetchQuestion_preserves_change_listeners.
Qed.

(** The load handler registers the [change] listener on every checkbox
    when it gets through [forEach], and on none when it throws. *)

Lemma includes_total saved :
  (∀ x, ∃ b, includes saved x = inr b) ∨ (∀ x, includes saved x = inl TypeError).
Proof. destruct saved; simpl; eauto. Qed.

Lemma forEach_registers saved k cbs (s : state) :
  (∀ x, ∃ b, includes saved x = inr b) →
  ∃ s', forEach (apply_saved saved) k cbs s = (Normal tt, s') ∧
        change_listeners s' = list_to_set (seq k (length cbs)) ∪ change_listeners s.
Proof.
  intros Htotal. revert k s. induction cbs as [| c rest IH]; intros k s.
  - exists s. split; [done |]. simpl. set_solver.
  - destruct (Htotal (value c)) as [b Hb].
    cbn [forEach]. unfold bind at 1, apply_saved at 1. rewrite Hb. cbn [lift].
    unfold bind at 1, ret. unfold bind at 1, modify at 1. unfold modify at 1.
    destruct (IH (S k)
                (on_change_listeners (fun listeners => {[k]} ∪ listeners)
                   (on_checkboxes (fun l => <[k := {| value := value c; checked := b |}]> l) s)))
      as (s' & Hrun & Hlisteners).
    exists s'. split; [exact Hrun |]. rewrite Hlisteners. destruct s; simpl. set_solver.
Qed.

Lemma restore_selection_listeners (s : state) :
  let '(result, s') := restore_selection s in
  match result with
  | Normal _ =>
      change_listeners s' = list_to_set (seq 0 (length (checkboxes s))) ∪ change_listeners s
  | Throw _ => change_listeners s' = change_listeners s
  end.
Proof.
  unfold restore_selection.
  assert (∀ saved (s0 : state),
            change_listeners s0 = change_listeners s →
            let '(result, s') := forEach (apply_saved saved) 0 (checkboxes s) s0 in
            match result with
            | Normal _ =>
                change_listeners s'
                = list_to_set (seq 0 (length (checkboxes s))) ∪ change_listeners s
            | Throw _ => change_listeners s' = change_listeners s
            end) as Hloop.
  { intros saved s0 Hls. destruct (includes_total saved) as [Htotal | Hthrows].
    - destruct (forEach_registers saved 0 (checkboxes s) s0 Htotal) as (s' & -> & ->).
      by rewrite Hls.
    - destruct (checkboxes s) as [| c rest] eqn:Hboxes.
      + simpl. rewrite Hls. set_solver.
      + cbn [forEach]. unfold bind at 1, apply_saved at 1. rewrite Hthrows. simpl. done. }
  unfold bind, modify, gets.
  destruct (JSON_parse _) as [e | parsed] eqn:Hparse; simpl.
  { by destruct s. }
  destruct (negb (truthy parsed) || length_is_zero parsed); simpl.
  - unfold localStorage_setItem, bind, modify. simpl.
    replace (checkboxes _) with (checkboxes s) by (by destruct s).
    apply (Hloop (JArr [JStr "Cypress"])); by destruct s.
  - replace (checkboxes _) with (checkboxes s) by (by destruct s).
    apply (Hloop parsed); by destruct s.
Qed.

(** X13. A click on an existing checkbox flips that checkbox and no
    other.  When line 32 has registered the listener on it, the array of
    the values of the checkboxes that are checked afterwards is stored
    under [selectedCategories], whatever the fetch that follows does.
    When it has not (the load handler threw before it got there), nothing
    else happens: the storage, the request log, the pool, the console and
    the page are as they were. *)
Theorem change_stores_selection limit net random (s : state) k c :
  checkboxes s !! k = Some c →
  let s' := snd (change limit net random k s) in
  checkboxes s' = <[k := {| value := value c; checked := negb (checked c) |}]> (checkboxes s) ∧
  (k ∈ change_listeners s →
   localStorage s' =
     <["selectedCategories" := JSON_stringify (JArr (List.map JStr (selected (checkboxes s'))))]>
       (localStorage s)) ∧
  (k ∉ change_listeners s →
   change limit net random k s =
     (Normal tt,
      on_checkboxes (fun l => <[k := {| value := value c; checked := negb (checked c) |}]> l) s)).
Proof.
  intros Hk. split; [by apply change_checkboxes |]. split.
  - intros Hin. by apply (change_localStorage limit net random s k c).
  - intros Hout. by apply change_unregistered.
Qed.

(** X14. Two clicks on the same checkbox give back the checkboxes as they
    were.  When line 32 has registered the listener on the checkbox, they
    leave in storage the selection that was checked before the first
    click; when it has not, they leave the storage as it was. *)
Theorem change_twice limit net random limit' net' random' (s : state) k c :
  checkboxes s !! k = Some c →
  let s2 := snd (change limit' net' random' k (snd (change limit net random k s))) in
  checkboxes s2 = checkboxes s ∧
  (k ∈ change_listeners s →
   localStorage s2 !! "selectedCategories"
     = Some (JSON_stringify (JArr (List.map JStr (selected (checkboxes s)))))) ∧
  (k ∉ change_listeners s → localStorage s2 = localStorage s).
Proof.
  intros Hk. cbv zeta.
  pose proof (change_checkboxes limit net random s k c Hk) as Hcb1.
  pose proof (change_preserves_change_listeners limit net random k s) as Hls1.
  set (s1 := snd (change limit net random k s)) in *.
  assert (checkboxes s1 !! k = Some {| value := value c; checked := negb (checked c) |}) as Hk1.
  { rewrite Hcb1. apply list_lookup_insert_eq. by apply lookup_lt_Some in Hk. }
  pose proof (change_checkboxes limit' net' random' s1 k _ Hk1) as Hcb2.
  assert (checkboxes (snd (change limit' net' random' k s1)) = checkboxes s) as Hback.
  { rewrite Hcb2, Hcb1. simpl. rewrite list_insert_insert_eq, negb_involutive.
    apply list_insert_id. rewrite Hk. by destruct c. }
  split; [done |]. split.
  - intros Hin.
    assert (k ∈ change_listeners s1) as Hin1 by (by rewrite Hls1).
    rewrite (change_localStorage limit' net' random' s1 k _ Hk1 Hin1), Hback.
    apply lookup_insert_eq.
  - intros Hout.
    assert (k ∉ change_listeners s1) as Hout1 by (by rewrite Hls1).
    rewrite (change_unregistered limit' net' random' s1 k _ Hk1 Hout1). simpl.
    subst s1. rewrite (change_unregistered limit net random s k c Hk Hout). by destruct s.
Qed.

Lemma selected_elem cbs v :
  v ∈ selected cbs ↔ ∃ c, c ∈ cbs ∧ checked c = true ∧ value c = v.
Proof.
  unfold selected. rewrite list_elem_of_In, in_map_iff. split.
  - intros (c & Hv & Hc). apply filter_In in Hc as [Hc Hchecked].
    exists c. by rewrite list_elem_of_In.
  - intros (c & Hc & Hchecked & Hv). exists c. split; [done |].
    apply filter_In. by rewrite <- list_elem_of_In.
Qed.

Lemma elem_of_map_JStr (l : list string) x : JStr x ∈ List.map JStr l ↔ x ∈ l.
Proof.
  rewrite !list_elem_of_In, in_map_iff. split.
  - intros (y & Heq & Hy). by injection Heq as ->.
  - intros Hx. by exists x.
Qed.

(** X15. Saving and loading round-trip: when the checkbox values are
    pairwise distinct and at least one checkbox is checked, a popup with
    the same checkbox values that loads the storage written by
    [saveCategorySelections] ends with exactly the checked states that were
    saved. *)
Theorem save_then_load limit net random limit' net' random' (s s_new : state) :
  selected (checkboxes s) ≠ [] →
  NoDup (value <$> checkboxes s) →
  value <$> checkboxes s_new = value <$> checkboxes s →
  localStorage s_new = localStorage (snd (saveCategorySelections limit net random s)) →
  checkboxes (snd (DOMContentLoaded limit' net' random' s_new)) = checkboxes s.
Proof.
  intros Hsel Hnodup Hvalues Hstore.
  set (items := List.map JStr (selected (checkboxes s))).
  assert (localStorage s_new !! "selectedCategories" = Some (Encodes (JArr items))) as Hstored.
  { rewrite Hstore, saveCategorySelections_run, fetchQuestion_preserves_localStorage.
    destruct s; simpl. apply lookup_insert_eq. }
  assert (items ≠ []) as Hne.
  { subst items. destruct (selected (checkboxes s)); [done | by simpl]. }
  rewrite (DOMContentLoaded_array limit' net' random' s_new items Hstored Hne).
  rewrite fetchQuestion_preserves_checkboxes.
  replace (checkboxes (listening (length (checkboxes s_new))
             (on_checkboxes (fun _ => mark items <$> checkboxes s_new)
                (on_nextQuestionBtn (classList_add "hidden")
                   (on_showAnswerBtn (classList_add "hidden") s_new)))))
    with (mark items <$> checkboxes s_new) by (by destruct s_new).
  apply list_eq. intros i. rewrite list_lookup_fmap.
  assert ((value <$> checkboxes s_new) !! i = (value <$> checkboxes s) !! i) as Hi
    by (by rewrite Hvalues).
  rewrite !list_lookup_fmap in Hi.
  destruct (checkboxes s_new !! i) as [cn |] eqn:Hcn;
    destruct (checkboxes s !! i) as [c |] eqn:Hc; simpl in *; try done.
  injection Hi as Hval. f_equal. unfold mark. rewrite Hval.
  destruct c as [v b]; simpl in *. f_equal.
  destruct (in_selection items v) eqn:Hin.
  - apply in_selection_true, elem_of_map_JStr, selected_elem in Hin
      as (c' & Hc' & Hchecked & Hv).
    apply list_elem_of_lookup in Hc' as [j Hj].
    assert (j = i) as ->.
    { eapply (NoDup_lookup _ j i v Hnodup); rewrite list_lookup_fmap.
      - by rewrite Hj; simpl; rewrite Hv.
      - by rewrite Hc. }
    rewrite Hc in Hj. injection Hj as <-. by simpl in Hchecked.
  - destruct b; [| done].
    assert (in_selection items v = true) as Hyes; [| congruence].
    apply in_selection_true, elem_of_map_JStr, selected_elem.
    exists {| value := v; checked := true |}. split; [| done].
    by eapply list_elem_of_lookup_2.
Qed.

(** ** Invariants of every run *)

Lemma preserves_forEach {X} (f : state → X) callback k cbs :
  (∀ i c, preserves f (callback i c)) → preserves f (forEach callback k cbs).
Proof.
  intros Hcb. revert k. induction cbs as [| c rest IH]; intros k; simpl.
  - apply preserves_ret.
  - apply preserves_bind; [apply Hcb | intros _; apply IH].
Qed.

Lemma preserves_compose {A X Y} (f : state → X) (g : X → Y) (m : js A) :
  preserves f m → preserves (fun s => g (f s)) m.
Proof. intros Hm s. by rewrite Hm. Qed.

Lemma run_preserves {X} (f : state → X) limit net random :
  (∀ ev, preserves f (handle limit net random ev)) →
  ∀ evs s, f (snd (run limit net random evs s)) = f s.
Proof.
  intros Hev evs. induction evs as [| ev rest IH]; intros s; [done |].
  cbn [run]. specialize (Hev ev s).
  destruct (handle limit net random ev s) as [[[] | e] s1]; simpl in Hev.
  - by rewrite IH.
  - specialize (IH s1). destruct (run limit net random rest s1) as [errs s2]. simpl in *. congruence.
Qed.

Lemma run_keeps (P : state → Prop) limit net random :
  (∀ ev, keeps P (handle limit net random ev)) →
  ∀ evs s, P s → P (snd (run limit net random evs s)).
Proof.
  intros Hev evs. induction evs as [| ev rest IH]; intros s Hs; [done |].
  cbn [run]. specialize (Hev ev s Hs).
  destruct (handle limit net random ev s) as [[[] | e] s1]; simpl in Hev.
  - by apply IH.
  - specialize (IH s1 Hev). by destruct (run limit net random rest s1) as [errs s2].
Qed.

Lemma setItem_preserves_other key0 text :
  key0 ≠ "selectedCategories" →
  preserves (fun s => localStorage s !! key0) (localStorage_setItem "selectedCategories" text).
Proof. intros Hkey0 s. destruct s; simpl. by apply lookup_insert_ne. Qed.

Lemma fetchQuestion_preserves_other key0 limit net random :
  preserves (fun s => localStorage s !! key0) (fetchQuestion limit net random).
Proof.
  apply (preserves_compose localStorage (fun store => store !! key0)).
  apply fetchQuestion_preserves_localStorage.
Qed.

Lemma restore_selection_preserves_other key0 :
  key0 ≠ "selectedCategories" →
  preserves (fun s => localStorage s !! key0) restore_selection.
Proof.
  intros Hkey0. unfold restore_selection.
  apply preserves_bind; [preserve | intros _].
  apply preserves_bind; [preserve | intros _].
  apply preserves_bind; [preserve | intros item].
  apply preserves_bind; [preserve | intros parsed].
  apply preserves_bind.
  { destruct (_ || _); [| preserve].
    apply preserves_bind; [by apply setItem_preserves_other | intros _; preserve]. }
  intros saved. apply preserves_bind; [preserve | intros cbs].
  apply preserves_forEach. intros i c. unfold apply_saved. preserve.
Qed.

Lemma handle_preserves_other key0 limit net random ev :
  key0 ≠ "selectedCategories" →
  preserves (fun s => localStorage s !! key0) (handle limit net random ev).
Proof.
  intros Hkey0. destruct ev as [| k | |]; simpl.
  - apply preserves_bind; [unfold script_start; preserve | intros _].
    unfold DOMContentLoaded.
    apply preserves_bind; [by apply restore_selection_preserves_other | intros _].
    apply preserves_bind; [preserve | intros _].
    apply fetchQuestion_preserves_other.
  - unfold change. apply preserves_bind; [preserve | intros cbs].
    destruct (cbs !! k); [| preserve].
    apply preserves_bind; [preserve | intros _].
    apply preserves_bind; [preserve | intros listeners].
    destruct (decide _); [| preserve].
    unfold saveCategorySelections.
    apply preserves_bind; [preserve | intros sel].
    apply preserves_bind; [by apply setItem_preserves_other | intros _].
    apply fetchQuestion_preserves_other.
  - unfold click. apply preserves_bind; [preserve | intros registered].
    destruct registered; [| preserve]. unfold showAnswerBtn_click. preserve.
  - unfold click. apply preserves_bind; [preserve | intros registered].
    destruct registered; [| preserve].
    unfold nextQuestionBtn_click. apply preserves_bind; [preserve | intros _].
    apply (preserves_compose localStorage (fun store => store !! key0)).
    apply displayNextQuestion_preserves_localStorage.
Qed.

(** X16. No sequence of events changes any storage key other than
    [selectedCategories]. *)
Theorem run_writes_one_key key0 limit net random evs (s : state) :
  key0 ≠ "selectedCategories" →
  localStorage (snd (run limit net random evs s)) !! key0 = localStorage s !! key0.
Proof.
  intros Hkey0. apply (run_preserves (fun s0 => localStorage s0 !! key0)).
  intros ev. by apply handle_preserves_other.
Qed.

Lemma payload_delivered net n categories :
  Forall (delivered net) (concat (payload <$> outcomes net n categories)).
Proof.
  revert n. induction categories as [| c rest IH]; intros n; [constructor |].
  cbn [outcomes]. rewrite fmap_cons. cbn [concat]. apply Forall_app. split; [| apply IH].
  apply Forall_forall. intros q Hq. by exists n, c.
Qed.

Lemma fetchQuestion_keeps_delivered limit net random :
  keeps (fun s => Forall (delivered net) (allQuestions s)) (fetchQuestion limit net random).
Proof.
  intros s Hs. unfold fetchQuestion, bind, gets.
  destruct (length (selected (checkboxes s)) =? 0).
  - by destruct s.
  - destruct (fetchQuestions_outcome limit net random (selected (checkboxes s)) s)
      as (s_ready & -> & _ & _ & Hpool & _).
    rewrite displayNextQuestion_preserves_allQuestions, Hpool.
    unfold fisher_yates. rewrite fisher_yates_from_Permutation. apply Forall_pushed, payload_delivered.
Qed.

Lemma handle_keeps_delivered limit net random ev :
  keeps (fun s => Forall (delivered net) (allQuestions s)) (handle limit net random ev).
Proof.
  pose (P := fun s => Forall (delivered net) (allQuestions s)).
  assert (∀ A (m : js A), preserves allQuestions m → keeps P m) as Hpool.
  { intros A m Hm. by apply (keeps_of_preserves allQuestions (Forall (delivered net))). }
  destruct ev as [| k | |]; simpl; fold P.
  - apply keeps_bind.
    { unfold script_start.
      apply keeps_bind; [apply Hpool; preserve | intros _].
      apply keeps_bind; [apply Hpool; preserve | intros _].
      apply keeps_modify. intros s _. destruct s; unfold P; simpl. constructor. }
    intros _. unfold DOMContentLoaded.
    apply keeps_bind.
    { apply Hpool. unfold restore_selection.
      apply preserves_bind; [preserve | intros _].
      apply preserves_bind; [preserve | intros _].
      apply preserves_bind; [preserve | intros item].
      apply preserves_bind; [preserve | intros parsed].
      apply preserves_bind.
      { destruct (_ || _); [| preserve]. unfold localStorage_setItem. preserve. }
      intros saved. apply preserves_bind; [preserve | intros cbs].
      apply preserves_forEach. intros i c. unfold apply_saved. preserve. }
    intros _. apply keeps_bind; [apply Hpool; preserve | intros _].
    apply fetchQuestion_keeps_delivered.
  - unfold change. apply keeps_bind; [apply Hpool; preserve | intros cbs].
    destruct (cbs !! k); [| apply keeps_ret].
    apply keeps_bind; [apply Hpool; preserve | intros _].
    apply keeps_bind; [apply Hpool; preserve | intros listeners].
    destruct (decide _); [| apply keeps_ret].
    unfold saveCategorySelections.
    apply keeps_bind; [apply Hpool; preserve | intros sel].
    apply keeps_bind; [apply Hpool; unfold localStorage_setItem; preserve | intros _].
    apply fetchQuestion_keeps_delivered.
  - apply Hpool. unfold click. apply preserves_bind; [preserve | intros registered].
    destruct registered; [| preserve]. unfold showAnswerBtn_click. preserve.
  - apply Hpool. unfold click. apply preserves_bind; [preserve | intros registered].
    destruct registered; [| preserve]. unfold nextQuestionBtn_click.
    apply preserves_bind; [preserve | intros _].
    apply displayNextQuestion_preserves_allQuestions.
Qed.

(** X17. Over any sequence of events, with any outcomes of the requests
    and also when handlers throw, every element of the pool is an element
    of an array the endpoint delivered for some category. *)
Theorem run_pool_is_delivered limit net random evs (s : state) :
  Forall (delivered net) (allQuestions s) →
  Forall (delivered net) (allQuestions (snd (run limit net random evs s))).
Proof.
  apply (run_keeps (fun s => Forall (delivered net) (allQuestions s))).
  apply handle_keeps_delivered.
Qed.

(** The checkboxes keep their values. *)

Lemma insert_same_value (l : list checkbox) k c b :
  (value <$> l) !! k = Some (value c) →
  value <$> <[k := {| value := value c; checked := b |}]> l = value <$> l.
Proof. intros Hk. rewrite list_fmap_insert. simpl. by apply list_insert_id. Qed.

Lemma forEach_keeps_values saved vals k rest :
  (∀ i c, rest !! i = Some c → vals !! (k + i) = Some (value c)) →
  keeps (fun s => value <$> checkboxes s = vals) (forEach (apply_saved saved) k rest).
Proof.
  revert k. induction rest as [| c rest IH]; intros k Hrest; simpl.
  - apply keeps_ret.
  - apply keeps_bind.
    + unfold apply_saved. apply keeps_bind; [apply keeps_lift | intros b].
      apply keeps_modify. intros s Hs. destruct s; simpl in *. subst vals.
      apply insert_same_value. specialize (Hrest 0 c eq_refl).
      by rewrite Nat.add_0_r in Hrest.
    + intros _. apply IH. intros i c' Hi. specialize (Hrest (S i) c' Hi).
      by replace (S k + i) with (k + S i) by lia.
Qed.

Lemma keeps_gets_bind {A B} (P : state → Prop) (g : state → A) (k : A → js B) :
  (∀ s, P s → P (snd (k (g s) s))) → keeps P (bind (gets g) k).
Proof. intros Hk s Hs. unfold bind, gets. by apply Hk. Qed.

Lemma fetchQuestion_keeps_values limit net random vals :
  keeps (fun s => value <$> checkboxes s = vals) (fetchQuestion limit net random).
Proof. intros s Hs. by rewrite fetchQuestion_preserves_checkboxes. Qed.

Lemma handle_keeps_values limit net random vals ev :
  keeps (fun s => value <$> checkboxes s = vals) (handle limit net random ev).
Proof.
  pose (P := fun s => value <$> checkboxes s = vals).
  assert (∀ A (m : js A), preserves checkboxes m → keeps P m) as Hsame.
  { intros A m Hm. by apply (keeps_of_preserves checkboxes (fun l => value <$> l = vals)). }
  destruct ev as [| k | |]; simpl; fold P.
  - apply keeps_bind; [apply Hsame; unfold script_start; preserve | intros _].
    unfold DOMContentLoaded.
    apply keeps_bind.
    { unfold restore_selection.
      apply keeps_bind; [apply Hsame; preserve | intros _].
      apply keeps_bind; [apply Hsame; preserve | intros _].
      apply keeps_bind; [apply Hsame; preserve | intros item].
      apply keeps_bind; [apply Hsame; preserve | intros parsed].
      apply keeps_bind.
      { apply Hsame. destruct (_ || _); [| preserve]. unfold localStorage_setItem. preserve. }
      intros saved. apply keeps_gets_bind. intros s Hs.
      apply forEach_keeps_values; [| done]. intros i c Hi. unfold P in Hs. subst vals.
      rewrite list_lookup_fmap. simpl. by rewrite Hi. }
    intros _. apply keeps_bind; [apply Hsame; preserve | intros _].
    apply fetchQuestion_keeps_values.
  - unfold change. apply keeps_gets_bind. intros s Hs.
    destruct (checkboxes s !! k) as [c |] eqn:Hk; [| done].
    apply (keeps_bind P); [| intros _ | done].
    + apply keeps_modify. intros s0 Hs0. destruct s0; simpl in *. unfold P in *.
      rewrite <- Hs0. apply insert_same_value.
      rewrite Hs0, <- Hs, list_lookup_fmap. by rewrite Hk.
    + apply keeps_bind; [apply Hsame; preserve | intros listeners].
      destruct (decide _); [| apply keeps_ret].
      unfold saveCategorySelections.
      apply keeps_bind; [apply Hsame; preserve | intros sel].
      apply keeps_bind; [apply Hsame; unfold localStorage_setItem; preserve | intros _].
      apply fetchQuestion_keeps_values.
  - apply Hsame. unfold click. apply preserves_bind; [preserve | intros registered].
    destruct registered; [| preserve]. unfold showAnswerBtn_click. preserve.
  - apply Hsame. unfold click. apply preserves_bind; [preserve | intros registered].
    destruct registered; [| preserve]. unfold nextQuestionBtn_click.
    apply preserves_bind; [preserve | intros _].
    apply displayNextQuestion_preserves_checkboxes.
Qed.

(** X18. No sequence of events changes the number, the order or the
    values of the category checkboxes; only their checked states change. *)
Theorem run_keeps_categories limit net random evs (s : state) :
  value <$> checkboxes (snd (run limit net random evs s)) = value <$> checkboxes s.
Proof.
  apply (run_keeps (fun s0 => value <$> checkboxes s0 = value <$> checkboxes s)); [| done].
  apply handle_keeps_values.
Qed.

(** ** Events and fetch cycles interleaved *)

(** *** Handlers and the cycles they start *)

Lemma alone_bind {A} limit net random (m : js A) (k : A → js (option cycle)) (s : state) :
  alone limit net random (bind m k) s = bind m (fun a => alone limit net random (k a)) s.
Proof. unfold alone. apply bind_bind. Qed.

Lemma alone_idle limit net random (m : js unit) (s : state) :
  alone limit net random (m ;; ret None) s = m s.
Proof.
  unfold alone. rewrite bind_bind. unfold bind.
  by destruct (m s) as [[[] | e] s'].
Qed.

Lemma bind_gets {A B} (f : state → A) (k : A → js B) (s : state) :
  bind (gets f) k s = k (f s) s.
Proof. reflexivity. Qed.

Lemma bind_modify {A} (f : state → state) (k : unit → js A) (s : state) :
  bind (modify f) k s = k tt (f s).
Proof. reflexivity. Qed.

Lemma bind_ext {A B} (m : js A) (k1 k2 : A → js B) (s : state) :
  (∀ a s', k1 a s' = k2 a s') → bind m k1 s = bind m k2 s.
Proof. intros Hk. unfold bind. destruct (m s) as [[a | e] s']; [apply Hk | done]. Qed.

Lemma fetchQuestion_alone limit net random (s : state) :
  alone limit net random (fetchQuestion_start net random) s = fetchQuestion limit net random s.
Proof.
  unfold fetchQuestion_start, fetchQuestion. rewrite alone_bind, !bind_gets.
  destruct (length (selected (checkboxes s)) =? 0).
  - reflexivity.
  - apply alone_fetchQuestions.
Qed.

Lemma saveCategorySelections_alone limit net random (s : state) :
  alone limit net random (saveCategorySelections_start net random) s
  = saveCategorySelections limit net random s.
Proof.
  unfold saveCategorySelections_start, saveCategorySelections, localStorage_setItem.
  rewrite alone_bind, !bind_gets, alone_bind, !bind_modify.
  apply fetchQuestion_alone.
Qed.

Lemma change_alone limit net random k (s : state) :
  alone limit net random (change_start net random k) s = change limit net random k s.
Proof.
  unfold change_start, change. rewrite alone_bind, !bind_gets.
  destruct (checkboxes s !! k) as [c |]; [| reflexivity].
  rewrite alone_bind, !bind_modify, alone_bind, !bind_gets.
  destruct (decide _); [apply saveCategorySelections_alone | reflexivity].
Qed.

Lemma DOMContentLoaded_alone limit net random (s : state) :
  alone limit net random (DOMContentLoaded_start net random) s
  = DOMContentLoaded limit net random s.
Proof.
  unfold DOMContentLoaded_start, DOMContentLoaded. rewrite alone_bind.
  apply bind_ext. intros _ s1. rewrite alone_bind, !bind_modify.
  apply fetchQuestion_alone.
Qed.

(** The handler of [handle] is the handler of [handle_start] together
    with the cycle it starts. *)
Lemma handle_alone limit net random ev (s : state) :
  alone limit net random (handle_start net random ev) s = handle limit net random ev s.
Proof.
  destruct ev as [| k | |]; cbn [handle_start handle].
  - rewrite alone_bind. apply bind_ext. intros _ s1. apply DOMContentLoaded_alone.
  - apply change_alone.
  - apply alone_idle.
  - apply alone_idle.
Qed.

(** *** What every interleaving keeps *)

Lemma yields_bind {A B} (R : B → Prop) (m : js A) (k : A → js B) :
  (∀ a, yields R (k a)) → yields R (bind m k).
Proof.
  intros Hk s. unfold bind. destruct (m s) as [[a | e] s']; [apply Hk | done].
Qed.

Lemma yields_ret {A} (R : A → Prop) (a : A) : R a → yields R (ret a).
Proof. by intros Ha s. Qed.

Lemma next_category_yields net random categories :
  yields (pending_from_net net) (next_category net random categories).
Proof.
  destruct categories as [| category rest]; intros s.
  - rewrite next_category_end. by destruct (after_loop random s) as [[[] | e] s'].
  - rewrite next_category_request. by exists (length (requests s)).
Qed.

Lemma fetchQuestions_resume_yields limit net random c :
  from_net net c → yields (pending_from_net net) (fetchQuestions_resume limit net random c).
Proof.
  intros [n Hn] s. destruct (awaited c) as [o | r] eqn:Hc.
  - destruct (fails limit (FetchPromise o)) eqn:Hfails.
    + rewrite (fetchQuestions_resume_skip _ _ _ _ o) by done. apply next_category_yields.
    + destruct o as [e | r]; [done |]. cbn [fails] in Hfails. apply negb_false_iff in Hfails.
      rewrite (fetchQuestions_resume_response _ _ _ _ r) by done.
      exists n. cbn [awaited current]. by rewrite <- Hn.
  - destruct Hn as [Hn Hok].
    rewrite (fetchQuestions_resume_json _ _ _ _ r) by done. apply next_category_yields.
Qed.

Lemma fetchQuestion_start_yields net random :
  yields (pending_from_net net) (fetchQuestion_start net random).
Proof.
  unfold fetchQuestion_start. apply yields_bind. intros sel.
  destruct (length sel =? 0).
  - do 5 (apply yields_bind; intros _). by apply yields_ret.
  - unfold fetchQuestions_start. do 4 (apply yields_bind; intros _).
    apply next_category_yields.
Qed.

Lemma handle_start_yields net random ev :
  yields (pending_from_net net) (handle_start net random ev).
Proof.
  destruct ev as [| k | |]; cbn [handle_start].
  - apply yields_bind. intros _. unfold DOMContentLoaded_start.
    do 2 (apply yields_bind; intros _). apply fetchQuestion_start_yields.
  - unfold change_start. apply yields_bind. intros cbs.
    destruct (cbs !! k); [| by apply yields_ret].
    apply yields_bind. intros _. apply yields_bind. intros listeners.
    destruct (decide _); [| by apply yields_ret].
    unfold saveCategorySelections_start. do 2 (apply yields_bind; intros ?).
    apply fetchQuestion_start_yields.
  - apply yields_bind. intros _. by apply yields_ret.
  - apply yields_bind. intros _. by apply yields_ret.
Qed.

Section Pool.
Context (limit : nat) (net : nat → string → fetch_outcome) (random : nat → random_number).
Context (Q : json → Prop) (HQ : ∀ q, delivered net q → Q q).

Lemma preserves_pool_keeps {A} (m : js A) : preserves allQuestions m → keeps (pool_holds Q) m.
Proof. intros Hm. by apply (keeps_of_preserves allQuestions (Forall Q)). Qed.

Lemma after_loop_keeps_pool : keeps (pool_holds Q) (after_loop random).
Proof.
  intros s Hs. pose proof (after_loop_page random s) as H.
  destruct (after_loop random s) as [result s']. destruct H as (_ & Hperm & _).
  unfold pool_holds. simpl. by rewrite Hperm.
Qed.

Lemma next_category_keeps_pool categories : keeps (pool_holds Q) (next_category net random categories).
Proof.
  destruct categories as [| category rest]; intros s Hs.
  - rewrite next_category_end. pose proof (after_loop_keeps_pool s Hs) as H.
    by destruct (after_loop random s) as [[[] | e] s'].
  - rewrite next_category_request. by destruct s.
Qed.

Lemma pushed_delivered n category : Forall Q (pushed limit (net n (request_url category))).
Proof.
  unfold pushed. destruct (length _ <=? limit); [| constructor].
  apply Forall_forall. intros q Hq. apply HQ. by exists n, category.
Qed.

Lemma fetchQuestions_resume_keeps_pool c :
  from_net net c → keeps (pool_holds Q) (fetchQuestions_resume limit net random c).
Proof.
  intros [n Hn] s Hs. destruct (awaited c) as [o | r] eqn:Hc.
  - destruct (fails limit (FetchPromise o)) eqn:Hfails.
    + rewrite (fetchQuestions_resume_skip _ _ _ _ o) by done.
      apply next_category_keeps_pool. destruct s; unfold pool_holds; simpl in *.
      apply Forall_app. split; [done |]. rewrite Hn. apply pushed_delivered.
    + destruct o as [e | r]; [done |]. cbn [fails] in Hfails. apply negb_false_iff in Hfails.
      by rewrite (fetchQuestions_resume_response _ _ _ _ r).
  - destruct Hn as [Hn Hok].
    rewrite (fetchQuestions_resume_json _ _ _ _ r) by done.
    apply next_category_keeps_pool. destruct s; unfold pool_holds; simpl in *.
    apply Forall_app. split; [done |]. rewrite <- Hn. apply pushed_delivered.
Qed.

Lemma fetchQuestion_start_keeps_pool : keeps (pool_holds Q) (fetchQuestion_start net random).
Proof.
  unfold fetchQuestion_start. apply keeps_bind; [apply keeps_gets | intros sel].
  destruct (length sel =? 0).
  - apply preserves_pool_keeps. preserve.
  - unfold fetchQuestions_start.
    apply keeps_bind; [| intros _].
    { apply keeps_modify. intros s _. destruct s; unfold pool_holds; simpl. constructor. }
    apply keeps_bind; [apply preserves_pool_keeps; unfold toggleLoading; preserve | intros _].
    apply keeps_bind; [apply preserves_pool_keeps; preserve | intros _].
    apply keeps_bind; [apply preserves_pool_keeps; preserve | intros _].
    apply next_category_keeps_pool.
Qed.

Lemma restore_selection_preserves_allQuestions : preserves allQuestions restore_selection.
Proof.
  unfold restore_selection.
  apply preserves_bind; [preserve | intros _].
  apply preserves_bind; [preserve | intros _].
  apply preserves_bind; [preserve | intros item].
  apply preserves_bind; [preserve | intros parsed].
  apply preserves_bind.
  { destruct (_ || _); [| preserve]. unfold localStorage_setItem. preserve. }
  intros saved. apply preserves_bind; [preserve | intros cbs].
  apply preserves_forEach. intros i c. unfold apply_saved. preserve.
Qed.

Lemma handle_start_keeps_pool ev : keeps (pool_holds Q) (handle_start net random ev).
Proof.
  destruct ev as [| k | |]; cbn [handle_start].
  - apply keeps_bind.
    { unfold script_start.
      apply keeps_bind; [apply preserves_pool_keeps; preserve | intros _].
      apply keeps_bind; [apply preserves_pool_keeps; preserve | intros _].
      apply keeps_modify. intros s _. destruct s; unfold pool_holds; simpl. constructor. }
    intros _. unfold DOMContentLoaded_start.
    apply keeps_bind;
      [apply preserves_pool_keeps, restore_selection_preserves_allQuestions | intros _].
    apply keeps_bind; [apply preserves_pool_keeps; preserve | intros _].
    apply fetchQuestion_start_keeps_pool.
  - unfold change_start. apply keeps_bind; [apply keeps_gets | intros cbs].
    destruct (cbs !! k); [| apply keeps_ret].
    apply keeps_bind; [apply preserves_pool_keeps; preserve | intros _].
    apply keeps_bind; [apply keeps_gets | intros listeners].
    destruct (decide _); [| apply keeps_ret].
    unfold saveCategorySelections_start.
    apply keeps_bind; [apply keeps_gets | intros sel].
    apply keeps_bind;
      [apply preserves_pool_keeps; unfold localStorage_setItem; preserve | intros _].
    apply fetchQuestion_start_keeps_pool.
  - apply preserves_pool_keeps. unfold click.
    apply preserves_bind; [| intros _; preserve].
    apply preserves_bind; [preserve | intros registered].
    destruct registered; [| preserve]. unfold showAnswerBtn_click. preserve.
  - apply preserves_pool_keeps. unfold click.
    apply preserves_bind; [| intros _; preserve].
    apply preserves_bind; [preserve | intros registered].
    destruct registered; [| preserve]. unfold nextQuestionBtn_click.
    apply preserves_bind; [preserve | intros _].
    apply displayNextQuestion_preserves_allQuestions.
Qed.

Lemma turn_keeps_pool a cycles (s : state) :
  Forall (pending_from_net net) cycles → pool_holds Q s →
  let '(e, cycles', s') := turn limit net random a cycles s in
  Forall (pending_from_net net) cycles' ∧ pool_holds Q s'.
Proof.
  intros Hcycles Hs. destruct a as [ev | i]; cbn [turn].
  - pose proof (handle_start_yields net random ev s) as Hc.
    pose proof (handle_start_keeps_pool ev s Hs) as Hs'.
    assert (Forall (pending_from_net net) match ev with Load => [] | _ => cycles end) as Hbefore.
    { by destruct ev. }
    destruct (handle_start net random ev s) as [[[c |] | e] s']; simpl in *.
    + split; [| done]. apply Forall_app. split; [done |]. by constructor.
    + done.
    + done.
  - destruct (cycles !! i) as [[c |] |] eqn:Hi; [| done | done].
    assert (from_net net c) as Hc.
    { by apply (Forall_lookup_1 _ _ _ _ Hcycles Hi). }
    pose proof (fetchQuestions_resume_yields limit net random c Hc s) as Hc'.
    pose proof (fetchQuestions_resume_keeps_pool c Hc s Hs) as Hs'.
    destruct (fetchQuestions_resume limit net random c s) as [[c' | e] s']; simpl in *.
    + split; [| done]. by apply Forall_insert.
    + split; [| done]. by apply Forall_insert.
Qed.

Lemma interleave_keeps_pool turns cycles (s : state) :
  Forall (pending_from_net net) cycles → pool_holds Q s →
  let '(errs, cycles', s') := interleave limit net random turns cycles s in
  Forall (pending_from_net net) cycles' ∧ pool_holds Q s'.
Proof.
  revert cycles s. induction turns as [| a rest IH]; intros cycles s Hcycles Hs; [done |].
  cbn [interleave]. pose proof (turn_keeps_pool a cycles s Hcycles Hs) as H.
  destruct (turn limit net random a cycles s) as [[e cycles1] s1]. destruct H as [Hcycles1 Hs1].
  specialize (IH cycles1 s1 Hcycles1 Hs1).
  by destruct (interleave limit net random rest cycles1 s1) as [[errs cycles2] s2].
Qed.
End Pool.

Lemma delivered_question net q : sends_questions net → delivered net q → is_question q = true.
Proof.
  intros Hnet (n & category & Hq). unfold payload in Hq.
  destruct (net n (request_url category)) as [e | r] eqn:Ho; [by apply elem_of_nil in Hq |].
  destruct (ok r) eqn:Hok; [| by apply elem_of_nil in Hq].
  destruct (body r) as [| v] eqn:Hbody; [by apply elem_of_nil in Hq |].
  destruct v; try by apply elem_of_nil in Hq.
  by apply (proj1 (Forall_forall _ _) (Hnet n _ r items Ho Hok Hbody)).
Qed.

Lemma after_loop_preserves_localStorage random : preserves localStorage (after_loop random).
Proof.
  intros s. destruct (after_loop_outcome random s) as (s_ready & -> & _ & _ & _ & _ & <- & _).
  apply displayNextQuestion_preserves_localStorage.
Qed.

Lemma next_category_preserves_localStorage net random categories :
  preserves localStorage (next_category net random categories).
Proof.
  destruct categories as [| category rest]; intros s.
  - rewrite next_category_end. pose proof (after_loop_preserves_localStorage random s) as H.
    by destruct (after_loop random s) as [[[] | e] s'].
  - rewrite next_category_request. by destruct s.
Qed.

Lemma fetchQuestions_resume_preserves_localStorage limit net random c :
  preserves localStorage (fetchQuestions_resume limit net random c).
Proof.
  unfold fetchQuestions_resume. destruct (awaited c) as [[e | r] | r].
  - apply preserves_bind; [unfold log_fetch_error, console_error; preserve | intros _].
    apply next_category_preserves_localStorage.
  - destruct (negb (ok r)); [| preserve].
    apply preserves_bind; [unfold log_status, console_error; preserve | intros _].
    apply next_category_preserves_localStorage.
  - apply preserves_bind; [| intros _; apply next_category_preserves_localStorage].
    apply preserves_try_catch.
    + unfold response_json, collect, push_spread, console_error. preserve.
    + intros e. unfold log_fetch_error, console_error. preserve.
Qed.

Lemma next_category_normal net random categories (s : state) :
  Forall (fun q => is_question q = true) (allQuestions s) →
  ∃ c, fst (next_category net random categories s) = Normal c.
Proof.
  intros Hall. destruct categories as [| category rest].
  - rewrite next_category_end. pose proof (after_loop_page random s) as H.
    destruct (after_loop random s) as [[[] | e] s']; [by eexists |].
    destruct H as (_ & _ & Hempty & Hshown).
    destruct (decide (allQuestions s = [])) as [Hnil | Hne].
    + by destruct (Hempty Hnil).
    + by destruct (Hshown Hne Hall).
  - rewrite next_category_request. by eexists.
Qed.

Lemma fetchQuestions_resume_normal limit net random c (s : state) :
  sends_questions net → from_net net c →
  Forall (fun q => is_question q = true) (allQuestions s) →
  ∃ c', fst (fetchQuestions_resume limit net random c s) = Normal c'.
Proof.
  intros Hnet [n Hn] Hall.
  assert (∀ category, Forall (fun q => is_question q = true)
                        (pushed limit (net n (request_url category)))) as Hpushed.
  { intros category. apply (pushed_delivered limit net). intros q. by apply delivered_question. }
  destruct (awaited c) as [o | r] eqn:Hc.
  - destruct (fails limit (FetchPromise o)) eqn:Hfails.
    + rewrite (fetchQuestions_resume_skip _ _ _ _ o) by done.
      apply next_category_normal. destruct s; simpl in *.
      apply Forall_app. split; [done |]. rewrite Hn. apply Hpushed.
    + destruct o as [e | r]; [done |]. cbn [fails] in Hfails. apply negb_false_iff in Hfails.
      rewrite (fetchQuestions_resume_response _ _ _ _ r) by done. by eexists.
  - destruct Hn as [Hn Hok].
    rewrite (fetchQuestions_resume_json _ _ _ _ r) by done.
    apply next_category_normal. destruct s; simpl in *.
    apply Forall_app. split; [done |]. rewrite <- Hn. apply Hpushed.
Qed.

Lemma fetchQuestion_start_well_formed net random (s : state) :
  well_formed s →
  let '(result, s') := fetchQuestion_start net random s in
  (∃ c, result = Normal c) ∧ well_formed s'.
Proof.
  intros Hs. unfold fetchQuestion_start. rewrite bind_gets.
  destruct (selected (checkboxes s)) as [| category rest] eqn:Hsel.
  - cbn [length Nat.eqb]. split; [by eexists |].
    apply (well_formed_same s); [by destruct s | by destruct s | done].
  - cbn [length Nat.eqb]. rewrite fetchQuestions_start_run, next_category_request.
    split; [by eexists |]. destruct Hs as [Hstored _]. split; [| by destruct s].
    unfold stored_selection_ok in *. by destruct s.
Qed.

Lemma DOMContentLoaded_start_well_formed net random (s : state) :
  well_formed s →
  let '(result, s') := DOMContentLoaded_start net random s in
  (∃ c, result = Normal c) ∧ well_formed s'.
Proof.
  intros [Hstored Hall]. unfold DOMContentLoaded_start, bind at 1.
  destruct Hstored as [Hnone | [items Hitems]].
  - rewrite restore_selection_default by (by left). rewrite bind_modify.
    apply fetchQuestion_start_well_formed.
    split; [| by destruct s]. right. exists [JStr "Cypress"]. destruct s; simpl.
    apply lookup_insert_eq.
  - destruct (decide (items = [])) as [-> | Hne].
    + rewrite restore_selection_default by (by right). rewrite bind_modify.
      apply fetchQuestion_start_well_formed.
      split; [| by destruct s]. right. exists [JStr "Cypress"]. destruct s; simpl.
      apply lookup_insert_eq.
    + rewrite (restore_selection_array s items) by done. rewrite bind_modify.
      apply fetchQuestion_start_well_formed.
      split; [| by destruct s]. right. exists items. by destruct s.
Qed.

Lemma handle_start_well_formed net random ev (s : state) :
  sends_questions net → well_formed s →
  let '(result, s') := handle_start net random ev s in
  (∃ c, result = Normal c) ∧ well_formed s'.
Proof.
  intros Hnet Hs. destruct ev as [| k | |]; cbn [handle_start].
  - change ((script_start ;; DOMContentLoaded_start net random) s)
      with (DOMContentLoaded_start net random
              (on_allQuestions (fun _ => [])
                 (on_click_listeners (fun _ => false)
                    (on_change_listeners (fun _ => ∅) s)))).
    apply DOMContentLoaded_start_well_formed.
    destruct Hs as [Hstored _]. split; [| by destruct s].
    unfold stored_selection_ok in *. by destruct s.
  - unfold change_start. rewrite bind_gets.
    destruct (checkboxes s !! k) as [c |]; [| split; [by eexists | done]].
    rewrite bind_modify, bind_gets.
    destruct (decide _) as [Hin | Hout].
    + unfold saveCategorySelections_start, localStorage_setItem.
      rewrite bind_gets, bind_modify.
      apply fetchQuestion_start_well_formed.
      destruct Hs as [_ Hall]. split; [| by destruct s]. apply stored_selection_ok_insert.
    + split; [by eexists |]. apply (well_formed_same s); [by destruct s | by destruct s | done].
  - unfold click. rewrite bind_bind, bind_gets.
    destruct (click_listeners s); (split; [by eexists |]);
      apply (well_formed_same s); by (done || destruct s).
  - unfold click. rewrite bind_bind, bind_gets.
    destruct (click_listeners s).
    + change (bind (nextQuestionBtn_click random) (fun _ => ret None) s)
        with (bind (displayNextQuestion random) (fun _ => ret (@None cycle))
                (on_answerText (classList_add "hidden") s)).
      pose proof (displayNextQuestion_keeps_well_formed random
                    (on_answerText (classList_add "hidden") s)) as H.
      unfold bind.
      destruct (displayNextQuestion random (on_answerText (classList_add "hidden") s))
        as [result s'].
      destruct H as [-> Hs'].
      { apply (well_formed_same s); by (done || destruct s). }
      split; [by eexists | done].
    + split; [by eexists | done].
Qed.

Lemma turn_well_formed limit net random a cycles (s : state) :
  sends_questions net →
  Forall (pending_from_net net) cycles → well_formed s →
  let '(e, cycles', s') := turn limit net random a cycles s in
  e = None ∧ Forall (pending_from_net net) cycles' ∧ well_formed s'.
Proof.
  intros Hnet Hcycles Hs.
  pose proof (turn_keeps_pool limit net random (fun q => is_question q = true)
                (fun q => delivered_question net q Hnet) a cycles s Hcycles (proj2 Hs)) as Hpool.
  destruct a as [ev | i]; cbn [turn] in *.
  - pose proof (handle_start_well_formed net random ev s Hnet Hs) as H.
    destruct (handle_start net random ev s) as [[[c |] | e] s'];
      destruct H as [[c' Hc'] Hs']; try done.
    + by destruct Hpool.
    + by destruct Hpool.
  - destruct (cycles !! i) as [[c |] |] eqn:Hi; [| done | done].
    assert (from_net net c) as Hc.
    { by apply (Forall_lookup_1 _ _ _ _ Hcycles Hi). }
    destruct (fetchQuestions_resume_normal limit net random c s Hnet Hc (proj2 Hs)) as [c' Hc'].
    pose proof (fetchQuestions_resume_preserves_localStorage limit net random c s) as Hstore.
    destruct (fetchQuestions_resume limit net random c s) as [[c'' | e] s']; [| done].
    destruct Hpool as [Hcycles' Hall]. simpl in Hstore.
    split; [done |]. split; [done |]. split; [| done].
    destruct Hs as [Hstored _]. unfold stored_selection_ok in *. by rewrite Hstore.
Qed.

(** X22. Also when events and the steps of any number of pending fetch
    cycles are interleaved in any order, no handler and no step of a cycle
    ends with an uncaught exception, provided the stored selection is
    absent or a JSON array, the pool holds questions only and every array
    the endpoint delivers holds questions only; and these provisos hold
    again afterwards. *)
Theorem interleave_without_uncaught_exception limit net random turns (s : state) :
  sends_questions net → well_formed s →
  let '(errs, cycles, s') := interleave limit net random turns [] s in
  errs = [] ∧ well_formed s'.
Proof.
  intros Hnet.
  assert (∀ cycles s0, Forall (pending_from_net net) cycles → well_formed s0 →
            let '(errs, cycles', s') := interleave limit net random turns cycles s0 in
            errs = [] ∧ well_formed s') as Hgen.
  { induction turns as [| a rest IH]; intros cycles s0 Hcycles Hs0; [done |].
    cbn [interleave].
    pose proof (turn_well_formed limit net random a cycles s0 Hnet Hcycles Hs0) as H.
    destruct (turn limit net random a cycles s0) as [[e cycles1] s1].
    destruct H as (-> & Hcycles1 & Hs1).
    specialize (IH cycles1 s1 Hcycles1 Hs1).
    by destruct (interleave limit net random rest cycles1 s1) as [[errs cycles2] s2]. }
  intros Hs. by apply Hgen.
Qed.

(** X23. Also when events and the steps of any number of pending fetch
    cycles are interleaved in any order, with any outcomes of the requests
    and also when handlers throw, every element of the pool is an element
    of an array the endpoint delivered for some category: overlapping
    cycles mix their arrays in the pool, but nothing else gets into it. *)
Theorem interleave_pool_is_delivered limit net random turns (s : state) :
  Forall (delivered net) (allQuestions s) →
  let '(errs, cycles, s') := interleave limit net random turns [] s in
  Forall (delivered net) (allQuestions s').
Proof.
  intros Hs.
  pose proof (interleave_keeps_pool limit net random (delivered net) (fun q Hq => Hq)
                turns [] s (Forall_nil_2 _) Hs) as H.
  destruct (interleave limit net random turns [] s) as [[errs cycles] s']. by destruct H.
Qed.

(** ** The request URL *)

Lemma hex_value_digit n : n < 16 → hex_value (hex_digit n) = n.
Proof.
  intros Hn. do 16 (destruct n as [| n]; [reflexivity |]). lia.
Qed.

Lemma hex_digit_unreserved n : n < 16 → unreserved (hex_digit n) = true.
Proof.
  intros Hn. do 16 (destruct n as [| n]; [reflexivity |]). lia.
Qed.

Lemma nat_of_ascii_lt a : nat_of_ascii a < 256.
Proof. destruct a as [[] [] [] [] [] [] [] []]; vm_compute; lia. Qed.

Lemma percent_encode_inj a b : percent_encode a = percent_encode b → a = b.
Proof.
  unfold percent_encode. cbv zeta.
  pose proof (nat_of_ascii_lt a) as Ha. pose proof (nat_of_ascii_lt b) as Hb.
  pose proof (Nat.div_mod_eq (nat_of_ascii a) 16) as Hda.
  pose proof (Nat.div_mod_eq (nat_of_ascii b) 16) as Hdb.
  assert (nat_of_ascii a / 16 < 16) as Ha1 by (apply Nat.Div0.div_lt_upper_bound; lia).
  assert (nat_of_ascii b / 16 < 16) as Hb1 by (apply Nat.Div0.div_lt_upper_bound; lia).
  assert (nat_of_ascii a mod 16 < 16) as Ha2 by (apply Nat.mod_upper_bound; lia).
  assert (nat_of_ascii b mod 16 < 16) as Hb2 by (apply Nat.mod_upper_bound; lia).
  set (qa := nat_of_ascii a / 16) in *. set (ra := nat_of_ascii a mod 16) in *.
  set (qb := nat_of_ascii b / 16) in *. set (rb := nat_of_ascii b mod 16) in *.
  clearbody qa ra qb rb.
  intros H. injection H as Hhi Hlo.
  apply (f_equal hex_value) in Hhi, Hlo. rewrite !hex_value_digit in Hhi, Hlo by done.
  assert (nat_of_ascii a = nat_of_ascii b) as Heq by lia.
  rewrite <- (ascii_nat_embedding a), <- (ascii_nat_embedding b). by rewrite Heq.
Qed.

Lemma percent_encode_shape a :
  ∃ h1 h2, percent_encode a = String "%"%char (String h1 (String h2 EmptyString)).
Proof. by eexists _, _. Qed.

Lemma encodeURIComponent_inj s1 s2 :
  encodeURIComponent s1 = encodeURIComponent s2 → s1 = s2.
Proof.
  revert s2. induction s1 as [| a s1 IH]; intros [| b s2] H; cbn [encodeURIComponent] in H.
  - done.
  - destruct (percent_encode_shape b) as (h1 & h2 & Eb). rewrite Eb in H.
    destruct (unreserved b); discriminate.
  - destruct (percent_encode_shape a) as (h1 & h2 & Ea). rewrite Ea in H.
    destruct (unreserved a); discriminate.
  - destruct (percent_encode_shape a) as (ha1 & ha2 & Ea).
    destruct (percent_encode_shape b) as (hb1 & hb2 & Eb).
    assert (percent_encode a = percent_encode b → a = b) as Hinj
      by apply percent_encode_inj.
    rewrite Ea, Eb in H, Hinj.
    destruct (unreserved a) eqn:Ha, (unreserved b) eqn:Hb; simpl in H.
    + injection H as -> H. by rewrite (IH s2 H).
    + injection H as -> _. discriminate.
    + injection H as <- _. discriminate.
    + injection H as -> -> H. rewrite (IH s2 H). f_equal. by apply Hinj.
Qed.

Lemma append_inj_r p s1 s2 : p +:+ s1 = p +:+ s2 → s1 = s2.
Proof. induction p as [| a p IH]; simpl; intros H; [done |]. injection H as H. by apply IH. Qed.

Lemma percent_encode_digits a :
  ∃ h1 h2, percent_encode a = String "%"%char (String h1 (String h2 EmptyString)) ∧
           unreserved h1 = true ∧ unreserved h2 = true.
Proof.
  pose proof (nat_of_ascii_lt a) as Hlt.
  exists (hex_digit (nat_of_ascii a / 16)), (hex_digit (nat_of_ascii a mod 16)).
  split; [done |]. split; apply hex_digit_unreserved.
  - apply Nat.Div0.div_lt_upper_bound; lia.
  - apply Nat.mod_upper_bound; lia.
Qed.

Lemma encodeURIComponent_chars s i a :
  String.get i (encodeURIComponent s) = Some a → unreserved a = true ∨ a = "%"%char.
Proof.
  revert i a. induction s as [| b s IH]; intros i a Hi; cbn [encodeURIComponent] in Hi.
  - by destruct i.
  - destruct (percent_encode_digits b) as (h1 & h2 & Eb & Hh1 & Hh2). rewrite Eb in Hi.
    destruct (unreserved b) eqn:Hb; simpl in Hi.
    + destruct i as [| i]; [| by apply (IH i)]. left. by injection Hi as <-.
    + destruct i as [| [| [| i]]]; simpl in Hi.
      * right. by injection Hi as <-.
      * left. by injection Hi as <-.
      * left. by injection Hi as <-.
      * by apply (IH i).
Qed.

(** X19. The request URL of line 78: different categories give different
    URLs; what follows [?category=] consists of unreserved characters and
    percent signs only, so a category cannot end or add a query parameter;
    and a category made of unreserved characters is passed unchanged. *)
Theorem request_url_injective_and_safe :
  (∀ c1 c2, request_url c1 = request_url c2 → c1 = c2) ∧
  (∀ c, ∃ query, request_url c = APPS_SCRIPT_URL +:+ "?category=" +:+ query ∧
        ∀ i a, String.get i query = Some a → unreserved a = true ∨ a = "%"%char) ∧
  (∀ c, (∀ i a, String.get i c = Some a → unreserved a = true) → encodeURIComponent c = c).
Proof.
  split; [| split].
  - intros c1 c2 H. unfold request_url in H.
    apply encodeURIComponent_inj. by do 2 apply append_inj_r in H.
  - intros c. exists (encodeURIComponent c). split; [done |]. apply encodeURIComponent_chars.
  - intros c. induction c as [| a c IH]; intros Hc; [done |]. simpl.
    rewrite (Hc 0 a eq_refl). simpl. f_equal. apply IH.
    intros i b Hi. by apply (Hc (S i)).
Qed.

(** ** The lifetime of the pool *)

Lemma after_loop_empty random (s : state) :
  allQuestions s = [] → allQuestions (snd (after_loop random s)) = [].
Proof.
  intros Hpool. destruct (after_loop_outcome random s) as (s_ready & -> & Hready & _).
  rewrite displayNextQuestion_preserves_allQuestions, Hready. by rewrite Hpool.
Qed.

(** X20. The start of a fetch cycle, up to its first [await], leaves the
    pool empty whatever it held, also what a cycle that is still pending
    has pushed.  A cycle between whose steps nothing else runs therefore
    ends with a pool that does not depend on the pool, the page or the
    storage it starts from: two states with as many requests issued and
    as many random numbers drawn end with the same pool. *)
Theorem fetchQuestions_replaces_pool limit net random categories (s1 s2 : state) :
  allQuestions (snd (fetchQuestions_start net random categories s1)) = [] ∧
  (length (requests s1) = length (requests s2) → drawn s1 = drawn s2 →
   allQuestions (snd (alone limit net random (fetchQuestions_start net random categories) s1))
   = allQuestions (snd (alone limit net random (fetchQuestions_start net random categories) s2))).
Proof.
  split.
  - rewrite fetchQuestions_start_run. destruct categories as [| category rest].
    + rewrite next_category_end.
      pose proof (after_loop_empty random (cleared s1)) as H.
      destruct (after_loop random (cleared s1)) as [[[] | e] s']; apply H; by destruct s1.
    + rewrite next_category_request. by destruct s1.
  - intros Hrequests Hdrawn. rewrite !alone_fetchQuestions.
    destruct (fetchQuestions_outcome limit net random categories s1)
      as (r1 & -> & _ & _ & Hpool1 & _).
    destruct (fetchQuestions_outcome limit net random categories s2)
      as (r2 & -> & _ & _ & Hpool2 & _).
    rewrite !displayNextQuestion_preserves_allQuestions, Hpool1, Hpool2.
    by rewrite Hrequests, Hdrawn.
Qed.

(** X21. With no category selected, [fetchQuestion] does not clear the
    pool: the pool, the storage, the checkboxes, the console, the request
    log and the text of the answer are left as they were, while the
    controls that would show from the pool are hidden. *)
Theorem fetchQuestion_empty_selection_frame limit net random (s : state) :
  selected (checkboxes s) = [] →
  let s' := snd (fetchQuestion limit net random s) in
  allQuestions s' = allQuestions s ∧ localStorage s' = localStorage s ∧
  checkboxes s' = checkboxes s ∧ console s' = console s ∧
  requests s' = requests s ∧ drawn s' = drawn s ∧
  textContent (answerText s') = textContent (answerText s) ∧
  hidden (showAnswerBtn s') ∧ hidden (nextQuestionBtn s').
Proof.
  intros Hsel. cbv zeta. rewrite (fetchQuestion_prompt limit net random s Hsel).
  destruct s; simpl. repeat split; apply hidden_add.
Qed.

(** ** Further concrete runs *)

Lemma localStorage_popup store cbs : localStorage (popup store cbs) = store.
Proof. reflexivity. Qed.

Lemma displayNextQuestion_question_with_answer_witness :
  allQuestions (with_pool [Q1])
    !! Math_floor_times (always_half (drawn (with_pool [Q1]))) (length (allQuestions (with_pool [Q1])))
    = Some (JObj [("question", JStr "Q1"); ("answer", JStr "A1")]) ∧
  textContent (answerText (snd (displayNextQuestion always_half (with_pool [Q1])))) = Str "A1".
Proof.
  split; [reflexivity |].
  pose proof (displayNextQuestion_question_with_answer always_half (with_pool [Q1])
                [("question", JStr "Q1"); ("answer", JStr "A1")] "Q1" "A1"
                eq_refl eq_refl eq_refl) as H.
  destruct (displayNextQuestion always_half (with_pool [Q1])) as [result s'].
  destruct H as (_ & _ & Hanswer & _). exact Hanswer.
Defined.

Lemma reveal_then_next_witness :
  allQuestions (with_pool [Q1])
    !! Math_floor_times (always_half (drawn (with_pool [Q1]))) (length (allQuestions (with_pool [Q1])))
    = Some (JObj [("question", JStr "Q1"); ("answer", JStr "A1")]) ∧
  textContent
    (answerText (snd (showAnswerBtn_click (snd (displayNextQuestion always_half (with_pool [Q1]))))))
    = Str "A1".
Proof.
  split; [reflexivity |].
  apply (reveal_then_next always_half always_half (with_pool [Q1])
           [("question", JStr "Q1"); ("answer", JStr "A1")] "Q1" "A1" eq_refl eq_refl eq_refl).
Defined.

Lemma displayNextQuestion_null_witness :
  allQuestions (with_pool [JNull])
    !! Math_floor_times (always_half (drawn (with_pool [JNull])))
         (length (allQuestions (with_pool [JNull])))
    = Some JNull ∧
  fst (displayNextQuestion always_half (with_pool [JNull])) = Throw TypeError.
Proof.
  split; [reflexivity |].
  by rewrite (displayNextQuestion_null always_half (with_pool [JNull]) eq_refl).
Defined.

Lemma displayNextQuestion_not_an_object_witness :
  allQuestions (with_pool [JStr "Q1"])
    !! Math_floor_times (always_half (drawn (with_pool [JStr "Q1"])))
         (length (allQuestions (with_pool [JStr "Q1"])))
    = Some (JStr "Q1") ∧
  JStr "Q1" ≠ JNull ∧ (∀ fields, JStr "Q1" ≠ JObj fields) ∧
  textContent (questionText (snd (displayNextQuestion always_half (with_pool [JStr "Q1"]))))
    = Str "".
Proof.
  assert (JStr "Q1" ≠ JNull) as Hnull by discriminate.
  assert (∀ fields, JStr "Q1" ≠ JObj fields) as Hobject by (intros fields; discriminate).
  split; [reflexivity |]. split; [exact Hnull |]. split; [exact Hobject |].
  pose proof (displayNextQuestion_not_an_object always_half (with_pool [JStr "Q1"]) (JStr "Q1")
                eq_refl Hnull Hobject) as H.
  destruct (displayNextQuestion always_half (with_pool [JStr "Q1"])) as [result s'].
  destruct H as (_ & Hquestion & _). exact Hquestion.
Defined.

Lemma fetchQuestions_final_page_witness :
  sends_questions endpoint_Q1 ∧
  fst (fetchQuestions engine_limit endpoint_Q1 always_half ["Cypress"] (popup ∅ unchecked_boxes)) = Normal tt.
Proof.
  split; [exact endpoint_Q1_sends_questions |].
  pose proof (fetchQuestions_final_page engine_limit endpoint_Q1 always_half ["Cypress"]
                (popup ∅ unchecked_boxes) endpoint_Q1_sends_questions) as H.
  destruct (fetchQuestions engine_limit endpoint_Q1 always_half ["Cypress"] (popup ∅ unchecked_boxes))
    as [result s'].
  destruct H as (Hresult & _). exact Hresult.
Defined.

Lemma DOMContentLoaded_malformed_witness :
  localStorage corrupted_popup !! "selectedCategories" = Some (Malformed "{") ∧
  fst (DOMContentLoaded engine_limit endpoint_Q1 always_half corrupted_popup) = Throw SyntaxError.
Proof.
  split; [reflexivity |].
  by rewrite (DOMContentLoaded_malformed engine_limit endpoint_Q1 always_half corrupted_popup "{" eq_refl).
Defined.

Lemma DOMContentLoaded_not_an_array_witness :
  localStorage (popup {["selectedCategories" := Encodes (JBool true)]} unchecked_boxes)
    !! "selectedCategories" = Some (Encodes (JBool true)) ∧
  truthy (JBool true) = true ∧ length_is_zero (JBool true) = false ∧
  (∀ items, JBool true ≠ JArr items) ∧ (∀ str, JBool true ≠ JStr str) ∧
  checkboxes (popup {["selectedCategories" := Encodes (JBool true)]} unchecked_boxes) ≠ [] ∧
  fst (DOMContentLoaded engine_limit endpoint_Q1 always_half
         (popup {["selectedCategories" := Encodes (JBool true)]} unchecked_boxes))
    = Throw TypeError.
Proof.
  assert (localStorage (popup {["selectedCategories" := Encodes (JBool true)]} unchecked_boxes)
            !! "selectedCategories" = Some (Encodes (JBool true))) as Hstored by reflexivity.
  assert (∀ items, JBool true ≠ JArr items) as Harray by (intros items; discriminate).
  assert (∀ str, JBool true ≠ JStr str) as Hstring by (intros str; discriminate).
  assert (checkboxes (popup {["selectedCategories" := Encodes (JBool true)]} unchecked_boxes) ≠ [])
    as Hboxes by discriminate.
  do 3 (split; [reflexivity |]).
  split; [exact Harray |]. split; [exact Hstring |]. split; [exact Hboxes |].
  by rewrite (DOMContentLoaded_not_an_array engine_limit endpoint_Q1 always_half
                (popup {["selectedCategories" := Encodes (JBool true)]} unchecked_boxes)
                (JBool true) Hstored eq_refl eq_refl Harray Hstring Hboxes).
Defined.

Lemma DOMContentLoaded_restores_selection_witness :
  localStorage (popup {["selectedCategories" := Encodes (JArr [JStr "Playwright"])]} unchecked_boxes)
    !! "selectedCategories" = Some (Encodes (JArr [JStr "Playwright"])) ∧
  [JStr "Playwright"] ≠ [] ∧
  value <$> checkboxes
    (snd (DOMContentLoaded engine_limit endpoint_Q1 always_half
            (popup {["selectedCategories" := Encodes (JArr [JStr "Playwright"])]} unchecked_boxes)))
    = ["Cypress"; "Playwright"].
Proof.
  assert ([JStr "Playwright"] ≠ []) as Hne by discriminate.
  assert (localStorage
            (popup {["selectedCategories" := Encodes (JArr [JStr "Playwright"])]} unchecked_boxes)
            !! "selectedCategories" = Some (Encodes (JArr [JStr "Playwright"]))) as Hstored
    by reflexivity.
  split; [exact Hstored |]. split; [exact Hne |].
  apply (DOMContentLoaded_restores_selection engine_limit endpoint_Q1 always_half
           (popup {["selectedCategories" := Encodes (JArr [JStr "Playwright"])]} unchecked_boxes)
           [JStr "Playwright"] Hstored Hne).
Defined.

Lemma DOMContentLoaded_unknown_selection_witness :
  localStorage (popup {["selectedCategories" := Encodes (JArr [JStr "Selenium"])]} unchecked_boxes)
    !! "selectedCategories" = Some (Encodes (JArr [JStr "Selenium"])) ∧
  [JStr "Selenium"] ≠ [] ∧
  (∀ c, c ∈ checkboxes
              (popup {["selectedCategories" := Encodes (JArr [JStr "Selenium"])]} unchecked_boxes) →
        JStr (value c) ∉ [JStr "Selenium"]) ∧
  fst (DOMContentLoaded engine_limit endpoint_Q1 always_half
         (popup {["selectedCategories" := Encodes (JArr [JStr "Selenium"])]} unchecked_boxes))
    = Normal tt.
Proof.
  assert ([JStr "Selenium"] ≠ []) as Hne by discriminate.
  assert (∀ c, c ∈ checkboxes
                     (popup {["selectedCategories" := Encodes (JArr [JStr "Selenium"])]}
                        unchecked_boxes) →
               JStr (value c) ∉ [JStr "Selenium"]) as Hunknown.
  { intros c Hc Hin. apply list_elem_of_In in Hc. apply list_elem_of_In in Hin.
    simpl in Hc, Hin. destruct Hin as [Hin | []].
    destruct Hc as [<- | [<- | []]]; discriminate. }
  assert (localStorage
            (popup {["selectedCategories" := Encodes (JArr [JStr "Selenium"])]} unchecked_boxes)
            !! "selectedCategories" = Some (Encodes (JArr [JStr "Selenium"]))) as Hstored
    by reflexivity.
  split; [exact Hstored |]. split; [exact Hne |]. split; [exact Hunknown |].
  pose proof (DOMContentLoaded_unknown_selection engine_limit endpoint_Q1 always_half
                (popup {["selectedCategories" := Encodes (JArr [JStr "Selenium"])]} unchecked_boxes)
                [JStr "Selenium"] Hstored Hne Hunknown) as H.
  destruct (DOMContentLoaded engine_limit endpoint_Q1 always_half
              (popup {["selectedCategories" := Encodes (JArr [JStr "Selenium"])]} unchecked_boxes))
    as [result s'].
  destruct H as (Hresult & _). exact Hresult.
Defined.

Lemma change_stores_selection_witness :
  checkboxes loaded_popup !! 1 = Some {| value := "Playwright"; checked := false |} ∧
  1 ∈ change_listeners loaded_popup ∧
  checkboxes (snd (change engine_limit endpoint_Q1 always_half 1 loaded_popup))
    = [{| value := "Cypress"; checked := true |}; {| value := "Playwright"; checked := true |}] ∧
  localStorage (snd (change engine_limit endpoint_Q1 always_half 1 loaded_popup))
    !! "selectedCategories"
    = Some (JSON_stringify (JArr [JStr "Cypress"; JStr "Playwright"])).
Proof.
  assert (checkboxes loaded_popup !! 1 = Some {| value := "Playwright"; checked := false |})
    as Hbox by (vm_compute; reflexivity).
  assert (1 ∈ change_listeners loaded_popup) as Hregistered.
  { apply (bool_decide_unpack _). vm_compute. exact I. }
  split; [exact Hbox |]. split; [exact Hregistered |].
  destruct (change_stores_selection engine_limit endpoint_Q1 always_half loaded_popup 1
              {| value := "Playwright"; checked := false |} Hbox) as (Hboxes & Hstored & _).
  split.
  - rewrite Hboxes. vm_compute. reflexivity.
  - rewrite (Hstored Hregistered), Hboxes, lookup_insert_eq. vm_compute. reflexivity.
Defined.

Lemma change_twice_witness :
  checkboxes loaded_popup !! 1 = Some {| value := "Playwright"; checked := false |} ∧
  1 ∈ change_listeners loaded_popup ∧
  checkboxes
    (snd (change engine_limit offline always_half 1
            (snd (change engine_limit endpoint_Q1 always_half 1 loaded_popup))))
    = checkboxes loaded_popup ∧
  localStorage
    (snd (change engine_limit offline always_half 1
            (snd (change engine_limit endpoint_Q1 always_half 1 loaded_popup))))
    !! "selectedCategories"
    = Some (JSON_stringify (JArr [JStr "Cypress"])).
Proof.
  assert (checkboxes loaded_popup !! 1 = Some {| value := "Playwright"; checked := false |})
    as Hbox by (vm_compute; reflexivity).
  assert (1 ∈ change_listeners loaded_popup) as Hregistered.
  { apply (bool_decide_unpack _). vm_compute. exact I. }
  split; [exact Hbox |]. split; [exact Hregistered |].
  destruct (change_twice engine_limit endpoint_Q1 always_half engine_limit offline always_half
              loaded_popup 1 {| value := "Playwright"; checked := false |} Hbox)
    as (Hboxes & Hstored & _).
  split; [exact Hboxes |].
  rewrite (Hstored Hregistered). vm_compute. reflexivity.
Defined.

Lemma save_then_load_witness :
  selected (checkboxes (popup ∅ playwright_checked)) ≠ [] ∧
  NoDup (value <$> checkboxes (popup ∅ playwright_checked)) ∧
  checkboxes
    (snd (DOMContentLoaded engine_limit offline always_half
            (popup (localStorage
                      (snd (saveCategorySelections engine_limit endpoint_Q1 always_half
                              (popup ∅ playwright_checked))))
               unchecked_boxes)))
    = playwright_checked.
Proof.
  assert (selected (checkboxes (popup ∅ playwright_checked)) ≠ []) as Hsel by discriminate.
  assert (NoDup (value <$> checkboxes (popup ∅ playwright_checked))) as Hnodup.
  { apply NoDup_cons. split; [| apply NoDup_singleton].
    intros Hin. apply list_elem_of_In in Hin. simpl in Hin. destruct Hin as [Heq | []].
    discriminate. }
  split; [exact Hsel |]. split; [exact Hnodup |].
  apply (save_then_load engine_limit endpoint_Q1 always_half engine_limit offline always_half
           (popup ∅ playwright_checked)
           (popup (localStorage
                     (snd (saveCategorySelections engine_limit endpoint_Q1 always_half
                             (popup ∅ playwright_checked))))
              unchecked_boxes)
           Hsel Hnodup); [reflexivity | apply localStorage_popup].
Defined.

Lemma run_writes_one_key_witness :
  "theme" ≠ "selectedCategories" ∧
  localStorage
    (snd (run engine_limit endpoint_Q1 always_half [Load; Change 1; NextQuestion]
            (popup {["theme" := Encodes (JStr "dark")]} unchecked_boxes)))
    !! "theme" = Some (Encodes (JStr "dark")).
Proof.
  assert ("theme" ≠ "selectedCategories") as Hkey by discriminate.
  split; [exact Hkey |].
  exact (run_writes_one_key "theme" engine_limit endpoint_Q1 always_half [Load; Change 1; NextQuestion]
           (popup {["theme" := Encodes (JStr "dark")]} unchecked_boxes) Hkey).
Defined.

Lemma run_pool_is_delivered_witness :
  Forall (delivered endpoint_Q1) (allQuestions (popup ∅ unchecked_boxes)) ∧
  Forall (delivered endpoint_Q1)
    (allQuestions (snd (run engine_limit endpoint_Q1 always_half [Load; Change 1; NextQuestion]
                          (popup ∅ unchecked_boxes)))).
Proof.
  assert (Forall (delivered endpoint_Q1) (allQuestions (popup ∅ unchecked_boxes))) as Hempty
    by constructor.
  split; [exact Hempty |].
  exact (run_pool_is_delivered engine_limit endpoint_Q1 always_half [Load; Change 1; NextQuestion]
           (popup ∅ unchecked_boxes) Hempty).
Defined.

Lemma fetchQuestions_replaces_pool_witness :
  length (requests (with_pool [JNull])) = length (requests (popup ∅ unchecked_boxes)) ∧
  drawn (with_pool [JNull]) = drawn (popup ∅ unchecked_boxes) ∧
  allQuestions
    (snd (alone engine_limit endpoint_Q1 always_half
            (fetchQuestions_start endpoint_Q1 always_half ["Cypress"]) (with_pool [JNull])))
  = allQuestions
      (snd (alone engine_limit endpoint_Q1 always_half
              (fetchQuestions_start endpoint_Q1 always_half ["Cypress"])
              (popup ∅ unchecked_boxes))).
Proof.
  split; [reflexivity |]. split; [reflexivity |].
  exact (proj2 (fetchQuestions_replaces_pool engine_limit endpoint_Q1 always_half ["Cypress"]
                  (with_pool [JNull]) (popup ∅ unchecked_boxes)) eq_refl eq_refl).
Defined.

Lemma fetchQuestion_empty_selection_frame_witness :
  selected (checkboxes (with_pool [Q1])) = [] ∧
  allQuestions (snd (fetchQuestion engine_limit endpoint_Q1 always_half (with_pool [Q1]))) = [Q1].
Proof.
  split; [reflexivity |].
  apply (fetchQuestion_empty_selection_frame engine_limit endpoint_Q1 always_half (with_pool [Q1]) eq_refl).
Defined.

Lemma endpoint_by_category_sends_questions : sends_questions endpoint_by_category.
Proof.
  intros n url r items Hr _ Hbody. unfold endpoint_by_category in Hr.
  destruct (String.eqb url (request_url "Cypress")); injection Hr as <-;
    injection Hbody as <-; repeat constructor.
Defined.

Lemma interleave_without_uncaught_exception_witness :
  sends_questions endpoint_by_category ∧ well_formed (popup ∅ unchecked_boxes) ∧
  fst (fst (interleave engine_limit endpoint_by_category always_half
              [Dispatch Load; Dispatch (Change 1);
               Resume 1; Resume 1; Resume 0; Resume 0; Resume 1; Resume 1]
              [] (popup ∅ unchecked_boxes))) = [].
Proof.
  assert (well_formed (popup ∅ unchecked_boxes)) as Hstate.
  { split; [left; reflexivity | constructor]. }
  split; [exact endpoint_by_category_sends_questions |]. split; [exact Hstate |].
  pose proof (interleave_without_uncaught_exception engine_limit endpoint_by_category always_half
                [Dispatch Load; Dispatch (Change 1);
                 Resume 1; Resume 1; Resume 0; Resume 0; Resume 1; Resume 1]
                (popup ∅ unchecked_boxes) endpoint_by_category_sends_questions Hstate) as H.
  destruct (interleave engine_limit endpoint_by_category always_half
              [Dispatch Load; Dispatch (Change 1);
               Resume 1; Resume 1; Resume 0; Resume 0; Resume 1; Resume 1]
              [] (popup ∅ unchecked_boxes)) as [[errs cycles] s'].
  destruct H as [Herrs _]. exact Herrs.
Defined.

Lemma interleave_pool_is_delivered_witness :
  Forall (delivered endpoint_by_category) (allQuestions (popup ∅ unchecked_boxes)) ∧
  Forall (delivered endpoint_by_category)
    (allQuestions
       (snd (interleave engine_limit endpoint_by_category always_half
               [Dispatch Load; Dispatch (Change 1);
                Resume 1; Resume 1; Resume 0; Resume 0; Resume 1; Resume 1]
               [] (popup ∅ unchecked_boxes)))).
Proof.
  assert (Forall (delivered endpoint_by_category) (allQuestions (popup ∅ unchecked_boxes)))
    as Hempty by constructor.
  split; [exact Hempty |].
  pose proof (interleave_pool_is_delivered engine_limit endpoint_by_category always_half
                [Dispatch Load; Dispatch (Change 1);
                 Resume 1; Resume 1; Resume 0; Resume 0; Resume 1; Resume 1]
                (popup ∅ unchecked_boxes) Hempty) as H.
  destruct (interleave engine_limit endpoint_by_category always_half
              [Dispatch Load; Dispatch (Change 1);
               Resume 1; Resume 1; Resume 0; Resume 0; Resume 1; Resume 1]
              [] (popup ∅ unchecked_boxes)) as [[errs cycles] s'].
  exact H.
Defined.
